(** * Goal-to-shopper affinity: a shallow embedding of the scoring pipeline

    The development follows the TypeScript sources file by file:
    [utils/math-utils.ts], [utils/percentile.ts],
    [merchant_level/co-orders-calculator.ts], [merchant_level/lift-calculator.ts],
    [merchant_level/normaliser.ts], [merchant_level/coaffinity-matrix.ts],
    [customer_level/seed-weight_calculator.ts],
    [customer_level/affinity-calculator.ts], [customer_level/batch-processor.ts]
    and the two lookups of [data/data-loader.ts] they call.

    Numbers.  A JavaScript [number] is a binary64 float.  The functions are
    modelled over exact numbers: a rational ([Q]) wherever the code only adds,
    multiplies, divides and compares, and a real ([R]) from the point where it
    calls [Math.log2] or [Math.exp]; [Q2R] is the bridge.  Numeric equality
    ([===] on numbers) is [Qeq] on rationals.  Statements over these numbers
    are about the formulas the code evaluates; rounding, overflow, infinities
    and the sign of zero are outside them.  Where a statement turns on
    rounding, module [Double] gives the same function over binary64 floats,
    with the host functions [Math.log2] and [Math.exp] as parameters.

    Dates.  A [Date] is its time value in milliseconds ([Z]).  [getDate] and
    [setDate] work in local time: the host's time zone is a parameter
    ([TimeZone.t]), and a time value outside the range of [Date] is an
    Invalid Date. *)

From Stdlib Require Import QArith Qround Qminmax Reals Psatz ZArith Floats.
From stdpp Require Import gmap strings list sorting pretty.

Open Scope Q_scope.

(** ** The JavaScript runtime, as far as the sources use it *)

Inductive exn : Type :=
  | TypeError                 (* reading a property of [undefined] *)
  | Error (message : string). (* [throw new Error(message)] *)

(** What running a function gives.  [NotANumber] is the point at which
    [undefined] flows into arithmetic: JavaScript would carry on with [NaN]
    (and could still throw further on), which the exact numbers above do not
    represent, so the model stops there.  [Returns] therefore means a run in
    which every cell read existed. *)
Inductive outcome (A : Type) : Type :=
  | Returns (a : A)
  | Throws (e : exn)
  | NotANumber.
Arguments Returns {A} a.
Arguments Throws {A} e.
Arguments NotANumber {A}.

#[global] Instance outcome_ret : MRet outcome := fun _ a => Returns a.
#[global] Instance outcome_bind : MBind outcome := fun _ _ f m =>
  match m with
  | Returns a => f a
  | Throws e => Throws e
  | NotANumber => NotANumber
  end.

(** [for (const x of xs) body], threading the loop state. *)
Fixpoint for_of {A S : Type} (xs : list A) (body : A -> S -> outcome S) (s : S)
  : outcome S :=
  match xs with
  | [] => Returns s
  | x :: rest => body x s ≫= for_of rest body
  end.

(** [for (let i = lo; i < hi; i++)] ranges over [range lo hi]. *)
Definition range (lo hi : nat) : list nat := seq lo (hi - lo).

Abbreviation Matrix := (list (list Q)).

(** [Array.from({ length: n }, () => Array(n).fill(0))] *)
Definition zeros (n : nat) : Matrix := replicate n (replicate n 0).

(** [m[i]] followed by a property read: a missing row makes that read throw. *)
Definition row_of (m : Matrix) (i : nat) : outcome (list Q) :=
  match m !! i with
  | Some row => Returns row
  | None => Throws TypeError
  end.

(** A cell used as a number: [undefined] becomes [NaN]. *)
Definition as_number (cell : option Q) : outcome Q :=
  match cell with
  | Some v => Returns v
  | None => NotANumber
  end.

(** [m[i][j]] used as a number. *)
Definition read (m : Matrix) (i j : nat) : outcome Q :=
  row ← row_of m i; as_number (row !! j).

(** [m[i][j]] as a value, for statements. *)
Definition cell (m : Matrix) (i j : nat) : option Q :=
  m !! i ≫= fun row => row !! j.

(** [m[i][j] = v] and [m[i][j]++] on cells that exist.  The functions below
    only write into the [n] by [n] matrix they have just created, at indices
    below [n] (for [calculateCoOrderMatrix] this is
    [buildCategoryIndexMap_lookup]), so the case of a missing cell, where
    stdpp's [alter] leaves the list as it is, does not arise. *)
Definition write (i j : nat) (v : Q) (m : Matrix) : Matrix :=
  alter (fun row => <[j := v]> row) i m.
Definition increment (i j : nat) (m : Matrix) : Matrix :=
  alter (fun row => alter (fun v => v + 1) j row) i m.

(** [[...new Set(xs)]]: the distinct elements, in order of first occurrence. *)
Definition Set_of (xs : list string) : list string :=
  fold_left (fun seen x => if decide (x ∈ seen) then seen else seen ++ [x]) xs [].

(** [sorted[k]] for a computed index [k]. *)
Definition at_index (xs : list Q) (k : Z) : option Q :=
  if (k <? 0)%Z then None else xs !! Z.to_nat k.

#[global] Instance Qle_decision : RelDecision Qle.
Proof.
  intros x y. destruct (Qlt_le_dec y x) as [H | H].
  - right. apply Qlt_not_le, H.
  - left. exact H.
Defined.

#[global] Instance Qlt_decision : RelDecision Qlt.
Proof.
  intros x y. destruct (Qlt_le_dec x y) as [H | H].
  - left. exact H.
  - right. apply Qle_not_lt, H.
Defined.

(** ** types/index.ts *)

Module Category.
Record t : Type := mk { id : string; name : string; popularity : Q }.
End Category.

Module Customer.
Record t : Type := mk { id : string; name : string; email : string; createdAt : Z }.
End Customer.

Module OrderItem.
Record t : Type := mk { categoryId : string; quantity : Q; price : Q }.
End OrderItem.

Module Order.
Record t : Type := mk {
  id : string;
  customerId : string;
  items : list OrderItem.t;
  createdAt : Z;
  total : Q
}.
End Order.

Module CoOrderMatrix.
Record t : Type := mk {
  category : list string;
  matrix : Matrix;
  totalOrders : Q;
  orderCounts : gmap string Q
}.
End CoOrderMatrix.

Module LiftMatrix.
Record t : Type := mk { category : list string; matrix : Matrix }.
End LiftMatrix.

Module NormalizedMatrix.
Record t : Type := mk {
  categories : list string;
  matrix : Matrix;
  p5 : Q;
  p95 : Q
}.
End NormalizedMatrix.

Module CoAffinityMatrix.
Record t : Type := mk { categories : list string; matrix : Matrix }.
End CoAffinityMatrix.

Module MatrixStats.
Record t : Type := mk {
  liftP5 : Q;
  liftP95 : Q;
  coOrdersP5 : Q;
  coOrdersP95 : Q;
  totalOrders : Q;
  categoryOrderCounts : gmap string Q
}.
End MatrixStats.

(** ** utils/math-utils.ts (rational part) *)

Definition clamp (value min max : Q) : Q := Qmax min (Qmin max value).

Definition normalizeToRange (value min max : Q) : Q :=
  if Qeq_bool max min then 0
  else
    let clamped := clamp value min max in
    (clamped - min) / (max - min).

(** ** utils/percentile.ts *)

Definition calculatePercentile (values : list Q) (percentile : Q) : outcome Q :=
  if decide (length values = 0%nat) then Returns 0
  else
    let sorted := merge_sort Qle values in
    let index := (percentile / 100) * (inject_Z (Z.of_nat (length sorted)) - 1) in
    let lower := Qfloor index in
    let upper := Qceiling index in
    if (lower =? upper)%Z then as_number (at_index sorted lower)
    else
      let fraction := index - inject_Z lower in
      lo ← as_number (at_index sorted lower);
      hi ← as_number (at_index sorted upper);
      Returns (lo + fraction * (hi - lo)).

Definition getP5P95Bounds (values : list Q) : outcome (Q * Q) :=
  p5 ← calculatePercentile values 5;
  p95 ← calculatePercentile values 95;
  Returns (p5, p95).

Definition normalizeP5P95 (value p5 p95 : Q) : Q :=
  if Qeq_bool p95 p5 then 0
  else
    let clampedValue := clamp value p5 p95 in
    normalizeToRange clampedValue p5 p95.

(** The loops of [extractMatrixValues]: [j] runs from [i + 1] to the length of
    row [i], so every read is of a cell that exists. *)
Definition extractMatrixValues (matrix : Matrix) : list Q :=
  fold_left (fun values i =>
    match matrix !! i with
    | None => values
    | Some row =>
        fold_left (fun values j =>
          match row !! j with
          | Some v => if Qlt_le_dec 0 v then values ++ [v] else values
          | None => values
          end) (range (i + 1) (length row)) values
    end) (range 0 (length matrix)) [].

Module Normalized.
Record t : Type := mk { normalizedMatrix : Matrix; p5 : Q; p95 : Q }.
End Normalized.

(** [p5 ?? calculatePercentile(values, 5)] *)
Definition or_else (given : option Q) (computed : outcome Q) : outcome Q :=
  match given with
  | Some v => Returns v
  | None => computed
  end.

Definition normalizeMatrixP5P95 (matrix : Matrix) (p5 p95 : option Q)
  : outcome Normalized.t :=
  let values := extractMatrixValues matrix in
  bounds_p5 ← or_else p5 (calculatePercentile values 5);
  bounds_p95 ← or_else p95 (calculatePercentile values 95);
  let normalizedMatrix :=
    imap (fun i row =>
      imap (fun j value =>
        if decide (i = j) then 0
        else normalizeP5P95 value bounds_p5 bounds_p95) row) matrix in
  Returns (Normalized.mk normalizedMatrix bounds_p5 bounds_p95).

(** ** data/data-loader.ts (the two lookups the scoring code calls) *)

(** [categories.forEach((cat, index) => map.set(cat, index))] *)
Fixpoint set_indices (ids : list string) (index : nat) (map : gmap string nat)
  : gmap string nat :=
  match ids with
  | [] => map
  | id :: rest => set_indices rest (S index) (<[id := index]> map)
  end.

Definition buildCategoryIndexMap (categories : list string) : gmap string nat :=
  set_indices categories 0 ∅.

Definition getCoAffinity (matrix : CoAffinityMatrix.t)
    (categoryIndexMap : gmap string nat) (cat1 cat2 : string) : outcome Q :=
  match categoryIndexMap !! cat1, categoryIndexMap !! cat2 with
  | Some idx1, Some idx2 => read (CoAffinityMatrix.matrix matrix) idx1 idx2
  | _, _ => Returns 0
  end.

(** ** merchant_level/co-orders-calculator.ts *)

Definition orderCategories_of (order : Order.t) : list string :=
  Set_of (map OrderItem.categoryId (Order.items order)).

(** Count single category occurrences. *)
Definition count_categories (orderCategories : list string)
    (orderCounts : gmap string Q) : gmap string Q :=
  fold_left (fun orderCounts cat =>
    match orderCounts !! cat with
    | Some count => <[cat := count + 1]> orderCounts
    | None => orderCounts
    end) orderCategories orderCounts.

(** Count co-occurrences: the pairs [(i, j)] with [i < j] of one order. *)
Fixpoint count_pairs (categoryIndexMap : gmap string nat)
    (orderCategories : list string) (matrix : Matrix) : Matrix :=
  match orderCategories with
  | [] => matrix
  | cat_i :: later =>
      count_pairs categoryIndexMap later
        (fold_left (fun matrix cat_j =>
           match categoryIndexMap !! cat_i, categoryIndexMap !! cat_j with
           | Some idx1, Some idx2 =>
               increment idx2 idx1 (increment idx1 idx2 matrix)
           | _, _ => matrix
           end) later matrix)
  end.

Definition calculateCoOrderMatrix (orders : list Order.t)
    (categories : list Category.t) : CoOrderMatrix.t :=
  let categoryIds := map Category.id categories in
  let categoryIndexMap := buildCategoryIndexMap categoryIds in
  let n := length categoryIds in
  let matrix0 := zeros n in
  let orderCounts0 := fold_left (fun oc cat => <[cat := 0]> oc) categoryIds ∅ in
  let '(matrix, orderCounts) :=
    fold_left (fun '(matrix, orderCounts) order =>
      let orderCategories := orderCategories_of order in
      (count_pairs categoryIndexMap orderCategories matrix,
       count_categories orderCategories orderCounts))
      orders (matrix0, orderCounts0) in
  CoOrderMatrix.mk categoryIds matrix
    (inject_Z (Z.of_nat (length orders))) orderCounts.

(** ** merchant_level/lift-calculator.ts *)

(** [orderCounts.get(category[i]) || 0] *)
Definition orders_of (coOrdersMatrix : CoOrderMatrix.t) (i : nat) : Q :=
  default 0 (CoOrderMatrix.category coOrdersMatrix !! i ≫= fun cat =>
             CoOrderMatrix.orderCounts coOrdersMatrix !! cat).

Definition lift_step (coOrdersMatrix : CoOrderMatrix.t) (i j : nat)
    (liftMatrix : Matrix) : outcome Matrix :=
  row ← row_of (CoOrderMatrix.matrix coOrdersMatrix) i;
  let coOrders := row !! j in
  let ordersA := orders_of coOrdersMatrix i in
  let ordersB := orders_of coOrdersMatrix j in
  if Qeq_bool ordersA 0 || Qeq_bool ordersB 0
  then Returns (write j i 0 (write i j 0 liftMatrix))
  else
    coOrders ← as_number coOrders;
    let lift :=
      (coOrders * CoOrderMatrix.totalOrders coOrdersMatrix) / (ordersA * ordersB) in
    Returns (write j i lift (write i j lift liftMatrix)).

Definition calculateLiftMatrix (coOrdersMatrix : CoOrderMatrix.t)
  : outcome LiftMatrix.t :=
  let category := CoOrderMatrix.category coOrdersMatrix in
  let n := length category in
  liftMatrix ←
    for_of (range 0 n) (fun i =>
      for_of (range (i + 1) n) (fun j => lift_step coOrdersMatrix i j))
      (zeros n);
  Returns (LiftMatrix.mk category liftMatrix).

(** ** merchant_level/normaliser.ts *)

Definition normalizeLiftMatrix (liftMatrix : LiftMatrix.t) (p5 p95 : option Q)
  : outcome NormalizedMatrix.t :=
  r ← normalizeMatrixP5P95 (LiftMatrix.matrix liftMatrix) p5 p95;
  Returns (NormalizedMatrix.mk (LiftMatrix.category liftMatrix)
             (Normalized.normalizedMatrix r) (Normalized.p5 r) (Normalized.p95 r)).

Definition normalizeCoOrdersMatrix (coOrdersMatrix : CoOrderMatrix.t)
    (p5 p95 : option Q) : outcome NormalizedMatrix.t :=
  r ← normalizeMatrixP5P95 (CoOrderMatrix.matrix coOrdersMatrix) p5 p95;
  Returns (NormalizedMatrix.mk (CoOrderMatrix.category coOrdersMatrix)
             (Normalized.normalizedMatrix r) (Normalized.p5 r) (Normalized.p95 r)).

Definition getLiftBounds (liftMatrix : LiftMatrix.t) : outcome (Q * Q) :=
  getP5P95Bounds (extractMatrixValues (LiftMatrix.matrix liftMatrix)).

Definition getCoOrdersBounds (coOrdersMatrix : CoOrderMatrix.t) : outcome (Q * Q) :=
  getP5P95Bounds (extractMatrixValues (CoOrderMatrix.matrix coOrdersMatrix)).

(** ** merchant_level/coaffinity-matrix.ts *)

Definition LIFT_WEIGHT : Q := 0.7.
Definition CO_ORDERS_WEIGHT : Q := 0.3.

Definition coaffinity_step (normalizedLift normalizedCoOrders : NormalizedMatrix.t)
    (i j : nat) (matrix : Matrix) : outcome Matrix :=
  if decide (i = j) then Returns (write i j 0 matrix)
  else
    lift ← read (NormalizedMatrix.matrix normalizedLift) i j;
    coOrders ← read (NormalizedMatrix.matrix normalizedCoOrders) i j;
    Returns (write i j (LIFT_WEIGHT * lift + CO_ORDERS_WEIGHT * coOrders) matrix).

Definition calculateCoAffinityMatrix
    (normalizedLift normalizedCoOrders : NormalizedMatrix.t)
  : outcome CoAffinityMatrix.t :=
  let n := length (NormalizedMatrix.categories normalizedLift) in
  matrix ←
    for_of (range 0 n) (fun i =>
      for_of (range 0 n) (fun j =>
        coaffinity_step normalizedLift normalizedCoOrders i j))
      (zeros n);
  Returns (CoAffinityMatrix.mk (NormalizedMatrix.categories normalizedLift) matrix).

Module Pipeline.
Record t : Type := mk {
  coOrdersMatrix : CoOrderMatrix.t;
  liftMatrix : LiftMatrix.t;
  normalizedLift : NormalizedMatrix.t;
  normalizedCoOrders : NormalizedMatrix.t;
  coAffinityMatrix : CoAffinityMatrix.t;
  stats : MatrixStats.t
}.
End Pipeline.

(** [for (const [cat, count] of map.entries()) object[cat] = count] on a fresh
    plain object: every key becomes a property, except ["__proto__"], for
    which the assignment calls the prototype setter, and that ignores a
    number. *)
Definition plain_object (map : gmap string Q) : gmap string Q :=
  delete "__proto__" map.

(** The [print...Summary] calls between the steps only write to the console
    and are left out. *)
Definition buildCoAffinityFromOrders (orders : list Order.t)
    (categories : list Category.t) : outcome Pipeline.t :=
  let coOrdersMatrix := calculateCoOrderMatrix orders categories in
  liftMatrix ← calculateLiftMatrix coOrdersMatrix;
  liftBounds ← getLiftBounds liftMatrix;
  coOrdersBounds ← getCoOrdersBounds coOrdersMatrix;
  normalizedLift ←
    normalizeLiftMatrix liftMatrix (Some liftBounds.1) (Some liftBounds.2);
  normalizedCoOrders ←
    normalizeCoOrdersMatrix coOrdersMatrix
      (Some coOrdersBounds.1) (Some coOrdersBounds.2);
  coAffinityMatrix ← calculateCoAffinityMatrix normalizedLift normalizedCoOrders;
  let stats :=
    MatrixStats.mk liftBounds.1 liftBounds.2 coOrdersBounds.1 coOrdersBounds.2
      (CoOrderMatrix.totalOrders coOrdersMatrix)
      (plain_object (CoOrderMatrix.orderCounts coOrdersMatrix)) in
  Returns (Pipeline.mk coOrdersMatrix liftMatrix normalizedLift normalizedCoOrders
             coAffinityMatrix stats).

(** ** customer_level/seed-weight_calculator.ts *)

(** A [Map<string, V>] whose iteration order is observed: keys in insertion
    order, [set] on a present key replaces the value where it stands. *)
Module JsMap.
Definition t (V : Type) : Type := list (string * V).

Fixpoint get {V} (key : string) (m : t V) : option V :=
  match m with
  | [] => None
  | (k, v) :: rest => if decide (k = key) then Some v else get key rest
  end.

Definition has {V} (key : string) (m : t V) : bool :=
  match get key m with Some _ => true | None => false end.

Fixpoint set {V} (key : string) (value : V) (m : t V) : t V :=
  match m with
  | [] => [(key, value)]
  | (k, v) :: rest =>
      if decide (k = key) then (k, value) :: rest
      else (k, v) :: set key value rest
  end.

Definition values {V} (m : t V) : list V := map snd m.
End JsMap.

Module CategoryPurchaseInfo.
Record t : Type := mk {
  categoryId : string;
  frequency : R;
  lastPurchaseDate : Z;
  isLastOrder : bool
}.
End CategoryPurchaseInfo.

Module CustomerPurchaseHistory.
Record t : Type := mk {
  customerId : string;
  categories : JsMap.t CategoryPurchaseInfo.t;
  lastOrderDate : Z;
  totalOrders : nat
}.
End CustomerPurchaseHistory.

Module SeedWeight.
Record t : Type := mk {
  categoryId : string;
  recencyBoost : R;
  frequencyBoost : R;
  seedWeight : R
}.
End SeedWeight.

Module WeightedSignal.
Record t : Type := mk { categoryId : string; signal : R }.
End WeightedSignal.

Module CustomerAffinityResult.
Record t : Type := mk {
  customerId : string;
  goalCategory : string;
  seedWeights : list SeedWeight.t;
  weightedSignals : list WeightedSignal.t;
  maxWeightedSignal : R;
  affinity : R
}.
End CustomerAffinityResult.

(** [log2] of utils/math-utils.ts. *)
Definition log2 (n : R) : R :=
  if Rle_dec n 0 then 0%R else (ln n / ln 2)%R.

Definition RECENCY_BOOST_LAST_ORDER : R := 0.75.
Definition RECENCY_BOOST_OLDER : R := 0.5.
Definition FREQUENCY_BOOST_CAP : R := 1.6.
Definition FREQUENCY_BOOST_BASE : R := 1.0.
Definition FREQUENCY_BOOST_MULTIPLIER : R := 0.5.

(** [orders.sort((a, b) => b.createdAt.getTime() - a.createdAt.getTime())]:
    newest first, and orders of equal time keep their relative order. *)
Fixpoint insert_newest_first (o : Order.t) (sorted : list Order.t) : list Order.t :=
  match sorted with
  | [] => [o]
  | o' :: rest =>
      if decide (Order.createdAt o' <= Order.createdAt o)%Z
      then o :: o' :: rest
      else o' :: insert_newest_first o rest
  end.

Definition sort_newest_first (orders : list Order.t) : list Order.t :=
  foldr insert_newest_first [] orders.

Definition record_purchase (lastOrderCategories : list string) (order : Order.t)
    (categories : JsMap.t CategoryPurchaseInfo.t) (catId : string)
  : JsMap.t CategoryPurchaseInfo.t :=
  match JsMap.get catId categories with
  | Some existing =>
      let frequency := (CategoryPurchaseInfo.frequency existing + 1)%R in
      let lastPurchaseDate :=
        if decide (CategoryPurchaseInfo.lastPurchaseDate existing
                   < Order.createdAt order)%Z
        then Order.createdAt order
        else CategoryPurchaseInfo.lastPurchaseDate existing in
      JsMap.set catId
        (CategoryPurchaseInfo.mk (CategoryPurchaseInfo.categoryId existing)
           frequency lastPurchaseDate (CategoryPurchaseInfo.isLastOrder existing))
        categories
  | None =>
      JsMap.set catId
        (CategoryPurchaseInfo.mk catId 1%R (Order.createdAt order)
           (bool_decide (catId ∈ lastOrderCategories)))
        categories
  end.

Definition buildCustomerPurchaseHistory (customerId : string)
    (orders : list Order.t) : option CustomerPurchaseHistory.t :=
  let customerOrders :=
    sort_newest_first
      (filter (fun o => Order.customerId o = customerId) orders) in
  match customerOrders with
  | [] => None
  | lastOrder :: _ =>
      let lastOrderCategories := orderCategories_of lastOrder in
      let categories :=
        fold_left (fun categories order =>
          fold_left (record_purchase lastOrderCategories order)
            (orderCategories_of order) categories)
          customerOrders [] in
      Some (CustomerPurchaseHistory.mk customerId categories
              (Order.createdAt lastOrder) (length customerOrders))
  end.

Definition calculateFrequencyBoost (frequency : R) : R :=
  if Rle_dec frequency 0 then FREQUENCY_BOOST_BASE
  else
    let boost :=
      (FREQUENCY_BOOST_BASE + FREQUENCY_BOOST_MULTIPLIER * log2 frequency)%R in
    Rmin boost FREQUENCY_BOOST_CAP.

Definition calculateRecencyBoost (isLastOrder : bool) : R :=
  if isLastOrder then RECENCY_BOOST_LAST_ORDER else RECENCY_BOOST_OLDER.

Definition calculateSeedWeight (purchaseInfo : CategoryPurchaseInfo.t)
  : SeedWeight.t :=
  let recencyBoost :=
    calculateRecencyBoost (CategoryPurchaseInfo.isLastOrder purchaseInfo) in
  let frequencyBoost :=
    calculateFrequencyBoost (CategoryPurchaseInfo.frequency purchaseInfo) in
  let seedWeight := (recencyBoost * frequencyBoost)%R in
  SeedWeight.mk (CategoryPurchaseInfo.categoryId purchaseInfo)
    recencyBoost frequencyBoost seedWeight.

Definition calculateAllSeedWeights (purchaseHistory : CustomerPurchaseHistory.t)
  : list SeedWeight.t :=
  map calculateSeedWeight
    (JsMap.values (CustomerPurchaseHistory.categories purchaseHistory)).

Definition MS_PER_DAY : Z := 86400000.

(** The host's time zone, as ECMAScript's [LocalTZA(t, isUTC)]: the offset of
    local time from UTC in milliseconds, at a UTC time value and at a local
    time value (for a local time that a transition skips or repeats the host
    uses the offset in force before the transition). *)
Module TimeZone.
Record t : Type := mk {
  offset_at_utc : Z -> Z;
  offset_at_local : Z -> Z
}.
End TimeZone.

(** [TimeClip]: a time value more than 8.64e15 ms from the epoch makes an
    Invalid Date ([None]). *)
Definition TimeClip (time : Z) : option Z :=
  if decide (-8640000000000000 <= time <= 8640000000000000)%Z
  then Some time else None.

(** [date.setDate(date.getDate() - days)] for a whole number of days.
    [getDate] is the day of the month of the local time; [setDate(dt)] makes
    the local time [MakeDate(MakeDay(year, month, dt), TimeWithinDay)] of the
    same local year and month, and [MakeDay] is the day number of the first of
    that month plus [dt - 1]: together they move the local time back by
    [days] days of 86400000 ms, keeping the local time of day.  The result
    is read back as UTC and clipped. *)
Definition setDate_back (tz : TimeZone.t) (date : Z) (days : Z) : option Z :=
  let localTime := (date + TimeZone.offset_at_utc tz date)%Z in
  let newDate := (localTime - days * MS_PER_DAY)%Z in
  TimeClip (newDate - TimeZone.offset_at_local tz newDate)%Z.

(** [purchaseHistory.lastOrderDate >= cutoffDate] compares the time values;
    against an Invalid Date the comparison is false. *)
Definition isCustomerEligible (tz : TimeZone.t)
    (purchaseHistory : CustomerPurchaseHistory.t)
    (goalCategory : string) (activityDays : Z) (referenceDate : Z) : bool :=
  if JsMap.has goalCategory (CustomerPurchaseHistory.categories purchaseHistory)
  then false
  else
    match setDate_back tz referenceDate activityDays with
    | Some cutoffDate =>
        bool_decide
          (cutoffDate <= CustomerPurchaseHistory.lastOrderDate purchaseHistory)%Z
    | None => false
    end.

(** ** customer_level/affinity-calculator.ts *)

Definition calculateWeightedSignals (seedWeights : list SeedWeight.t)
    (goalCategory : string) (coAffinityMatrix : CoAffinityMatrix.t)
    (categoryIndexMap : gmap string nat) : outcome (list WeightedSignal.t) :=
  for_of seedWeights (fun seedWeight signals =>
    coAffinity ← getCoAffinity coAffinityMatrix categoryIndexMap
                   (SeedWeight.categoryId seedWeight) goalCategory;
    let signal := (Q2R coAffinity * SeedWeight.seedWeight seedWeight)%R in
    Returns (signals ++ [WeightedSignal.mk (SeedWeight.categoryId seedWeight) signal]))
    [].

(** [Math.max(x, ...xs)] on at least one argument. *)
Definition Math_max (x : R) (xs : list R) : R := fold_left Rmax xs x.

Definition calculateRawSignal (weightedSignals : list WeightedSignal.t) : R :=
  match map WeightedSignal.signal weightedSignals with
  | [] => 0%R
  | s :: rest => Math_max s rest
  end.

Definition calculateFinalAffinity (rawSignal : R) : R :=
  (1 - exp (- rawSignal))%R.

Definition calculateCustomerAffinity (purchaseHistory : CustomerPurchaseHistory.t)
    (goalCategory : string) (coAffinityMatrix : CoAffinityMatrix.t)
    (categoryIndexMap : gmap string nat) : outcome CustomerAffinityResult.t :=
  let seedWeights := calculateAllSeedWeights purchaseHistory in
  weightedSignals ←
    calculateWeightedSignals seedWeights goalCategory coAffinityMatrix
      categoryIndexMap;
  let maxWeightedSignal := calculateRawSignal weightedSignals in
  let affinity := calculateFinalAffinity maxWeightedSignal in
  Returns (CustomerAffinityResult.mk
             (CustomerPurchaseHistory.customerId purchaseHistory) goalCategory
             seedWeights weightedSignals maxWeightedSignal affinity).

Definition createCategoryIndexMap (coAffinityMatrix : CoAffinityMatrix.t)
  : gmap string nat :=
  buildCategoryIndexMap (CoAffinityMatrix.categories coAffinityMatrix).

(** ** customer_level/batch-processor.ts *)

(** A run that writes to the console: the lines written, then how it ended.
    Lines written before an exception stay written. *)
Record io (A : Type) : Type := Io { console : list string; result : outcome A }.
Arguments Io {A} console result.
Arguments console {A} _.
Arguments result {A} _.

#[global] Instance io_ret : MRet io := fun _ a => Io [] (Returns a).
#[global] Instance io_bind : MBind io := fun _ _ f m =>
  match result m with
  | Returns a => Io (console m ++ console (f a)) (result (f a))
  | Throws e => Io (console m) (Throws e)
  | NotANumber => Io (console m) NotANumber
  end.

Definition console_log (line : string) : io unit := Io [line] (Returns tt).
Definition throw {A} (e : exn) : io A := Io [] (Throws e).
Definition run {A} (m : outcome A) : io A := Io [] m.

Fixpoint for_of_io {A S : Type} (xs : list A) (body : A -> S -> io S) (s : S)
  : io S :=
  match xs with
  | [] => mret s
  | x :: rest => body x s ≫= for_of_io rest body
  end.

Definition dquote : string := String (Ascii.ascii_of_nat 34) EmptyString.
Definition newline : string := String (Ascii.ascii_of_nat 10) EmptyString.

Module Skipped.
Record t : Type := mk { customerId : string; reason : string }.
End Skipped.

Module Batch.
Record t : Type := mk {
  results : list CustomerAffinityResult.t;
  skipped : list Skipped.t
}.
End Batch.

(** The variables the customer loop updates. *)
Module Loop.
Record t : Type := mk {
  results : list CustomerAffinityResult.t;
  skipped : list Skipped.t;
  processed : nat;
  eligible : nat
}.
End Loop.

Definition goal_not_found (goalCategory : string) (categories : list string) : string :=
  ("Goal category " +:+ dquote +:+ goalCategory +:+ dquote +:+ " not found. "
   +:+ "Available categories: " +:+ String.concat ", " categories)%string.

Definition process_customer (tz : TimeZone.t) (orders : list Order.t)
    (coAffinityMatrix : CoAffinityMatrix.t) (categoryIndexMap : gmap string nat)
    (goalCategory : string) (activeDays : Z) (referenceDate : Z)
    (total : nat) (customer : Customer.t) (st : Loop.t) : io Loop.t :=
  let processed := S (Loop.processed st) in
  _ ← (if decide (processed mod 1000 = 0)%nat
       then console_log ("  Processed " +:+ pretty processed +:+ "/"
                         +:+ pretty total +:+ " customers...")
       else mret tt);
  match buildCustomerPurchaseHistory (Customer.id customer) orders with
  | None =>
      mret (Loop.mk (Loop.results st)
              (Loop.skipped st ++ [Skipped.mk (Customer.id customer) "No orders"])
              processed (Loop.eligible st))
  | Some purchaseHistory =>
      if negb (isCustomerEligible tz purchaseHistory goalCategory activeDays
                 referenceDate)
      then
        let hasGoalCategory :=
          JsMap.has goalCategory
            (CustomerPurchaseHistory.categories purchaseHistory) in
        let reason :=
          if hasGoalCategory then "Already purchased goal category"
          else "Not active in window" in
        mret (Loop.mk (Loop.results st)
                (Loop.skipped st ++ [Skipped.mk (Customer.id customer) reason])
                processed (Loop.eligible st))
      else
        let eligible := S (Loop.eligible st) in
        result ← run (calculateCustomerAffinity purchaseHistory goalCategory
                        coAffinityMatrix categoryIndexMap);
        mret (Loop.mk (Loop.results st ++ [result]) (Loop.skipped st)
                processed eligible)
  end.

Definition processAllCustomers (tz : TimeZone.t)
    (customers : list Customer.t) (orders : list Order.t)
    (coAffinityMatrix : CoAffinityMatrix.t)
    (goalCategory : string) (activeDays : Z) (referenceDate : Z) : io Batch.t :=
  let categoryIndexMap := createCategoryIndexMap coAffinityMatrix in
  if decide (goalCategory ∈ CoAffinityMatrix.categories coAffinityMatrix)
  then
    _ ← console_log ("Processing " +:+ pretty (length customers)
                     +:+ " customers...");
    st ← for_of_io customers
           (process_customer tz orders coAffinityMatrix categoryIndexMap
              goalCategory activeDays referenceDate (length customers))
           (Loop.mk [] [] 0 0);
    _ ← console_log (newline +:+ "Processed " +:+ pretty (Loop.processed st)
                     +:+ " customers");
    _ ← console_log ("  Eligible: " +:+ pretty (Loop.eligible st));
    _ ← console_log ("  Skipped: " +:+ pretty (length (Loop.skipped st)));
    mret (Batch.mk (Loop.results st) (Loop.skipped st))
  else
    throw (Error (goal_not_found goalCategory
                    (CoAffinityMatrix.categories coAffinityMatrix))).


(** ** The lookups by category name of the merchant-level files *)

(** [xs.indexOf(x)]: the first position of [x]; [None] stands for [-1]. *)
Fixpoint indexOf (xs : list string) (x : string) : option nat :=
  match xs with
  | [] => None
  | y :: rest => if decide (y = x) then Some 0%nat else S <$> indexOf rest x
  end.

(** The body shared by [getCoOrderCount], [getLift] and [getCoAffinityScore]. *)
Definition lookup_by_name (category : list string) (matrix : Matrix)
    (cat1 cat2 : string) : outcome Q :=
  match indexOf category cat1, indexOf category cat2 with
  | Some idx1, Some idx2 => read matrix idx1 idx2
  | _, _ => Returns 0
  end.

Definition getCoOrderCount (coOrdersMatrix : CoOrderMatrix.t)
    (cat1 cat2 : string) : outcome Q :=
  lookup_by_name (CoOrderMatrix.category coOrdersMatrix)
    (CoOrderMatrix.matrix coOrdersMatrix) cat1 cat2.

Definition getLift (liftMatrix : LiftMatrix.t) (cat1 cat2 : string) : outcome Q :=
  lookup_by_name (LiftMatrix.category liftMatrix)
    (LiftMatrix.matrix liftMatrix) cat1 cat2.

Definition getCoAffinityScore (coAffinityMatrix : CoAffinityMatrix.t)
    (cat1 cat2 : string) : outcome Q :=
  lookup_by_name (CoAffinityMatrix.categories coAffinityMatrix)
    (CoAffinityMatrix.matrix coAffinityMatrix) cat1 cat2.

(** ** customer_level/seed-weight_calculator.ts, continued *)

Definition getUnpurchasedCategories (purchaseHistory : CustomerPurchaseHistory.t)
    (allCategories : list string) : list string :=
  filter (fun cat =>
            JsMap.has cat (CustomerPurchaseHistory.categories purchaseHistory)
            = false) allCategories.

(** ** utils/math-utils.ts (the statistics, applied to affinities) *)

#[global] Instance Rle_decision : RelDecision Rle := Rle_dec.
#[global] Instance Rlt_decision : RelDecision Rlt := Rlt_dec.

Module MathUtils.

(** [values.reduce((sum, val) => sum + val, 0)] *)
Definition sum (values : list R) : R := fold_left Rplus values 0%R.

Definition mean (values : list R) : R :=
  if decide (length values = 0%nat) then 0%R
  else (sum values / INR (length values))%R.

(** [sorted[k]] on reals, [0] standing in where the index is out of range
    (which [median] does not reach). *)
Definition nth_R (sorted : list R) (k : nat) : R := default 0%R (sorted !! k).

Definition median (values : list R) : R :=
  if decide (length values = 0%nat) then 0%R
  else
    let sorted := merge_sort Rle values in
    let mid := (length sorted / 2)%nat in
    if decide (length sorted mod 2 = 0)%nat
    then ((nth_R sorted (mid - 1) + nth_R sorted mid) / 2)%R
    else nth_R sorted mid.

(** [Math.min(x, ...xs)] on at least one argument. *)
Definition Math_min (x : R) (xs : list R) : R := fold_left Rmin xs x.

Definition min (values : list R) : R :=
  match values with
  | [] => 0%R
  | v :: rest => Math_min v rest
  end.

Definition max (values : list R) : R :=
  match values with
  | [] => 0%R
  | v :: rest => Math_max v rest
  end.

End MathUtils.

(** ** customer_level/batch-processor.ts, continued *)

Module AffinityDistribution.
Record t : Type := mk { low : nat; medium : nat; high : nat }.
End AffinityDistribution.

Module AffinityStats.
Record t : Type := mk {
  goalCategory : string;
  totalEligibleCustomers : nat;
  processedCustomers : nat;
  avgAffinity : R;
  medianAffinity : R;
  minAffinity : R;
  maxAffinity : R;
  affinityDistribution : AffinityDistribution.t
}.
End AffinityStats.

Definition calculateAffinityStats (results : list CustomerAffinityResult.t)
    (goalCategory : string) (totalCustomers : nat) : AffinityStats.t :=
  let affinities := map CustomerAffinityResult.affinity results in
  let low := length (filter (fun a => (a < 0.33)%R) affinities) in
  let medium :=
    length (filter (fun a => (0.33 <= a)%R /\ (a < 0.66)%R) affinities) in
  let high := length (filter (fun a => (0.66 <= a)%R) affinities) in
  AffinityStats.mk goalCategory totalCustomers (length results)
    (MathUtils.mean affinities) (MathUtils.median affinities)
    (MathUtils.min affinities) (MathUtils.max affinities)
    (AffinityDistribution.mk low medium high).

(** ** The seed weight and the affinity in double precision

    The arithmetic of [calculateSeedWeight] and [calculateFinalAffinity] on
    binary64 floats.  [Math.log2] and [Math.exp] are functions of the host,
    which ECMAScript leaves implementation-approximated: they are parameters
    here. *)

#[local] Set Warnings "-inexact-float".

Module Double.

Module CategoryPurchaseInfo.
Record t : Type := mk {
  categoryId : string;
  frequency : float;
  lastPurchaseDate : Z;
  isLastOrder : bool
}.
End CategoryPurchaseInfo.

Module SeedWeight.
Record t : Type := mk {
  categoryId : string;
  recencyBoost : float;
  frequencyBoost : float;
  seedWeight : float
}.
End SeedWeight.

Definition RECENCY_BOOST_LAST_ORDER : float := 0.75%float.
Definition RECENCY_BOOST_OLDER : float := 0.5%float.
Definition FREQUENCY_BOOST_CAP : float := 1.6%float.
Definition FREQUENCY_BOOST_BASE : float := 1.0%float.
Definition FREQUENCY_BOOST_MULTIPLIER : float := 0.5%float.

(** [Math.min(x, y)]: [NaN] if either is [NaN], and [-0] counts as less than
    [+0]. *)
Definition Math_min (x y : float) : float :=
  if is_nan x || is_nan y then nan
  else if (x <? y)%float then x
  else if (y <? x)%float then y
  else if is_zero x && get_sign x then x else y.

Definition log2 (Math_log2 : float -> float) (n : float) : float :=
  if (n <=? 0)%float then 0%float else Math_log2 n.

Definition calculateFrequencyBoost (Math_log2 : float -> float)
    (frequency : float) : float :=
  if (frequency <=? 0)%float then FREQUENCY_BOOST_BASE
  else
    let boost :=
      (FREQUENCY_BOOST_BASE
       + FREQUENCY_BOOST_MULTIPLIER * log2 Math_log2 frequency)%float in
    Math_min boost FREQUENCY_BOOST_CAP.

Definition calculateRecencyBoost (isLastOrder : bool) : float :=
  if isLastOrder then RECENCY_BOOST_LAST_ORDER else RECENCY_BOOST_OLDER.

Definition calculateSeedWeight (Math_log2 : float -> float)
    (purchaseInfo : CategoryPurchaseInfo.t) : SeedWeight.t :=
  let recencyBoost :=
    calculateRecencyBoost (CategoryPurchaseInfo.isLastOrder purchaseInfo) in
  let frequencyBoost :=
    calculateFrequencyBoost Math_log2
      (CategoryPurchaseInfo.frequency purchaseInfo) in
  let seedWeight := (recencyBoost * frequencyBoost)%float in
  SeedWeight.mk (CategoryPurchaseInfo.categoryId purchaseInfo)
    recencyBoost frequencyBoost seedWeight.

Definition calculateFinalAffinity (Math_exp : float -> float)
    (rawSignal : float) : float :=
  (1 - Math_exp (- rawSignal))%float.

End Double.
(** ** Vocabulary of the statements *)

(** An [n] by [n] matrix. *)
Definition square (n : nat) (m : Matrix) : Prop :=
  length m = n /\ forall i row, m !! i = Some row -> length row = n.

Definition symmetric (n : nat) (m : Matrix) : Prop :=
  forall i j, (i < n)%nat -> (j < n)%nat -> cell m i j = cell m j i.

Definition zero_diagonal (n : nat) (m : Matrix) : Prop :=
  forall i, (i < n)%nat -> cell m i i = Some 0.

(** A loop body that, on an [n] by [n] matrix, returns, and leaves it as it
    was but for the cells selected by [W], which then hold [f]. *)
Definition fills (n : nat) (W : nat -> nat -> bool) (f : nat -> nat -> Q)
    (body : Matrix -> outcome Matrix) : Prop :=
  forall m, square n m ->
    exists m', body m = Returns m' /\ square n m'
      /\ forall a b, cell m' a b = if W a b then Some (f a b) else cell m a b.

(** The value [calculateCoAffinityMatrix] assigns to cell [(a, b)]. *)
Definition blend (lift coOrders : Matrix) (a b : nat) : Q :=
  if decide (a = b) then 0
  else 0.7 * default 0 (cell lift a b) + 0.3 * default 0 (cell coOrders a b).

(** The value [calculateLiftMatrix] assigns to cell [(a, b)]: the loop visits
    the pair once, as [(min a b, max a b)]. *)
Definition lift_value (co : CoOrderMatrix.t) (a b : nat) : Q :=
  if decide (a = b) then 0
  else
    let i := Nat.min a b in
    let j := Nat.max a b in
    if Qeq_bool (orders_of co i) 0 || Qeq_bool (orders_of co j) 0 then 0
    else
      (default 0 (cell (CoOrderMatrix.matrix co) i j) * CoOrderMatrix.totalOrders co)
      / (orders_of co i * orders_of co j).

(** The sample of the percentiles, in the words of the specification: the
    strictly positive values of the upper triangle (row [i], columns after
    [i]), row by row. *)
Definition upper_triangle_positive (matrix : Matrix) : list Q :=
  concat (imap (fun i row => filter (fun v => 0 < v) (drop (S i) row)) matrix).

(** The fractional rank [calculatePercentile] interpolates at. *)
Definition rank (values : list Q) (percentile : Q) : Q :=
  (percentile / 100) * (inject_Z (Z.of_nat (length (merge_sort Qle values))) - 1).

(** What every matrix of the pipeline satisfies. *)
Definition symmetric_hollow (n : nat) (m : Matrix) : Prop :=
  square n m /\ symmetric n m /\ zero_diagonal n m.

(** The cutoff of the activity window: the reference date moved back
    [activeDays] days of 24 hours on the local clock, read back as UTC. *)
Definition cutoff_time (tz : TimeZone.t) (activeDays referenceDate : Z) : Z :=
  let localTime := (referenceDate + TimeZone.offset_at_utc tz referenceDate)%Z in
  let newDate := (localTime - activeDays * 86400000)%Z in
  (newDate - TimeZone.offset_at_local tz newDate)%Z.

(** A last order is inside the activity window when the cutoff is in the
    range of [Date], 8.64e15 ms either side of the epoch, and the last order
    is not before it. *)
Definition active_in_window (tz : TimeZone.t) (activeDays referenceDate : Z)
    (lastOrderDate : Z) : Prop :=
  (-8640000000000000 <= cutoff_time tz activeDays referenceDate
   <= 8640000000000000)%Z
  /\ (cutoff_time tz activeDays referenceDate <= lastOrderDate)%Z.

#[global] Instance active_in_window_dec tz activeDays referenceDate lastOrderDate :
  Decision (active_in_window tz activeDays referenceDate lastOrderDate).
Proof. unfold active_in_window. apply _. Defined.

(** The three per-customer skip conditions, in the order the batch run
    reports them; [None] for a customer who is scored. *)
Definition skip_reason (tz : TimeZone.t) (orders : list Order.t)
    (goalCategory : string) (activeDays referenceDate : Z)
    (customer : Customer.t) : option string :=
  match buildCustomerPurchaseHistory (Customer.id customer) orders with
  | None => Some "No orders"
  | Some history =>
      match JsMap.get goalCategory (CustomerPurchaseHistory.categories history) with
      | Some _ => Some "Already purchased goal category"
      | None =>
          if decide (active_in_window tz activeDays referenceDate
                       (CustomerPurchaseHistory.lastOrderDate history))
          then None
          else Some "Not active in window"
      end
  end.

Definition skip_records (tz : TimeZone.t) (orders : list Order.t)
    (goalCategory : string) (activeDays referenceDate : Z)
    (customers : list Customer.t) : list Skipped.t :=
  omap (fun customer =>
          Skipped.mk (Customer.id customer)
            <$> skip_reason tz orders goalCategory activeDays referenceDate
                  customer)
    customers.

(** The histories of the customers that are scored, in order. *)
Definition scored_histories (tz : TimeZone.t) (orders : list Order.t)
    (goalCategory : string) (activeDays referenceDate : Z)
    (customers : list Customer.t) : list CustomerPurchaseHistory.t :=
  omap (fun customer =>
          match buildCustomerPurchaseHistory (Customer.id customer) orders with
          | Some history =>
              if isCustomerEligible tz history goalCategory activeDays
                   referenceDate
              then Some history else None
          | None => None
          end) customers.

(** Scoring those histories one after the other. *)
Definition score_all (coAffinityMatrix : CoAffinityMatrix.t) (goalCategory : string)
    (histories : list CustomerPurchaseHistory.t)
    (results : list CustomerAffinityResult.t)
  : outcome (list CustomerAffinityResult.t) :=
  for_of histories (fun history results =>
    r ← calculateCustomerAffinity history goalCategory coAffinityMatrix
          (createCategoryIndexMap coAffinityMatrix);
    Returns (results ++ [r])) results.


(** ** Vocabulary of the further properties *)

(** The categories an order has at least one item of. *)
Definition categories_in (order : Order.t) : list string :=
  map OrderItem.categoryId (Order.items order).

(** How many orders have an item of the category, and of both categories. *)
Definition orders_with (cat : string) (orders : list Order.t) : nat :=
  length (filter (fun o => cat ∈ categories_in o) orders).

Definition orders_with_both (cat1 cat2 : string) (orders : list Order.t) : nat :=
  length (filter (fun o => cat1 ∈ categories_in o /\ cat2 ∈ categories_in o)
            orders).

(** A count as a number. *)
Definition count (k : nat) : Q := inject_Z (Z.of_nat k).

(** The orders of one customer, in the order of the order list. *)
Definition customer_orders (customerId : string) (orders : list Order.t)
  : list Order.t :=
  filter (fun o => Order.customerId o = customerId) orders.

(** The most recent order of a list: the first listed among those with the
    greatest creation time. *)
Fixpoint newest (orders : list Order.t) : option Order.t :=
  match orders with
  | [] => None
  | o :: rest =>
      match newest rest with
      | None => Some o
      | Some o' =>
          if decide (Order.createdAt o' <= Order.createdAt o)%Z then Some o
          else Some o'
      end
  end.

(** What [record_purchase] stores for a category, given what was stored. *)
Definition updated_info (lastOrderCategories : list string) (order : Order.t)
    (catId : string) (existing : option CategoryPurchaseInfo.t)
  : CategoryPurchaseInfo.t :=
  match existing with
  | Some e =>
      CategoryPurchaseInfo.mk (CategoryPurchaseInfo.categoryId e)
        (CategoryPurchaseInfo.frequency e + 1)
        (if decide (CategoryPurchaseInfo.lastPurchaseDate e < Order.createdAt order)%Z
         then Order.createdAt order
         else CategoryPurchaseInfo.lastPurchaseDate e)
        (CategoryPurchaseInfo.isLastOrder e)
  | None =>
      CategoryPurchaseInfo.mk catId 1 (Order.createdAt order)
        (bool_decide (catId ∈ lastOrderCategories))
  end.

(** What a purchase history holds for a category after the orders [seen]. *)
Definition info_of (lastOrderCategories : list string) (seen : list Order.t)
    (cat : string) (stored : option CategoryPurchaseInfo.t) : Prop :=
  match stored with
  | None => orders_with cat seen = 0%nat
  | Some info =>
      CategoryPurchaseInfo.categoryId info = cat
      /\ (1 <= orders_with cat seen)%nat
      /\ CategoryPurchaseInfo.frequency info = INR (orders_with cat seen)
      /\ CategoryPurchaseInfo.isLastOrder info
         = bool_decide (cat ∈ lastOrderCategories)
      /\ (exists o, o ∈ seen /\ cat ∈ categories_in o
                    /\ Order.createdAt o = CategoryPurchaseInfo.lastPurchaseDate info)
      /\ (forall o, o ∈ seen -> cat ∈ categories_in o ->
            (Order.createdAt o <= CategoryPurchaseInfo.lastPurchaseDate info)%Z)
  end.

(** The weighted signal a seed weight gives for a goal category. *)
Definition signal_of (coAffinityMatrix : CoAffinityMatrix.t)
    (categoryIndexMap : gmap string nat) (goalCategory : string)
    (seedWeight : SeedWeight.t) (weighted : WeightedSignal.t) : Prop :=
  WeightedSignal.categoryId weighted = SeedWeight.categoryId seedWeight
  /\ exists coAffinity,
       getCoAffinity coAffinityMatrix categoryIndexMap
         (SeedWeight.categoryId seedWeight) goalCategory = Returns coAffinity
       /\ WeightedSignal.signal weighted
          = (Q2R coAffinity * SeedWeight.seedWeight seedWeight)%R.

(** The progress line the customer loop writes after every thousandth
    customer. *)
Definition progress_line (total processed : nat) : string :=
  "  Processed " +:+ pretty processed +:+ "/" +:+ pretty total
  +:+ " customers...".
(** ** Worked inputs *)

Definition purchased_four_times : CategoryPurchaseInfo.t :=
  CategoryPurchaseInfo.mk "beauty" 4 0 true.

Definition two_signals : list WeightedSignal.t :=
  [WeightedSignal.mk "skincare" 0.2; WeightedSignal.mk "haircare" 0.3].

Definition bought_beauty : CustomerPurchaseHistory.t :=
  CustomerPurchaseHistory.mk "c1"
    [("beauty", CategoryPurchaseInfo.mk "beauty" 1 1000 true)] 1000 1.

Definition bought_books : CustomerPurchaseHistory.t :=
  CustomerPurchaseHistory.mk "c2"
    [("books", CategoryPurchaseInfo.mk "books" 1 0 true)] 0 1.

(** Two normalized matrices over the same three categories, listed in
    different orders. *)
Definition lift_abc : NormalizedMatrix.t :=
  NormalizedMatrix.mk ["a"; "b"; "c"] [[0; 1; 0]; [1; 0; 0]; [0; 0; 0]] 0 1.
Definition coOrders_cab : NormalizedMatrix.t :=
  NormalizedMatrix.mk ["c"; "a"; "b"] [[0; 0; 0]; [0; 0; 1]; [0; 1; 0]] 0 1.
Definition coOrders_abc : NormalizedMatrix.t :=
  NormalizedMatrix.mk ["a"; "b"; "c"] [[0; 1; 0]; [1; 0; 0]; [0; 0; 0]] 0 1.

(** Categories A and B together in 3 of 10 orders, A in 5 and B in 4. *)
Definition coOrders_AB : CoOrderMatrix.t :=
  CoOrderMatrix.mk ["A"; "B"] [[0; 3]; [3; 0]] 10
    (<["B" := 4]> (<["A" := 5]> ∅)).

(** A symmetric matrix whose upper triangle holds 2, 5 and 5. *)
Definition matrix_255 : Matrix := [[0; 2; 5]; [2; 0; 5]; [5; 5; 0]].

(** A small shop: alice is active and never bought beauty; bob bought beauty
    long ago; carol bought skincare long ago; dave never ordered. *)
Definition day (d : Z) : Z := (d * 86400000)%Z.
Definition shop_matrix : CoAffinityMatrix.t :=
  CoAffinityMatrix.mk ["skincare"; "beauty"] [[0; 0.5]; [0.5; 0]].
Definition shop_orders : list Order.t :=
  [Order.mk "o1" "alice" [OrderItem.mk "skincare" 1 10] (day 200) 10;
   Order.mk "o2" "bob" [OrderItem.mk "beauty" 1 20] (day 10) 20;
   Order.mk "o3" "carol" [OrderItem.mk "skincare" 2 10] (day 10) 20].
Definition alice : Customer.t := Customer.mk "alice" "Alice" "alice@shop" 0.
Definition bob : Customer.t := Customer.mk "bob" "Bob" "bob@shop" 0.
Definition carol : Customer.t := Customer.mk "carol" "Carol" "carol@shop" 0.
Definition dave : Customer.t := Customer.mk "dave" "Dave" "dave@shop" 0.

Definition shop_categories : list Category.t :=
  [Category.mk "skincare" "Skincare" 0.15; Category.mk "beauty" "Beauty" 0.12].


(** The time zone of a host on UTC, and one that moves its clocks forward
    from UTC+1 to UTC+2 at the start of day 100. *)
Definition utc : TimeZone.t := TimeZone.mk (fun _ => 0%Z) (fun _ => 0%Z).
Definition summer_time : TimeZone.t :=
  TimeZone.mk
    (fun t => if decide (t < day 100)%Z then 3600000%Z else 7200000%Z)
    (fun t => if decide (t < day 100 + 7200000)%Z then 3600000%Z else 7200000%Z).

(** A customer whose only order, of books, is of day 95. *)
Definition ordered_on_day_95 : CustomerPurchaseHistory.t :=
  CustomerPurchaseHistory.mk "c3"
    [("books", CategoryPurchaseInfo.mk "books" 1 (day 95) true)] (day 95) 1.

(** The seed of the worked example, with its frequency as a double; a
    [Math.log2] of which only the value at 4 is known, and a [Math.exp] of
    which only the value at -40 is known (the double nearest to exp (-40)). *)
Definition purchased_four_times64 : Double.CategoryPurchaseInfo.t :=
  Double.CategoryPurchaseInfo.mk "beauty" 4%float 0 true.
Definition Math_log2_at_4 (x : float) : float :=
  if (x =? 4)%float then 2%float else nan.
Definition Math_exp_at_minus_40 (x : float) : float :=
  if (x =? -40)%float then 4.248354255291589e-18%float else nan.

(** Four baskets over three categories; the first has two skincare items,
    the third an item of a category that is not listed. *)
Definition item (cat : string) : OrderItem.t := OrderItem.mk cat 1 10.
Definition basket_categories : list Category.t :=
  [Category.mk "skincare" "Skincare" 0.15; Category.mk "beauty" "Beauty" 0.12;
   Category.mk "haircare" "Hair Care" 0.08].
Definition basket_orders : list Order.t :=
  [Order.mk "b1" "alice" [item "skincare"; item "beauty"; item "skincare"] (day 1) 30;
   Order.mk "b2" "bob" [item "beauty"; item "skincare"] (day 2) 20;
   Order.mk "b3" "bob" [item "beauty"; item "garden"] (day 3) 20;
   Order.mk "b4" "carol" [item "haircare"] (day 4) 10].

(** A CoAffinity matrix whose category list names "a" twice. *)
Definition doubled_matrix : CoAffinityMatrix.t :=
  CoAffinityMatrix.mk ["a"; "a"; "b"] [[0; 0; 0.25]; [0; 0; 0.75]; [0.25; 0.75; 0]].
(** * Properties *)

(** ** Seed weights, raw signal, affinity and eligibility *)

Lemma ln_4 : (ln 4 = 2 * ln 2)%R.
Proof.
  replace 4%R with (2 * 2)%R by lra.
  rewrite ln_mult by lra. lra.
Qed.

Lemma ln_2_pos : (0 < ln 2)%R.
Proof. rewrite <- ln_1. apply ln_increasing; lra. Qed.

Lemma log2_4 : log2 4 = 2%R.
Proof.
  unfold log2. destruct (Rle_dec 4 0) as [H | _]; [lra |].
  rewrite ln_4. field. pose proof ln_2_pos. lra.
Qed.

(** On positive arguments [log2] is the logarithm in base two. *)
Lemma log2_spec (x : R) : (0 < x)%R -> Rpower 2 (log2 x) = x.
Proof.
  intros Hx. unfold log2. destruct (Rle_dec x 0) as [H | _]; [lra |].
  unfold Rpower.
  replace (ln x / ln 2 * ln 2)%R with (ln x).
  - apply exp_ln, Hx.
  - field. pose proof ln_2_pos. lra.
Qed.

Lemma Math_max_upper (xs : list R) (x : R) :
  (x <= Math_max x xs)%R /\ Forall (fun y => (y <= Math_max x xs)%R) xs.
Proof.
  unfold Math_max. revert x. induction xs as [| y ys IH]; intros x; simpl.
  - split; [lra | constructor].
  - destruct (IH (Rmax x y)) as [H1 H2]. split; [| constructor; [| exact H2]].
    + pose proof (Rmax_l x y). lra.
    + pose proof (Rmax_r x y). lra.
Qed.

Lemma Math_max_attained (xs : list R) (x : R) :
  Math_max x xs = x \/ Math_max x xs ∈ xs.
Proof.
  unfold Math_max. revert x. induction xs as [| y ys IH]; intros x; simpl.
  - left. reflexivity.
  - destruct (IH (Rmax x y)) as [H | H].
    + rewrite H. unfold Rmax. destruct (Rle_dec x y).
      * right. left.
      * left. reflexivity.
    + right. right. exact H.
Qed.

Lemma log2_unique (x L : R) : (0 < x)%R -> Rpower 2 L = x -> log2 x = L.
Proof.
  intros Hx HL. unfold log2. destruct (Rle_dec x 0); [lra |].
  rewrite <- HL, ln_Rpower. pose proof ln_2_pos. field. lra.
Qed.

(** C5, as amended: the boosts and the seed weight of one purchased
    category.  [log2] is the logarithm in base two: whatever [L] has
    [2 ^ L = frequency] gives the frequency boost [min (1.6, 1.0 + 0.5 * L)],
    which is 1.5 at frequency 2.  A category purchased in 4 orders and
    present in the last order has the boosts 0.75 and 1.6; their product,
    formed in double precision as the code forms it, is
    1.2000000000000002. *)
Theorem calculateSeedWeight_spec (purchaseInfo : CategoryPurchaseInfo.t) :
  let frequency := CategoryPurchaseInfo.frequency purchaseInfo in
  let sw := calculateSeedWeight purchaseInfo in
  SeedWeight.recencyBoost sw
    = (if CategoryPurchaseInfo.isLastOrder purchaseInfo then 0.75 else 0.50)%R
  /\ ((0 < frequency)%R ->
       SeedWeight.frequencyBoost sw = Rmin 1.6 (1.0 + 0.5 * log2 frequency))
  /\ ((0 < frequency)%R -> forall L : R, Rpower 2 L = frequency ->
       SeedWeight.frequencyBoost sw = Rmin 1.6 (1.0 + 0.5 * L))
  /\ (frequency = 2%R -> SeedWeight.frequencyBoost sw = 1.5%R)
  /\ ((frequency <= 0)%R -> SeedWeight.frequencyBoost sw = 1.0%R)
  /\ SeedWeight.seedWeight sw
     = (SeedWeight.recencyBoost sw * SeedWeight.frequencyBoost sw)%R
  /\ (frequency = 4%R -> CategoryPurchaseInfo.isLastOrder purchaseInfo = true ->
       SeedWeight.recencyBoost sw = 0.75%R
       /\ SeedWeight.frequencyBoost sw = 1.6%R)
  /\ (forall (Math_log2 : float -> float) (categoryId : string) (date : Z),
        Math_log2 4%float = 2%float ->
        let sw64 :=
          Double.calculateSeedWeight Math_log2
            (Double.CategoryPurchaseInfo.mk categoryId 4%float date true) in
        Double.SeedWeight.recencyBoost sw64 = 0.75%float
        /\ Double.SeedWeight.frequencyBoost sw64 = 1.6%float
        /\ Double.SeedWeight.seedWeight sw64 = 1.2000000000000002%float).
Proof.
  destruct purchaseInfo as [cat frequency date isLast]. simpl.
  assert (Hboost : (0 < frequency)%R ->
            calculateFrequencyBoost frequency
            = Rmin 1.6 (1.0 + 0.5 * log2 frequency)).
  { intros Hpos. unfold calculateFrequencyBoost, FREQUENCY_BOOST_BASE,
      FREQUENCY_BOOST_CAP, FREQUENCY_BOOST_MULTIPLIER.
    destruct (Rle_dec frequency 0); [lra |]. rewrite Rmin_comm. f_equal; lra. }
  split.
  { unfold calculateRecencyBoost, RECENCY_BOOST_LAST_ORDER, RECENCY_BOOST_OLDER.
    destruct isLast; lra. }
  split; [exact Hboost |]. split.
  { intros Hpos L HL. rewrite (Hboost Hpos), (log2_unique _ _ Hpos HL).
    reflexivity. }
  split.
  { intros ->. rewrite Hboost by lra.
    rewrite (log2_unique 2 1) by (rewrite ?Rpower_1; lra).
    unfold Rmin. destruct (Rle_dec _ _); lra. }
  split.
  { intros Hle. unfold calculateFrequencyBoost, FREQUENCY_BOOST_BASE.
    destruct (Rle_dec frequency 0); lra. }
  split; [reflexivity |]. split.
  { intros -> ->. split.
    - unfold calculateRecencyBoost, RECENCY_BOOST_LAST_ORDER. lra.
    - rewrite Hboost by lra. rewrite log2_4.
      unfold Rmin. destruct (Rle_dec _ _); lra. }
  intros Math_log2 categoryId date64 H4.
  unfold Double.calculateSeedWeight, Double.calculateFrequencyBoost,
    Double.log2. simpl. rewrite H4. repeat split; reflexivity.
Qed.

Lemma calculateSeedWeight_spec_witness :
  SeedWeight.frequencyBoost (calculateSeedWeight purchased_four_times) = 1.6%R
  /\ Double.SeedWeight.seedWeight
       (Double.calculateSeedWeight Math_log2_at_4 purchased_four_times64)
     = 1.2000000000000002%float.
Proof.
  destruct (calculateSeedWeight_spec purchased_four_times)
    as (_ & _ & _ & _ & _ & _ & H4 & H64).
  split.
  - apply H4; reflexivity.
  - apply (H64 Math_log2_at_4 "beauty" 0%Z). reflexivity.
Defined.

(** C5 fails as stated: the seed weight of a category purchased in 4 orders
    and present in the last order is the double product of 0.75 and 1.6,
    which is not 1.2. *)
Lemma calculateSeedWeight_product_rounds :
  let sw64 := Double.calculateSeedWeight Math_log2_at_4 purchased_four_times64 in
  Double.SeedWeight.frequencyBoost sw64 = 1.6%float
  /\ Double.SeedWeight.seedWeight sw64 = 1.2000000000000002%float
  /\ (Double.SeedWeight.seedWeight sw64 =? 1.2)%float = false
  /\ (1.2 <? Double.SeedWeight.seedWeight sw64)%float = true.
Proof. repeat split; reflexivity. Qed.

(** C6, as amended: the raw signal is the largest weighted signal (0 when
    there is none), and the affinity [1 - exp (- rawSignal)] is 0 at 0,
    monotone, and within [0, 1] on non-negative raw signals.  In double
    precision the upper end is reached: the affinity is exactly 1 where
    [Math.exp] is small enough, as at the raw signal 40. *)
Theorem affinity_scoring_spec :
  calculateRawSignal [] = 0%R
  /\ (forall ws : list WeightedSignal.t, ws <> [] ->
        (exists w, w ∈ ws /\ calculateRawSignal ws = WeightedSignal.signal w)
        /\ (forall w, w ∈ ws ->
              (WeightedSignal.signal w <= calculateRawSignal ws)%R))
  /\ (calculateRawSignal two_signals = 0.3%R
      /\ calculateRawSignal two_signals <> (0.2 + 0.3)%R)
  /\ (forall rawSignal : R,
        calculateFinalAffinity rawSignal = (1 - exp (- rawSignal))%R)
  /\ calculateFinalAffinity 0 = 0%R
  /\ (forall r1 r2 : R, (r1 <= r2)%R ->
        (calculateFinalAffinity r1 <= calculateFinalAffinity r2)%R)
  /\ (forall rawSignal : R, (0 <= rawSignal)%R ->
        (0 <= calculateFinalAffinity rawSignal <= 1)%R)
  /\ (forall purchaseHistory goalCategory coAffinityMatrix categoryIndexMap r,
        calculateCustomerAffinity purchaseHistory goalCategory coAffinityMatrix
          categoryIndexMap = Returns r ->
        CustomerAffinityResult.maxWeightedSignal r
        = calculateRawSignal (CustomerAffinityResult.weightedSignals r)
        /\ CustomerAffinityResult.affinity r
           = (1 - exp (- CustomerAffinityResult.maxWeightedSignal r))%R)
  /\ (forall Math_exp : float -> float,
        (Math_exp (- 0)%float = 1%float ->
         Double.calculateFinalAffinity Math_exp 0%float = 0%float)
        /\ (Math_exp (- 40)%float = 4.248354255291589e-18%float ->
            Double.calculateFinalAffinity Math_exp 40%float = 1%float)).
Proof.
  split; [reflexivity |].
  split; [| split; [| split; [| split; [| split; [| split; [| split]]]]]];
    cycle 6.
  { intros h goal M idx r. unfold calculateCustomerAffinity.
    destruct (calculateWeightedSignals _ _ _ _) as [ws | e |]; try discriminate.
    intros [= <-]. split; reflexivity. }
  { intros Math_exp. unfold Double.calculateFinalAffinity. split; intros H.
    - change (PrimFloat.opp 0) with (-0)%float. rewrite H. reflexivity.
    - change (PrimFloat.opp 40) with (-40)%float. rewrite H. reflexivity. }
  - intros [| w ws] Hne; [congruence |]. unfold calculateRawSignal. simpl.
    destruct (Math_max_upper (map WeightedSignal.signal ws)
                (WeightedSignal.signal w)) as [Hhd Htl].
    split.
    + destruct (Math_max_attained (map WeightedSignal.signal ws)
                  (WeightedSignal.signal w)) as [E | E].
      * exists w. split; [left | exact E].
      * apply list_elem_of_fmap in E as (w' & E & Hin).
        exists w'. split; [right; exact Hin | exact E].
    + intros w' Hin. apply elem_of_cons in Hin as [-> | Hin]; [exact Hhd |].
      rewrite Forall_forall in Htl. apply Htl.
      apply list_elem_of_fmap. exists w'. split; [reflexivity | exact Hin].
  - assert (E : calculateRawSignal two_signals = 0.3%R).
    { unfold calculateRawSignal, two_signals, Math_max. simpl.
      unfold Rmax. destruct (Rle_dec _ _); lra. }
    rewrite E. split; lra.
  - reflexivity.
  - unfold calculateFinalAffinity. rewrite Ropp_0, exp_0. lra.
  - intros r1 r2 Hle. unfold calculateFinalAffinity.
    destruct (Req_dec r1 r2) as [-> | Hne]; [lra |].
    assert (exp (- r2) < exp (- r1))%R by (apply exp_increasing; lra). lra.
  - intros r Hr. unfold calculateFinalAffinity.
    pose proof (exp_pos (- r)).
    assert (exp (- r) <= 1)%R.
    { rewrite <- exp_0. destruct (Req_dec r 0) as [-> | Hne].
      - rewrite Ropp_0. lra.
      - left. apply exp_increasing. lra. }
    lra.
Qed.

Lemma affinity_scoring_spec_witness :
  (0 <= calculateFinalAffinity 0.5 <= 1)%R
  /\ (WeightedSignal.signal (WeightedSignal.mk "skincare" 0.2)
      <= calculateRawSignal two_signals)%R
  /\ Double.calculateFinalAffinity Math_exp_at_minus_40 40%float = 1%float.
Proof.
  destruct affinity_scoring_spec as (_ & Hmax & _ & _ & _ & _ & Hrange & _ & H64).
  split; [| split].
  - apply Hrange. lra.
  - apply (Hmax two_signals); [discriminate | left].
  - apply (H64 Math_exp_at_minus_40). reflexivity.
Defined.

(** C6 fails as stated: at the raw signal 40, where [Math.exp (-40)] is about
    4.2e-18, the affinity in double precision is exactly 1, which is not in
    [0, 1). *)
Lemma calculateFinalAffinity_reaches_1 :
  (0 <=? 40)%float = true
  /\ Double.calculateFinalAffinity Math_exp_at_minus_40 40%float = 1%float
  /\ (Double.calculateFinalAffinity Math_exp_at_minus_40 40 <? 1)%float = false.
Proof. repeat split; reflexivity. Qed.

(** C7, as amended: who is eligible for a goal category.  The cutoff is the
    reference date moved back [activityDays] days on the local clock; the
    customer is eligible when the goal category has no entry, the cutoff is a
    valid date, and the last order is not before it.  Where the local offset
    at the cutoff is the one at the reference date and the cutoff is in
    range, the cutoff is the reference date minus [activityDays] times
    86400000 ms. *)
Theorem isCustomerEligible_spec (tz : TimeZone.t)
    (purchaseHistory : CustomerPurchaseHistory.t)
    (goalCategory : string) (activityDays referenceDate : Z) :
  let categories := CustomerPurchaseHistory.categories purchaseHistory in
  let lastOrderDate := CustomerPurchaseHistory.lastOrderDate purchaseHistory in
  let eligible :=
    isCustomerEligible tz purchaseHistory goalCategory activityDays referenceDate in
  let localTime := (referenceDate + TimeZone.offset_at_utc tz referenceDate)%Z in
  let newDate := (localTime - activityDays * 86400000)%Z in
  let cutoff := (newDate - TimeZone.offset_at_local tz newDate)%Z in
  (eligible = true
   <-> JsMap.get goalCategory categories = None
       /\ (-8640000000000000 <= cutoff <= 8640000000000000)%Z
       /\ (cutoff <= lastOrderDate)%Z)
  /\ (JsMap.get goalCategory categories <> None -> eligible = false)
  /\ (TimeZone.offset_at_local tz newDate
      = TimeZone.offset_at_utc tz referenceDate ->
      (-8640000000000000 <= referenceDate - activityDays * 86400000
       <= 8640000000000000)%Z ->
      (eligible = true
       <-> JsMap.get goalCategory categories = None
           /\ (referenceDate - activityDays * 86400000 <= lastOrderDate)%Z)).
Proof.
  simpl. unfold isCustomerEligible, JsMap.has, setDate_back, TimeClip, MS_PER_DAY.
  destruct (JsMap.get goalCategory _) as [info |].
  - split; [| split; [reflexivity |]].
    + split; [discriminate | intros [? _]; discriminate].
    + intros _ _. split; [discriminate | intros [? _]; discriminate].
  - split; [| split; [congruence |]].
    + case_decide as Hrange.
      * rewrite bool_decide_eq_true. tauto.
      * split; [discriminate | tauto].
    + intros Hoff Hin. rewrite Hoff.
      rewrite decide_True by lia. rewrite bool_decide_eq_true.
      split; [intros H; split; [reflexivity | lia] | intros [_ H]; lia].
Qed.

(** On a host on UTC, a customer last active exactly [activityDays] days
    before the reference date is still eligible; one who bought the goal
    category is not. *)
Lemma isCustomerEligible_spec_witness :
  isCustomerEligible utc bought_books "beauty" 90 (90 * 86400000) = true
  /\ isCustomerEligible utc bought_beauty "beauty" 90 1000 = false.
Proof.
  split.
  - apply (isCustomerEligible_spec utc bought_books "beauty" 90 (90 * 86400000)).
    + reflexivity.
    + simpl. lia.
    + split; [reflexivity | simpl; lia].
  - apply (isCustomerEligible_spec utc bought_beauty "beauty" 90 1000).
    simpl. discriminate.
Defined.

(** C7 fails as stated.  Where the clocks went forward between the cutoff and
    the reference date, the cutoff is an hour later than the reference date
    minus [activityDays] times 24 hours: a customer whose last order is at
    exactly that instant is not eligible.  And a cutoff outside the range of
    [Date] is an Invalid Date, which no last order is at or after. *)
Lemma isCustomerEligible_not_24_hour_days :
  (JsMap.get "beauty" (CustomerPurchaseHistory.categories ordered_on_day_95) = None
   /\ (day 105 - 10 * 86400000
       <= CustomerPurchaseHistory.lastOrderDate ordered_on_day_95)%Z
   /\ isCustomerEligible summer_time ordered_on_day_95 "beauty" 10 (day 105)
      = false
   /\ setDate_back summer_time (day 105) 10 = Some (day 95 + 3600000)%Z)
  /\ (JsMap.get "beauty" (CustomerPurchaseHistory.categories bought_books) = None
      /\ (0 - 200000000 * 86400000
          <= CustomerPurchaseHistory.lastOrderDate bought_books)%Z
      /\ isCustomerEligible utc bought_books "beauty" 200000000 0 = false
      /\ setDate_back utc 0 200000000 = None).
Proof.
  repeat split; try reflexivity; vm_compute; discriminate.
Qed.

(** ** Matrices and the loops that fill them *)

Lemma bind_Returns {A B : Type} (a : A) (f : A -> outcome B) :
  Returns a ≫= f = f a.
Proof. reflexivity. Qed.

Lemma cell_Some (m : Matrix) (i j : nat) (v : Q) :
  cell m i j = Some v <-> exists row, m !! i = Some row /\ row !! j = Some v.
Proof.
  unfold cell. destruct (m !! i) as [row |]; simpl.
  - split; [intros H; exists row; auto | intros (r & [= <-] & H); exact H].
  - split; [discriminate | intros (r & [=] & _)].
Qed.

Lemma square_cell (n : nat) (m : Matrix) (i j : nat) :
  square n m -> (i < n)%nat -> (j < n)%nat -> is_Some (cell m i j).
Proof.
  intros [Hlen Hrows] Hi Hj. unfold cell.
  destruct (lookup_lt_is_Some_2 m i) as [row Hrow]; [lia |].
  rewrite Hrow. simpl. apply lookup_lt_is_Some_2.
  rewrite (Hrows i row Hrow). exact Hj.
Qed.

Lemma cell_lt (n : nat) (m : Matrix) (i j : nat) :
  square n m -> is_Some (cell m i j) -> (i < n)%nat /\ (j < n)%nat.
Proof.
  intros [Hlen Hrows] [v Hv]. apply cell_Some in Hv as (row & Hrow & Hv).
  split.
  - rewrite <- Hlen. eapply lookup_lt_Some, Hrow.
  - rewrite <- (Hrows i row Hrow). eapply lookup_lt_Some, Hv.
Qed.

Lemma square_zeros (n : nat) : square n (zeros n).
Proof.
  unfold zeros. split; [apply length_replicate |].
  intros i row H. apply lookup_replicate in H as [-> _]. apply length_replicate.
Qed.

Lemma cell_zeros (n i j : nat) :
  (i < n)%nat -> (j < n)%nat -> cell (zeros n) i j = Some 0.
Proof.
  intros Hi Hj. unfold cell, zeros. rewrite lookup_replicate_2 by exact Hi.
  simpl. apply lookup_replicate_2, Hj.
Qed.

Lemma square_alter (n : nat) (m : Matrix) (i : nat) (g : list Q -> list Q) :
  (forall row, length (g row) = length row) ->
  square n m -> square n (alter g i m).
Proof.
  intros Hg [Hlen Hrows]. split; [rewrite length_alter; exact Hlen |].
  intros a row. destruct (decide (i = a)) as [<- | Hne].
  - rewrite list_lookup_alter_eq. destruct (m !! i) as [r |] eqn:E; [| discriminate].
    intros [= <-]. rewrite Hg. eapply Hrows, E.
  - rewrite list_lookup_alter_ne by exact Hne. apply Hrows.
Qed.

Lemma square_write (n : nat) (m : Matrix) (i j : nat) (v : Q) :
  square n m -> square n (write i j v m).
Proof. apply square_alter. intros row. apply length_insert. Qed.

Lemma square_increment (n : nat) (m : Matrix) (i j : nat) :
  square n m -> square n (increment i j m).
Proof. apply square_alter. intros row. apply length_alter. Qed.

Lemma cell_write (n : nat) (m : Matrix) (i j : nat) (v : Q) (a b : nat) :
  square n m -> (i < n)%nat -> (j < n)%nat ->
  cell (write i j v m) a b
  = if decide (a = i /\ b = j) then Some v else cell m a b.
Proof.
  intros Hsq Hi Hj. unfold cell, write.
  destruct (decide (i = a)) as [<- | Hne].
  - rewrite list_lookup_alter_eq.
    destruct (square_cell n m i j Hsq Hi Hj) as [w Hw].
    apply cell_Some in Hw as (row & Hrow & Hw). rewrite Hrow. simpl.
    destruct (decide (j = b)) as [<- | Hne].
    + rewrite list_lookup_insert_eq by (eapply lookup_lt_Some, Hw).
      rewrite decide_True by auto. reflexivity.
    + rewrite list_lookup_insert_ne by exact Hne.
      rewrite decide_False by (intros [_ ->]; auto). reflexivity.
  - rewrite list_lookup_alter_ne by exact Hne.
    rewrite decide_False by (intros [-> _]; auto). reflexivity.
Qed.

Lemma cell_increment (n : nat) (m : Matrix) (i j a b : nat) :
  cell (increment i j m) a b
  = if decide (a = i /\ b = j) then (fun v => v + 1) <$> cell m a b
    else cell m a b.
Proof.
  unfold cell, increment. destruct (decide (i = a)) as [<- | Hne].
  - rewrite list_lookup_alter_eq. destruct (m !! i) as [row |]; simpl.
    + destruct (decide (j = b)) as [<- | Hne].
      * rewrite list_lookup_alter_eq. rewrite decide_True by auto. reflexivity.
      * rewrite list_lookup_alter_ne by exact Hne.
        rewrite decide_False by (intros [_ ->]; auto). reflexivity.
    + destruct (decide _); reflexivity.
  - rewrite list_lookup_alter_ne by exact Hne.
    rewrite decide_False by (intros [-> _]; auto). reflexivity.
Qed.

Lemma read_cell (m : Matrix) (i j : nat) (v : Q) :
  cell m i j = Some v -> read m i j = Returns v.
Proof.
  intros H. apply cell_Some in H as (row & Hrow & Hv).
  unfold read, row_of. rewrite Hrow. simpl. rewrite Hv. reflexivity.
Qed.

(** Running bodies that fill cells one after the other fills the union. *)
Lemma fills_for_of {A : Type} (n : nat) (f : nat -> nat -> Q) (xs : list A)
    (W : A -> nat -> nat -> bool) (body : A -> Matrix -> outcome Matrix) :
  (forall x, x ∈ xs -> fills n (W x) f (body x)) ->
  fills n (fun a b => existsb (fun x => W x a b) xs) f (for_of xs body).
Proof.
  induction xs as [| x rest IH]; intros Hbody m Hsq; simpl.
  - exists m. auto.
  - destruct (Hbody x (list_elem_of_here _ _) m Hsq) as (m1 & E1 & Hsq1 & Hc1).
    rewrite E1. simpl.
    destruct (IH (fun y Hy => Hbody y (list_elem_of_further _ _ _ Hy)) m1 Hsq1)
      as (m2 & E2 & Hsq2 & Hc2).
    exists m2. split; [exact E2 |]. split; [exact Hsq2 |].
    intros a b. rewrite Hc2, Hc1.
    destruct (W x a b), (existsb _ rest); reflexivity.
Qed.

Lemma existsb_range (P : nat -> bool) (lo hi k : nat) :
  (lo <= k < hi)%nat -> P k = true -> existsb P (range lo hi) = true.
Proof.
  intros Hk HP. apply existsb_exists. exists k. split; [| exact HP].
  unfold range. apply in_seq. lia.
Qed.

Lemma elem_of_range (lo hi k : nat) : k ∈ range lo hi <-> (lo <= k < hi)%nat.
Proof. unfold range. rewrite elem_of_seq. lia. Qed.

(** ** calculateCoAffinityMatrix *)

Lemma coaffinity_step_fills (n : nat) (nl nc : NormalizedMatrix.t) (i j : nat) :
  square n (NormalizedMatrix.matrix nl) ->
  square n (NormalizedMatrix.matrix nc) ->
  (i < n)%nat -> (j < n)%nat ->
  fills n (fun a b => bool_decide (a = i /\ b = j))
    (blend (NormalizedMatrix.matrix nl) (NormalizedMatrix.matrix nc))
    (coaffinity_step nl nc i j).
Proof.
  intros Hl Hc Hi Hj m Hm. unfold coaffinity_step.
  destruct (square_cell _ _ i j Hl Hi Hj) as [x Hx].
  destruct (square_cell _ _ i j Hc Hi Hj) as [y Hy].
  assert (Hcell : forall v a b,
    cell (write i j v m) a b
    = if bool_decide (a = i /\ b = j) then Some v else cell m a b).
  { intros v a b. rewrite (cell_write n) by assumption.
    destruct (decide (a = i /\ b = j)) as [H | H].
    - rewrite bool_decide_eq_true_2 by exact H. reflexivity.
    - rewrite bool_decide_eq_false_2 by exact H. reflexivity. }
  destruct (decide (i = j)) as [Heq | Hne].
  - eexists. split; [reflexivity |]. split; [apply square_write, Hm |].
    intros a b. rewrite Hcell. case_bool_decide as Hab; [| reflexivity].
    destruct Hab as [-> ->]. unfold blend. rewrite decide_True by exact Heq.
    reflexivity.
  - rewrite (read_cell _ _ _ _ Hx), (read_cell _ _ _ _ Hy). simpl.
    eexists. split; [reflexivity |]. split; [apply square_write, Hm |].
    intros a b. rewrite Hcell. case_bool_decide as Hab; [| reflexivity].
    destruct Hab as [-> ->]. unfold blend. rewrite decide_False by exact Hne.
    rewrite Hx, Hy. reflexivity.
Qed.

(** On [n] by [n] inputs the two loops return, having assigned every cell. *)
Lemma calculateCoAffinityMatrix_returns (nl nc : NormalizedMatrix.t) :
  let n := length (NormalizedMatrix.categories nl) in
  square n (NormalizedMatrix.matrix nl) ->
  square n (NormalizedMatrix.matrix nc) ->
  exists matrix,
    calculateCoAffinityMatrix nl nc
    = Returns (CoAffinityMatrix.mk (NormalizedMatrix.categories nl) matrix)
    /\ square n matrix
    /\ forall a b, (a < n)%nat -> (b < n)%nat ->
         cell matrix a b
         = Some (blend (NormalizedMatrix.matrix nl) (NormalizedMatrix.matrix nc) a b).
Proof.
  intros n Hl Hc. unfold calculateCoAffinityMatrix. fold n.
  destruct (fills_for_of n
              (blend (NormalizedMatrix.matrix nl) (NormalizedMatrix.matrix nc))
              (range 0 n)
              (fun i a b => existsb (fun j => bool_decide (a = i /\ b = j)) (range 0 n))
              (fun i => for_of (range 0 n) (fun j => coaffinity_step nl nc i j)))
    with (m := zeros n) as (matrix & E & Hsq & Hcells).
  - intros i Hi. apply elem_of_range in Hi.
    apply (fills_for_of n _ (range 0 n) (fun j a b => bool_decide (a = i /\ b = j))).
    intros j Hj. apply elem_of_range in Hj.
    apply coaffinity_step_fills; (assumption || lia).
  - apply square_zeros.
  - rewrite E. simpl. exists matrix. split; [reflexivity |].
    split; [exact Hsq |]. intros a b Ha Hb. rewrite Hcells.
    rewrite (existsb_range _ 0 n a); [reflexivity | lia |].
    apply (existsb_range _ 0 n b); [lia |].
    apply bool_decide_eq_true_2. auto.
Qed.

(** C2: over one category list of length [n], every off-diagonal cell of the
    result is [0.7 * lift + 0.3 * coOrders], every diagonal cell is 0, and the
    category list is carried over. *)
Theorem calculateCoAffinityMatrix_spec
    (normalizedLift normalizedCoOrders : NormalizedMatrix.t) (n : nat) :
  NormalizedMatrix.categories normalizedLift
  = NormalizedMatrix.categories normalizedCoOrders ->
  length (NormalizedMatrix.categories normalizedLift) = n ->
  square n (NormalizedMatrix.matrix normalizedLift) ->
  square n (NormalizedMatrix.matrix normalizedCoOrders) ->
  exists r,
    calculateCoAffinityMatrix normalizedLift normalizedCoOrders = Returns r
    /\ CoAffinityMatrix.categories r = NormalizedMatrix.categories normalizedLift
    /\ CoAffinityMatrix.categories r
       = NormalizedMatrix.categories normalizedCoOrders
    /\ square n (CoAffinityMatrix.matrix r)
    /\ (forall i j, (i < n)%nat -> (j < n)%nat -> i <> j ->
          exists lift coOrders,
            cell (NormalizedMatrix.matrix normalizedLift) i j = Some lift
            /\ cell (NormalizedMatrix.matrix normalizedCoOrders) i j = Some coOrders
            /\ cell (CoAffinityMatrix.matrix r) i j
               = Some (0.7 * lift + 0.3 * coOrders))
    /\ (forall i, (i < n)%nat -> cell (CoAffinityMatrix.matrix r) i i = Some 0).
Proof.
  intros Hcats <- Hl Hc.
  destruct (calculateCoAffinityMatrix_returns normalizedLift normalizedCoOrders Hl Hc)
    as (matrix & E & Hsq & Hcells).
  eexists. split; [exact E |]. simpl.
  split; [reflexivity |]. split; [exact Hcats |]. split; [exact Hsq |]. split.
  - intros i j Hi Hj Hne.
    destruct (square_cell _ _ i j Hl Hi Hj) as [x Hx].
    destruct (square_cell _ _ i j Hc Hi Hj) as [y Hy].
    exists x, y. split; [exact Hx |]. split; [exact Hy |].
    rewrite Hcells by assumption. unfold blend.
    rewrite decide_False by exact Hne. rewrite Hx, Hy. reflexivity.
  - intros i Hi. rewrite Hcells by assumption. unfold blend.
    rewrite decide_True by reflexivity. reflexivity.
Qed.

Lemma square_3 (r0 r1 r2 : list Q) :
  length r0 = 3%nat -> length r1 = 3%nat -> length r2 = 3%nat ->
  square 3 [r0; r1; r2].
Proof.
  intros H0 H1 H2. split; [reflexivity |].
  intros [| [| [| i]]] row [= <-]; assumption.
Qed.

Lemma calculateCoAffinityMatrix_spec_witness :
  exists r,
    calculateCoAffinityMatrix lift_abc coOrders_abc = Returns r
    /\ cell (CoAffinityMatrix.matrix r) 0 1 = Some (0.7 * 1 + 0.3 * 1)
    /\ cell (CoAffinityMatrix.matrix r) 2 2 = Some 0.
Proof.
  destruct (calculateCoAffinityMatrix_spec lift_abc coOrders_abc 3)
    as (r & E & _ & _ & _ & Hoff & Hdiag).
  - reflexivity.
  - reflexivity.
  - apply square_3; reflexivity.
  - apply square_3; reflexivity.
  - exists r. split; [exact E |]. split.
    + destruct (Hoff 0%nat 1%nat) as (x & y & [= <-] & [= <-] & Hr);
        [lia | lia | lia |]. exact Hr.
    + apply Hdiag. lia.
Defined.

(** C1, as the code has it: the category list of [normalizedCoOrders] is
    never looked at.  On [n] by [n] matrices the function returns, keeps the
    categories of [normalizedLift], and combines the cells index by index,
    whatever the second list of categories is. *)
Theorem calculateCoAffinityMatrix_ignores_categories
    (normalizedLift normalizedCoOrders : NormalizedMatrix.t)
    (otherCategories : list string) :
  let n := length (NormalizedMatrix.categories normalizedLift) in
  let relabelled :=
    NormalizedMatrix.mk otherCategories
      (NormalizedMatrix.matrix normalizedCoOrders)
      (NormalizedMatrix.p5 normalizedCoOrders)
      (NormalizedMatrix.p95 normalizedCoOrders) in
  calculateCoAffinityMatrix normalizedLift relabelled
  = calculateCoAffinityMatrix normalizedLift normalizedCoOrders
  /\ (square n (NormalizedMatrix.matrix normalizedLift) ->
      square n (NormalizedMatrix.matrix normalizedCoOrders) ->
      exists matrix,
        calculateCoAffinityMatrix normalizedLift relabelled
        = Returns (CoAffinityMatrix.mk
                     (NormalizedMatrix.categories normalizedLift) matrix)
        /\ forall i j, (i < n)%nat -> (j < n)%nat ->
             cell matrix i j
             = Some (blend (NormalizedMatrix.matrix normalizedLift)
                       (NormalizedMatrix.matrix normalizedCoOrders) i j)).
Proof.
  intros n relabelled. split; [reflexivity |].
  intros Hl Hc.
  destruct (calculateCoAffinityMatrix_returns normalizedLift relabelled Hl Hc)
    as (matrix & E & _ & Hcells).
  exists matrix. split; [exact E | exact Hcells].
Qed.

Lemma calculateCoAffinityMatrix_ignores_categories_witness :
  exists matrix,
    calculateCoAffinityMatrix lift_abc coOrders_cab
    = Returns (CoAffinityMatrix.mk ["a"; "b"; "c"] matrix).
Proof.
  destruct (calculateCoAffinityMatrix_ignores_categories lift_abc coOrders_cab
              ["c"; "a"; "b"]) as [_ H].
  destruct H as (matrix & E & _).
  - apply square_3; reflexivity.
  - apply square_3; reflexivity.
  - exists matrix. exact E.
Defined.

(** C1 fails as stated: the two category lists differ, yet a matrix comes
    back, and its cell for the pair (a, b) mixes the lift of (a, b) with the
    co-orders of (c, a). *)
Lemma calculateCoAffinityMatrix_no_assertion :
  NormalizedMatrix.categories lift_abc <> NormalizedMatrix.categories coOrders_cab
  /\ exists r,
       calculateCoAffinityMatrix lift_abc coOrders_cab = Returns r
       /\ cell (CoAffinityMatrix.matrix r) 0 1 = Some (0.7 * 1 + 0.3 * 0).
Proof.
  split; [discriminate |]. eexists. split; [vm_compute; reflexivity |].
  vm_compute. reflexivity.
Qed.

(** ** calculateLiftMatrix *)

Lemma lift_step_fills (n : nat) (co : CoOrderMatrix.t) (i j : nat) :
  square n (CoOrderMatrix.matrix co) ->
  (i < j)%nat -> (j < n)%nat ->
  fills n (fun a b => bool_decide (a = i /\ b = j) || bool_decide (a = j /\ b = i))
    (lift_value co) (lift_step co i j).
Proof.
  intros Hco Hij Hj m Hm. unfold lift_step.
  destruct (square_cell _ _ i j Hco ltac:(lia) Hj) as [c Hc].
  pose proof Hc as Hc'. apply cell_Some in Hc' as (row & Hrow & Hv).
  unfold row_of. rewrite Hrow. simpl. rewrite Hv.
  assert (Hcell : forall v a b,
    cell (write j i v (write i j v m)) a b
    = if bool_decide (a = i /\ b = j) || bool_decide (a = j /\ b = i)
      then Some v else cell m a b).
  { intros v a b.
    rewrite (cell_write n) by (try apply square_write; (assumption || lia)).
    rewrite (cell_write n) by (assumption || lia).
    repeat case_decide; repeat case_bool_decide; simpl;
      (reflexivity || tauto || lia). }
  assert (Hval : forall a b,
    bool_decide (a = i /\ b = j) || bool_decide (a = j /\ b = i) = true ->
    lift_value co a b
    = if Qeq_bool (orders_of co i) 0 || Qeq_bool (orders_of co j) 0 then 0
      else (c * CoOrderMatrix.totalOrders co) / (orders_of co i * orders_of co j)).
  { intros a b Hab. unfold lift_value.
    assert (a <> b /\ Nat.min a b = i /\ Nat.max a b = j) as (Hne & -> & ->).
    { apply orb_true_iff in Hab as [H | H];
        apply bool_decide_eq_true in H; lia. }
    rewrite decide_False by exact Hne. rewrite Hc. reflexivity. }
  destruct (Qeq_bool (orders_of co i) 0 || Qeq_bool (orders_of co j) 0) eqn:Hz;
    simpl.
  - eexists. split; [reflexivity |].
    split; [apply square_write, square_write, Hm |].
    intros a b. rewrite Hcell.
    destruct (_ || _) eqn:Hab in |- *; [| reflexivity].
    rewrite (Hval a b Hab). reflexivity.
  - eexists. split; [reflexivity |].
    split; [apply square_write, square_write, Hm |].
    intros a b. rewrite Hcell.
    destruct (_ || _) eqn:Hab in |- *; [| reflexivity].
    rewrite (Hval a b Hab). reflexivity.
Qed.

Lemma calculateLiftMatrix_returns (co : CoOrderMatrix.t) :
  let n := length (CoOrderMatrix.category co) in
  square n (CoOrderMatrix.matrix co) ->
  exists matrix,
    calculateLiftMatrix co
    = Returns (LiftMatrix.mk (CoOrderMatrix.category co) matrix)
    /\ square n matrix
    /\ forall a b, (a < n)%nat -> (b < n)%nat ->
         cell matrix a b = Some (lift_value co a b).
Proof.
  intros n Hco. unfold calculateLiftMatrix. fold n.
  destruct (fills_for_of n (lift_value co) (range 0 n)
              (fun i a b =>
                 existsb (fun j => bool_decide (a = i /\ b = j)
                                   || bool_decide (a = j /\ b = i))
                   (range (i + 1) n))
              (fun i => for_of (range (i + 1) n) (fun j => lift_step co i j)))
    with (m := zeros n) as (matrix & E & Hsq & Hcells).
  - intros i Hi. apply elem_of_range in Hi.
    apply (fills_for_of n _ (range (i + 1) n)
             (fun j a b => bool_decide (a = i /\ b = j)
                           || bool_decide (a = j /\ b = i))).
    intros j Hj. apply elem_of_range in Hj.
    apply lift_step_fills; (assumption || lia).
  - apply square_zeros.
  - rewrite E. simpl. exists matrix. split; [reflexivity |].
    split; [exact Hsq |]. intros a b Ha Hb. rewrite Hcells.
    destruct (existsb _ (range 0 n)) eqn:Hex; [reflexivity |].
    rewrite cell_zeros by assumption.
    destruct (decide (a = b)) as [-> | Hne].
    + unfold lift_value. rewrite decide_True by reflexivity. reflexivity.
    + exfalso. apply not_true_iff_false in Hex. apply Hex.
      apply (existsb_range _ 0 n (Nat.min a b)); [lia |].
      apply (existsb_range _ (Nat.min a b + 1) n (Nat.max a b)); [lia |].
      apply orb_true_iff.
      destruct (decide (a < b)%nat).
      * left. apply bool_decide_eq_true_2. lia.
      * right. apply bool_decide_eq_true_2. lia.
Qed.

Lemma Qeq_bool_false (x y : Q) : ~ x == y -> Qeq_bool x y = false.
Proof.
  intros H. destruct (Qeq_bool x y) eqn:E; [| reflexivity].
  apply Qeq_bool_eq in E. contradiction.
Qed.

Lemma Qeq_bool_true (x y : Q) : x == y -> Qeq_bool x y = true.
Proof. apply Qeq_eq_bool. Qed.

Lemma lift_value_sym (co : CoOrderMatrix.t) (a b : nat) :
  lift_value co a b = lift_value co b a.
Proof.
  unfold lift_value. rewrite (Nat.min_comm b a), (Nat.max_comm b a).
  destruct (decide (a = b)) as [-> | Hne].
  - rewrite decide_True by reflexivity. reflexivity.
  - rewrite decide_False by auto. reflexivity.
Qed.

Lemma orders_of_lookup (co : CoOrderMatrix.t) (i : nat) (cat : string) :
  CoOrderMatrix.category co !! i = Some cat ->
  orders_of co i = default 0 (CoOrderMatrix.orderCounts co !! cat).
Proof. intros H. unfold orders_of. rewrite H. reflexivity. Qed.

(** C4: each pair of distinct categories gets lift 0 when one of the two
    order counts is 0 or absent, and otherwise
    [coOccurrence * totalOrders / (orderCount i * orderCount j)]. *)
Theorem calculateLiftMatrix_spec (coOrdersMatrix : CoOrderMatrix.t) (n : nat) :
  length (CoOrderMatrix.category coOrdersMatrix) = n ->
  square n (CoOrderMatrix.matrix coOrdersMatrix) ->
  let coOccurrence := CoOrderMatrix.matrix coOrdersMatrix in
  let totalOrders := CoOrderMatrix.totalOrders coOrdersMatrix in
  let orderCount := orders_of coOrdersMatrix in
  (forall i cat, CoOrderMatrix.category coOrdersMatrix !! i = Some cat ->
     match CoOrderMatrix.orderCounts coOrdersMatrix !! cat with
     | Some count => orderCount i = count
     | None => orderCount i = 0
     end)
  /\ exists liftMatrix,
       calculateLiftMatrix coOrdersMatrix = Returns liftMatrix
       /\ LiftMatrix.category liftMatrix = CoOrderMatrix.category coOrdersMatrix
       /\ square n (LiftMatrix.matrix liftMatrix)
       /\ (forall i j, (i < j)%nat -> (j < n)%nat ->
             cell (LiftMatrix.matrix liftMatrix) j i
             = cell (LiftMatrix.matrix liftMatrix) i j
             /\ (orderCount i == 0 \/ orderCount j == 0 ->
                 cell (LiftMatrix.matrix liftMatrix) i j = Some 0)
             /\ (~ orderCount i == 0 -> ~ orderCount j == 0 ->
                 forall c, cell coOccurrence i j = Some c ->
                   cell (LiftMatrix.matrix liftMatrix) i j
                   = Some ((c * totalOrders) / (orderCount i * orderCount j))))
       /\ (symmetric n coOccurrence ->
           forall i j, (i < n)%nat -> (j < n)%nat -> i <> j ->
             (orderCount i == 0 \/ orderCount j == 0 ->
              cell (LiftMatrix.matrix liftMatrix) i j = Some 0)
             /\ (~ orderCount i == 0 -> ~ orderCount j == 0 ->
                 forall c, cell coOccurrence i j = Some c ->
                   exists lift,
                     cell (LiftMatrix.matrix liftMatrix) i j = Some lift
                     /\ lift == (c * totalOrders) / (orderCount i * orderCount j)))
       /\ (forall i j, (i < j)%nat -> (j < n)%nat ->
             cell coOccurrence i j = Some 3 -> totalOrders == 10 ->
             orderCount i == 5 -> orderCount j == 4 ->
             exists lift,
               cell (LiftMatrix.matrix liftMatrix) i j = Some lift
               /\ lift == 1.5).
Proof.
  intros <- Hsq coOccurrence totalOrders orderCount. split.
  { intros i cat Hcat. unfold orderCount.
    rewrite (orders_of_lookup _ _ _ Hcat).
    destruct (_ !! cat); reflexivity. }
  destruct (calculateLiftMatrix_returns coOrdersMatrix Hsq)
    as (matrix & E & Hsqm & Hcells).
  eexists. split; [exact E |]. simpl. split; [reflexivity |].
  split; [exact Hsqm |].
  assert (Hzero : forall i j, (i < j)%nat ->
            orderCount i == 0 \/ orderCount j == 0 ->
            lift_value coOrdersMatrix i j = 0).
  { intros i j Hij Hz. unfold lift_value.
    rewrite decide_False by lia.
    rewrite Nat.min_l, Nat.max_r by lia. fold orderCount.
    destruct Hz as [Hz | Hz]; rewrite (Qeq_bool_true _ _ Hz);
      [reflexivity | rewrite orb_true_r; reflexivity]. }
  assert (Hpos : forall i j c, (i < j)%nat ->
            ~ orderCount i == 0 -> ~ orderCount j == 0 ->
            cell coOccurrence i j = Some c ->
            lift_value coOrdersMatrix i j
            = (c * totalOrders) / (orderCount i * orderCount j)).
  { intros i j c Hij Hi Hj Hc. unfold lift_value.
    rewrite decide_False by lia.
    rewrite Nat.min_l, Nat.max_r by lia. fold orderCount coOccurrence.
    rewrite (Qeq_bool_false _ _ Hi), (Qeq_bool_false _ _ Hj), Hc.
    reflexivity. }
  split; [| split].
  - intros i j Hij Hj.
    rewrite !Hcells by lia. split; [| split].
    + f_equal. apply lift_value_sym.
    + intros Hz. f_equal. apply Hzero; assumption.
    + intros Hi' Hj' c Hc. f_equal. apply Hpos; assumption.
  - intros Hsym i j Hi Hj Hne. rewrite Hcells by assumption.
    destruct (decide (i < j)%nat) as [Hlt | Hge].
    + split.
      * intros Hz. f_equal. apply Hzero; assumption.
      * intros Hi' Hj' c Hc. eexists. split; [reflexivity |].
        rewrite (Hpos i j c) by assumption. reflexivity.
    + rewrite lift_value_sym. split.
      * intros Hz. f_equal. apply Hzero; [lia | tauto].
      * intros Hi' Hj' c Hc. eexists. split; [reflexivity |].
        rewrite (Hpos j i c); [| lia | assumption | assumption |].
        -- rewrite (Qmult_comm (orderCount j)). reflexivity.
        -- rewrite <- Hc. apply Hsym; assumption.
  - intros i j Hij Hj Hc Ht Hi' Hj'. rewrite Hcells by lia.
    eexists. split; [reflexivity |].
    rewrite (Hpos i j 3 Hij); [| rewrite Hi'; discriminate
                               | rewrite Hj'; discriminate | exact Hc].
    rewrite Ht, Hi', Hj'. reflexivity.
Qed.

Lemma square_2 (r0 r1 : list Q) :
  length r0 = 2%nat -> length r1 = 2%nat -> square 2 [r0; r1].
Proof.
  intros H0 H1. split; [reflexivity |].
  intros [| [| i]] row [= <-]; assumption.
Qed.

(** The worked case: 3 joint orders out of 10, counts 5 and 4, lift 1.5. *)
Lemma calculateLiftMatrix_spec_witness :
  exists liftMatrix,
    calculateLiftMatrix coOrders_AB = Returns liftMatrix
    /\ cell (LiftMatrix.matrix liftMatrix) 0 1 = Some ((3 * 10) / (5 * 4))
    /\ (3 * 10) / (5 * 4) == 1.5.
Proof.
  destruct (calculateLiftMatrix_spec coOrders_AB 2)
    as (_ & lm & E & _ & _ & Hpairs & _ & _).
  - reflexivity.
  - apply square_2; reflexivity.
  - exists lm. split; [exact E |]. split; [| reflexivity].
    destruct (Hpairs 0%nat 1%nat) as (_ & _ & Hlift); [lia | lia |].
    apply (Hlift ltac:(discriminate) ltac:(discriminate) 3). reflexivity.
Defined.

(** ** extractMatrixValues *)

Lemma extract_row (row : list Q) (k lo : nat) (values : list Q) :
  (k <= length row - lo)%nat ->
  fold_left (fun values j =>
      match row !! j with
      | Some v => if Qlt_le_dec 0 v then values ++ [v] else values
      | None => values
      end) (seq lo k) values
  = values ++ filter (fun v => 0 < v) (take k (drop lo row)).
Proof.
  revert lo values. induction k as [| k IH]; intros lo values Hk; simpl.
  - symmetry. apply app_nil_r.
  - destruct (lookup_lt_is_Some_2 row lo) as [v Hv]; [lia |].
    rewrite Hv, (drop_S _ _ _ Hv). simpl. rewrite IH by lia.
    destruct (Qlt_le_dec 0 v) as [Hpos | Hneg].
    + rewrite filter_cons_True by exact Hpos. rewrite <- app_assoc. reflexivity.
    + rewrite filter_cons_False by (apply Qle_not_lt, Hneg). reflexivity.
Qed.

Lemma extract_rows (matrix : Matrix) (k lo : nat) (values : list Q) :
  (k <= length matrix - lo)%nat ->
  fold_left (fun values i =>
      match matrix !! i with
      | None => values
      | Some row =>
          fold_left (fun values j =>
              match row !! j with
              | Some v => if Qlt_le_dec 0 v then values ++ [v] else values
              | None => values
              end) (range (i + 1) (length row)) values
      end) (seq lo k) values
  = values
    ++ concat (imap (fun i row => filter (fun v => 0 < v) (drop (S (lo + i)) row))
                 (take k (drop lo matrix))).
Proof.
  revert lo values. induction k as [| k IH]; intros lo values Hk; simpl.
  - symmetry. apply app_nil_r.
  - destruct (lookup_lt_is_Some_2 matrix lo) as [row Hrow]; [lia |].
    rewrite Hrow, (drop_S _ _ _ Hrow). simpl.
    unfold range. rewrite extract_row by lia.
    rewrite IH by lia. rewrite <- app_assoc. f_equal.
    rewrite take_ge by (rewrite length_drop; lia).
    replace (lo + 1)%nat with (S (lo + 0)) by lia. f_equal.
    f_equal. apply imap_ext. intros i r _. simpl.
    replace (lo + S i)%nat with (S (lo + i)) by lia. reflexivity.
Qed.

Lemma extractMatrixValues_upper_triangle (matrix : Matrix) :
  extractMatrixValues matrix = upper_triangle_positive matrix.
Proof.
  unfold extractMatrixValues, upper_triangle_positive, range.
  rewrite extract_rows by lia. simpl.
  rewrite Nat.sub_0_r, take_ge by (rewrite length_drop; lia).
  reflexivity.
Qed.

Lemma elem_of_upper_triangle_positive (matrix : Matrix) (v : Q) :
  v ∈ upper_triangle_positive matrix
  <-> exists i j, (i < j)%nat /\ cell matrix i j = Some v /\ 0 < v.
Proof.
  unfold upper_triangle_positive. rewrite list_elem_of_In, in_concat. split.
  - intros (vs & Hvs & Hv).
    apply list_elem_of_In in Hvs, Hv.
    apply list_elem_of_lookup in Hvs as [i Hi].
    rewrite list_lookup_imap in Hi.
    destruct (matrix !! i) as [row |] eqn:Hrow; [| discriminate].
    injection Hi as <-. apply list_elem_of_filter in Hv as [Hpos Hv].
    apply list_elem_of_lookup in Hv as [k Hk]. rewrite lookup_drop in Hk.
    exists i, (S i + k)%nat. split; [lia |]. split; [| exact Hpos].
    apply cell_Some. exists row. auto.
  - intros (i & j & Hij & Hc & Hpos).
    apply cell_Some in Hc as (row & Hrow & Hv).
    exists (filter (fun v => 0 < v) (drop (S i) row)).
    rewrite <- !list_elem_of_In. split.
    + apply list_elem_of_lookup. exists i.
      rewrite list_lookup_imap, Hrow. reflexivity.
    + apply list_elem_of_filter. split; [exact Hpos |].
      apply list_elem_of_lookup. exists (j - S i)%nat.
      rewrite lookup_drop. replace (S i + (j - S i))%nat with j by lia.
      exact Hv.
Qed.

(** ** calculatePercentile *)

#[global] Instance Qle_transitive : Transitive Qle.
Proof. intros x y z. apply Qle_trans. Qed.

#[global] Instance Qle_total : Total Qle.
Proof.
  intros x y. destruct (Qlt_le_dec x y) as [H | H]; [left | right; exact H].
  apply Qlt_le_weak, H.
Qed.

Lemma sorted_lookup_le (l : list Q) (i j : nat) (x y : Q) :
  StronglySorted Qle l -> (i <= j)%nat ->
  l !! i = Some x -> l !! j = Some y -> x <= y.
Proof.
  intros Hs. revert i j. induction Hs as [| a l Hs IH Ha]; intros i j Hij Hi Hj.
  - discriminate.
  - destruct i as [| i], j as [| j]; simpl in *.
    + injection Hi as <-. injection Hj as <-. apply Qle_refl.
    + injection Hi as <-. rewrite Forall_forall in Ha. apply Ha.
      eapply list_elem_of_lookup_2, Hj.
    + lia.
    + apply (IH i j); (assumption || lia).
Qed.

Lemma Qceiling_le_floor_succ (x : Q) : (Qceiling x <= Qfloor x + 1)%Z.
Proof.
  pose proof (Qceiling_lt x) as H1. pose proof (Qlt_floor x) as H2.
  assert (H : inject_Z (Qceiling x - 1) < inject_Z (Qfloor x + 1))
    by (eapply Qlt_trans; eassumption).
  rewrite <- Zlt_Qlt in H. lia.
Qed.

(** The fractional rank of a percentile in [0, 100] lies within the sample. *)
Lemma rank_bounds (n : nat) (p : Q) :
  (1 <= n)%nat -> 0 <= p <= 100 ->
  let index := (p / 100) * (inject_Z (Z.of_nat n) - 1) in
  0 <= index <= inject_Z (Z.of_nat n - 1).
Proof.
  intros Hn [Hp0 Hp100] index.
  assert (HN : inject_Z (Z.of_nat n) - 1 == inject_Z (Z.of_nat n - 1)).
  { unfold Z.sub. rewrite inject_Z_plus, inject_Z_opp. reflexivity. }
  assert (HN0 : 0 <= inject_Z (Z.of_nat n - 1)).
  { change 0 with (inject_Z 0). rewrite <- Zle_Qle. lia. }
  unfold index. rewrite HN.
  set (N := inject_Z (Z.of_nat n - 1)) in *.
  assert (Ht : 0 <= p / 100 <= 1).
  { split; [apply Qle_shift_div_l | apply Qle_shift_div_r]; lra. }
  set (t := p / 100) in *. split; nra.
Qed.

Lemma rank_lookup (s : list Q) (index : Q) :
  0 <= index <= inject_Z (Z.of_nat (length s) - 1) ->
  (exists lo, at_index s (Qfloor index) = Some lo
              /\ s !! Z.to_nat (Qfloor index) = Some lo)
  /\ (exists hi, at_index s (Qceiling index) = Some hi
                 /\ s !! Z.to_nat (Qceiling index) = Some hi).
Proof.
  intros [H0 Hn].
  assert (Hf : (0 <= Qfloor index <= Z.of_nat (length s) - 1)%Z).
  { split.
    - rewrite <- (Qfloor_Z 0). apply Qfloor_resp_le, H0.
    - rewrite <- (Qfloor_Z (Z.of_nat (length s) - 1)). apply Qfloor_resp_le, Hn. }
  assert (Hc : (0 <= Qceiling index <= Z.of_nat (length s) - 1)%Z).
  { split.
    - rewrite <- (Qceiling_Z 0). apply Qceiling_resp_le, H0.
    - rewrite <- (Qceiling_Z (Z.of_nat (length s) - 1)).
      apply Qceiling_resp_le, Hn. }
  unfold at_index. split.
  - destruct (lookup_lt_is_Some_2 s (Z.to_nat (Qfloor index))) as [lo Hlo]; [lia |].
    exists lo. rewrite (proj2 (Z.ltb_ge _ _)) by lia. auto.
  - destruct (lookup_lt_is_Some_2 s (Z.to_nat (Qceiling index))) as [hi Hhi]; [lia |].
    exists hi. rewrite (proj2 (Z.ltb_ge _ _)) by lia. auto.
Qed.

Lemma length_sorted (values : list Q) :
  length (merge_sort Qle values) = length values.
Proof. apply Permutation_length, merge_sort_Permutation. Qed.

(** A percentile in [0, 100] of a non-empty sample reads two cells of the
    sorted sample and returns the interpolation between them. *)
Lemma calculatePercentile_returns (values : list Q) (p : Q) :
  values <> [] -> 0 <= p <= 100 ->
  let sorted := merge_sort Qle values in
  let index := rank values p in
  exists lo hi,
    sorted !! Z.to_nat (Qfloor index) = Some lo
    /\ sorted !! Z.to_nat (Qceiling index) = Some hi
    /\ calculatePercentile values p
       = Returns (if (Qfloor index =? Qceiling index)%Z then lo
                  else lo + (index - inject_Z (Qfloor index)) * (hi - lo)).
Proof.
  intros Hne Hp sorted index.
  assert (Hlen : (1 <= length sorted)%nat).
  { unfold sorted. rewrite length_sorted. destruct values; [congruence | simpl; lia]. }
  destruct (rank_lookup sorted index) as [(lo & Hlo & Hlo') (hi & Hhi & Hhi')].
  { apply rank_bounds; assumption. }
  exists lo, hi. split; [exact Hlo' |]. split; [exact Hhi' |].
  unfold calculatePercentile.
  rewrite decide_False by (destruct values; [congruence | discriminate]).
  fold sorted. change (5 / 100 * _) with index.
  change (p / 100 * (inject_Z (Z.of_nat (length sorted)) - 1)) with index.
  destruct (Qfloor index =? Qceiling index)%Z.
  - rewrite Hlo. reflexivity.
  - rewrite Hlo, Hhi. reflexivity.
Qed.

(** Percentiles grow with [p]. *)
Lemma calculatePercentile_mono (values : list Q) (p q : Q) :
  values <> [] -> 0 <= p -> p <= q -> q <= 100 ->
  exists vp vq,
    calculatePercentile values p = Returns vp
    /\ calculatePercentile values q = Returns vq
    /\ vp <= vq.
Proof.
  intros Hne Hp Hpq Hq.
  destruct (calculatePercentile_returns values p Hne) as (lp & hp & Hlp & Hhp & Ep);
    [split; lra |].
  destruct (calculatePercentile_returns values q Hne) as (lq & hq & Hlq & Hhq & Eq);
    [split; lra |].
  eexists _, _. split; [exact Ep |]. split; [exact Eq |].
  pose proof (StronglySorted_merge_sort Qle values) as Hs.
  set (s := merge_sort Qle values) in *.
  assert (Hidx : rank values p <= rank values q).
  { unfold rank. fold s.
    assert (0 <= inject_Z (Z.of_nat (length s)) - 1).
    { assert (1 <= length s)%nat as Hl.
      { unfold s. rewrite length_sorted.
        destruct values; [congruence | simpl; lia]. }
      assert (inject_Z 1 <= inject_Z (Z.of_nat (length s)))
        by (rewrite <- Zle_Qle; lia).
      change (inject_Z 1) with 1 in *. lra. }
    assert (p / 100 <= q / 100).
    { unfold Qdiv. apply Qmult_le_compat_r; [exact Hpq | discriminate]. }
    nra. }
  set (ip := rank values p) in *. set (iq := rank values q) in *.
  pose proof (Qfloor_le ip) as Fp. pose proof (Qle_ceiling ip) as Cp.
  pose proof (Qfloor_le iq) as Fq. pose proof (Qle_ceiling iq) as Cq.
  pose proof (Qlt_floor ip) as Fp'. pose proof (Qlt_floor iq) as Fq'.
  pose proof (Qceiling_lt ip) as Cp'. pose proof (Qceiling_lt iq) as Cq'.
  pose proof (Qle_floor_ceiling ip) as FCp.
  pose proof (Qle_floor_ceiling iq) as FCq.
  rewrite <- Zle_Qle in FCp, FCq.
  pose proof (Qceiling_le_floor_succ ip) as CFp.
  pose proof (Qceiling_le_floor_succ iq) as CFq.
  pose proof (Qfloor_resp_le _ _ Hidx) as Fpq.
  assert (H0p : (0 <= Qfloor ip)%Z).
  { rewrite <- (Qfloor_Z 0). apply Qfloor_resp_le.
    apply (rank_bounds (length s) p); [| split; lra].
    unfold s. rewrite length_sorted. destruct values; [congruence | simpl; lia]. }
  (* each percentile lies between the two cells it reads *)
  assert (Hlh_p : lp <= hp).
  { eapply (sorted_lookup_le s); [exact Hs | | exact Hlp | exact Hhp]. lia. }
  assert (Hlh_q : lq <= hq).
  { eapply (sorted_lookup_le s); [exact Hs | | exact Hlq | exact Hhq]. lia. }
  assert (Hfrac : forall i : Q, 0 <= i - inject_Z (Qfloor i) <= 1).
  { intros i. pose proof (Qfloor_le i). pose proof (Qlt_floor i) as H1.
    rewrite inject_Z_plus in H1. change (inject_Z 1) with 1 in H1. lra. }
  assert (Hp_hi : (if (Qfloor ip =? Qceiling ip)%Z then lp
                   else lp + (ip - inject_Z (Qfloor ip)) * (hp - lp)) <= hp).
  { destruct (Qfloor ip =? Qceiling ip)%Z; [exact Hlh_p |].
    pose proof (Hfrac ip). nra. }
  assert (Hq_lo : lq <= (if (Qfloor iq =? Qceiling iq)%Z then lq
                         else lq + (iq - inject_Z (Qfloor iq)) * (hq - lq))).
  { destruct (Qfloor iq =? Qceiling iq)%Z; [apply Qle_refl |].
    pose proof (Hfrac iq). nra. }
  destruct (Z_le_gt_dec (Qceiling ip) (Qfloor iq)) as [Hle | Hgt].
  - (* the two ranks are separated by a cell *)
    assert (hp <= lq).
    { eapply (sorted_lookup_le s); [exact Hs | | exact Hhp | exact Hlq]. lia. }
    eapply Qle_trans; [exact Hp_hi |]. eapply Qle_trans; [eassumption | exact Hq_lo].
  - (* both ranks fall strictly inside the same gap *)
    assert (Hfl : Qfloor iq = Qfloor ip) by lia.
    assert (Hcp : Qceiling ip = (Qfloor ip + 1)%Z) by lia.
    assert (Hcq : Qceiling iq = (Qfloor ip + 1)%Z).
    { assert (inject_Z (Qfloor ip) < iq).
      { eapply Qlt_le_trans; [| exact Hidx].
        rewrite Hcp in Cp'.
        replace (Qfloor ip + 1 - 1)%Z with (Qfloor ip) in Cp' by lia. exact Cp'. }
      assert (inject_Z (Qfloor ip) < inject_Z (Qceiling iq))
        by (eapply Qlt_le_trans; eassumption).
      rewrite <- Zlt_Qlt in *. lia. }
    rewrite Hfl, Hcq in *. rewrite Hcp in *.
    rewrite Hlq in Hlp. injection Hlp as ->.
    rewrite Hhq in Hhp. injection Hhp as ->.
    rewrite (proj2 (Z.eqb_neq _ _)) by lia.
    nra.
Qed.

(** ** normalizeMatrixP5P95 *)

Lemma clamp_spec (v lo hi : Q) :
  (lo <= hi ->
     (v <= lo /\ clamp v lo hi == lo)
     \/ (lo <= v <= hi /\ clamp v lo hi == v)
     \/ (hi <= v /\ clamp v lo hi == hi))
  /\ (hi < lo -> clamp v lo hi == lo).
Proof.
  unfold clamp.
  destruct (Q.min_spec hi v) as [[H1 E1] | [H1 E1]];
    destruct (Q.max_spec lo (Qmin hi v)) as [[H2 E2] | [H2 E2]];
    rewrite E2; rewrite ?E1 in *; split; intros H;
    try (left; split; lra); try (right; left; split; lra);
    try (right; right; split; lra); try lra.
Qed.

Lemma clamp_idempotent (v lo hi : Q) :
  clamp (clamp v lo hi) lo hi == clamp v lo hi.
Proof.
  destruct (Qlt_le_dec hi lo) as [Hlt | Hle].
  - rewrite (proj2 (clamp_spec (clamp v lo hi) lo hi) Hlt).
    rewrite (proj2 (clamp_spec v lo hi) Hlt). reflexivity.
  - destruct (proj1 (clamp_spec v lo hi) Hle) as [[H E] | [[H E] | [H E]]];
      destruct (proj1 (clamp_spec (clamp v lo hi) lo hi) Hle)
        as [[H' E'] | [[H' E'] | [H' E']]]; lra.
Qed.

Lemma normalizeP5P95_degenerate (v p5 p95 : Q) :
  p95 == p5 -> normalizeP5P95 v p5 p95 = 0.
Proof. intros H. unfold normalizeP5P95. rewrite (Qeq_bool_true _ _ H). reflexivity. Qed.

Lemma normalizeP5P95_formula (v p5 p95 : Q) :
  ~ p95 == p5 ->
  normalizeP5P95 v p5 p95 == (clamp v p5 p95 - p5) / (p95 - p5).
Proof.
  intros H. unfold normalizeP5P95, normalizeToRange.
  rewrite (Qeq_bool_false _ _ H). rewrite clamp_idempotent. reflexivity.
Qed.

Lemma normalizeP5P95_at_p5 (v p5 p95 : Q) :
  v == p5 -> normalizeP5P95 v p5 p95 == 0.
Proof.
  intros Hv. destruct (Qeq_dec p95 p5) as [E | E].
  - rewrite (normalizeP5P95_degenerate _ _ _ E). reflexivity.
  - rewrite (normalizeP5P95_formula _ _ _ E).
    assert (Hc : clamp v p5 p95 == p5).
    { destruct (Qlt_le_dec p95 p5) as [Hlt | Hle].
      - apply (proj2 (clamp_spec v p5 p95) Hlt).
      - destruct (proj1 (clamp_spec v p5 p95) Hle) as [[H E'] | [[H E'] | [H E']]];
          lra. }
    rewrite Hc. field. lra.
Qed.

Lemma normalizeP5P95_at_p95 (v p5 p95 : Q) :
  p5 <= p95 -> ~ p95 == p5 -> v == p95 -> normalizeP5P95 v p5 p95 == 1.
Proof.
  intros Hle E Hv. rewrite (normalizeP5P95_formula _ _ _ E).
  assert (Hc : clamp v p5 p95 == p95).
  { destruct (proj1 (clamp_spec v p5 p95) Hle) as [[H E'] | [[H E'] | [H E']]];
      lra. }
  rewrite Hc. field. lra.
Qed.

Lemma cell_imap (m : Matrix) (f : nat -> nat -> Q -> Q) (i j : nat) :
  cell (imap (fun i row => imap (fun j v => f i j v) row) m) i j
  = f i j <$> cell m i j.
Proof.
  unfold cell. rewrite list_lookup_imap.
  destruct (m !! i) as [row |]; simpl; [| reflexivity].
  apply list_lookup_imap.
Qed.

Lemma square_imap (n : nat) (m : Matrix) (f : nat -> nat -> Q -> Q) :
  square n m -> square n (imap (fun i row => imap (fun j v => f i j v) row) m).
Proof.
  intros [Hlen Hrows]. split; [rewrite length_imap; exact Hlen |].
  intros i row. rewrite list_lookup_imap.
  destruct (m !! i) as [r |] eqn:E; [| discriminate].
  intros [= <-]. rewrite length_imap. eapply Hrows, E.
Qed.

(** The computed bounds: both percentiles return, and P5 is at most P95. *)
Lemma bounds_return (values : list Q) :
  exists p5 p95,
    calculatePercentile values 5 = Returns p5
    /\ calculatePercentile values 95 = Returns p95
    /\ p5 <= p95.
Proof.
  destruct values as [| v values].
  - exists 0, 0. split; [reflexivity |]. split; [reflexivity | apply Qle_refl].
  - apply calculatePercentile_mono; [discriminate | lra | lra | lra].
Qed.

Lemma normalizeMatrixP5P95_given (matrix : Matrix) (p5 p95 : Q) :
  normalizeMatrixP5P95 matrix (Some p5) (Some p95)
  = Returns (Normalized.mk
               (imap (fun i row =>
                  imap (fun j value =>
                    if decide (i = j) then 0 else normalizeP5P95 value p5 p95)
                    row) matrix) p5 p95).
Proof. reflexivity. Qed.

Lemma normalizeMatrixP5P95_computed (matrix : Matrix) (p5 p95 : Q) :
  calculatePercentile (extractMatrixValues matrix) 5 = Returns p5 ->
  calculatePercentile (extractMatrixValues matrix) 95 = Returns p95 ->
  normalizeMatrixP5P95 matrix None None
  = normalizeMatrixP5P95 matrix (Some p5) (Some p95).
Proof.
  intros E5 E95. unfold normalizeMatrixP5P95. simpl. rewrite E5. simpl.
  rewrite E95. reflexivity.
Qed.

Lemma clamp_cases (v lo hi : Q) :
  lo <= hi ->
  (v <= lo -> clamp v lo hi == lo)
  /\ (lo <= v <= hi -> clamp v lo hi == v)
  /\ (hi <= v -> clamp v lo hi == hi).
Proof.
  intros Hle.
  destruct (proj1 (clamp_spec v lo hi) Hle) as [[H E] | [[H E] | [H E]]];
    repeat split; intros H'; lra.
Qed.

Lemma normalizeP5P95_cases (v p5 p95 : Q) :
  p5 <= p95 -> ~ p95 == p5 ->
  (v <= p5 -> normalizeP5P95 v p5 p95 == 0)
  /\ (p5 <= v <= p95 -> normalizeP5P95 v p5 p95 == (v - p5) / (p95 - p5))
  /\ (p95 <= v -> normalizeP5P95 v p5 p95 == 1).
Proof.
  intros Hle Hne. rewrite (normalizeP5P95_formula _ _ _ Hne).
  destruct (clamp_cases v p5 p95 Hle) as (Hlow & Hmid & Hhigh).
  repeat split; intros H.
  - rewrite (Hlow H). field. lra.
  - rewrite (Hmid H). reflexivity.
  - rewrite (Hhigh H). field. lra.
Qed.

(** C3: normalization with defaulted bounds.  The percentiles are taken of
    the strictly positive values of the upper triangle; a diagonal cell
    becomes 0; an off-diagonal cell becomes 0 when P95 = P5 and
    [(clamp v P5 P95 - P5) / (P95 - P5)] otherwise, where clamping [v]
    gives P5 for a value below P5, P95 for a value above P95, and [v] for a
    value between them: the cell becomes 0 up to P5,
    [(v - P5) / (P95 - P5)] between the bounds, and 1 from P95 on.  So a
    value equal to P5 becomes 0 and a value equal to P95 becomes 1. *)
Theorem normalizeMatrixP5P95_spec (matrix : Matrix) :
  extractMatrixValues matrix = upper_triangle_positive matrix
  /\ (forall v, v ∈ extractMatrixValues matrix
        <-> exists i j, (i < j)%nat /\ cell matrix i j = Some v /\ 0 < v)
  /\ exists P5 P95 r,
       calculatePercentile (extractMatrixValues matrix) 5 = Returns P5
       /\ calculatePercentile (extractMatrixValues matrix) 95 = Returns P95
       /\ normalizeMatrixP5P95 matrix None None = Returns r
       /\ Normalized.p5 r = P5
       /\ Normalized.p95 r = P95
       /\ P5 <= P95
       /\ forall i j,
            match cell matrix i j with
            | None => cell (Normalized.normalizedMatrix r) i j = None
            | Some v =>
                exists w,
                  cell (Normalized.normalizedMatrix r) i j = Some w
                  /\ (i = j -> w = 0)
                  /\ (i <> j -> P95 == P5 -> w = 0)
                  /\ (i <> j -> ~ P95 == P5 ->
                      w == (clamp v P5 P95 - P5) / (P95 - P5))
                  /\ (i <> j -> v == P5 -> w == 0)
                  /\ (i <> j -> ~ P95 == P5 -> v == P95 -> w == 1)
                  /\ (i <> j -> ~ P95 == P5 ->
                      (v <= P5 -> clamp v P5 P95 == P5 /\ w == 0)
                      /\ (P5 <= v <= P95 ->
                          clamp v P5 P95 == v /\ w == (v - P5) / (P95 - P5))
                      /\ (P95 <= v -> clamp v P5 P95 == P95 /\ w == 1))
            end.
Proof.
  split; [apply extractMatrixValues_upper_triangle |]. split.
  { intros v. rewrite extractMatrixValues_upper_triangle.
    apply elem_of_upper_triangle_positive. }
  destruct (bounds_return (extractMatrixValues matrix)) as (P5 & P95 & E5 & E95 & Hle).
  exists P5, P95. eexists. split; [exact E5 |]. split; [exact E95 |].
  split.
  { rewrite (normalizeMatrixP5P95_computed matrix P5 P95 E5 E95).
    apply normalizeMatrixP5P95_given. }
  simpl. split; [reflexivity |]. split; [reflexivity |]. split; [exact Hle |].
  intros i j.
  rewrite (cell_imap matrix
             (fun i j value =>
                if decide (i = j) then 0 else normalizeP5P95 value P5 P95)).
  destruct (cell matrix i j) as [v |]; simpl; [| reflexivity].
  eexists. split; [reflexivity |].
  destruct (decide (i = j)) as [Heq | Hne].
  - split; [reflexivity |]. repeat split; intros; contradiction.
  - split; [contradiction |]. split; [| split; [| split; [| split]]].
    + intros _ Hd. apply normalizeP5P95_degenerate, Hd.
    + intros _ Hn. apply normalizeP5P95_formula, Hn.
    + intros _ Hv. apply normalizeP5P95_at_p5, Hv.
    + intros _ Hn Hv. apply normalizeP5P95_at_p95; assumption.
    + intros _ Hn.
      destruct (normalizeP5P95_cases v P5 P95 Hle Hn) as (Hlow & Hmid & Hhigh).
      destruct (clamp_cases v P5 P95 Hle) as (Clow & Cmid & Chigh).
      repeat split; auto.
Qed.

(** On [matrix_255] the bounds are P5 = 2.3 and P95 = 5: the cells holding 5
    become 1, the cells holding 2, which is below P5, become 0, and the
    diagonal stays 0. *)
Lemma normalizeMatrixP5P95_spec_witness :
  exists r w w',
    normalizeMatrixP5P95 matrix_255 None None = Returns r
    /\ Normalized.p5 r == 2.3
    /\ Normalized.p95 r == 5
    /\ cell (Normalized.normalizedMatrix r) 0 2 = Some w /\ w == 1
    /\ cell (Normalized.normalizedMatrix r) 0 1 = Some w' /\ w' == 0
    /\ cell (Normalized.normalizedMatrix r) 1 1 = Some 0.
Proof.
  destruct (normalizeMatrixP5P95_spec matrix_255)
    as (_ & _ & P5 & P95 & r & E5 & E95 & Er & Hp5 & Hp95 & _ & Hcells).
  assert (H95 : P5 == 2.3 /\ P95 == 5 /\ ~ P95 == P5).
  { vm_compute in E5, E95. injection E5 as <-. injection E95 as <-.
    split; [reflexivity |]. split; [reflexivity | discriminate]. }
  destruct H95 as (H5 & H95 & Hne).
  pose proof (Hcells 0%nat 2%nat) as H02. simpl in H02.
  destruct H02 as (w & Hw & _ & _ & _ & _ & Hone & _).
  pose proof (Hcells 0%nat 1%nat) as H01. simpl in H01.
  destruct H01 as (w' & Hw' & _ & _ & _ & _ & _ & Hclamp).
  pose proof (Hcells 1%nat 1%nat) as H11. simpl in H11.
  destruct H11 as (w'' & Hw'' & Hdiag & _).
  exists r, w, w'. split; [exact Er |]. split; [rewrite Hp5; exact H5 |].
  split; [rewrite Hp95; exact H95 |].
  split; [exact Hw |]. split.
  { apply Hone; [lia | exact Hne | symmetry; exact H95]. }
  split; [exact Hw' |]. split.
  { destruct (Hclamp ltac:(lia) Hne) as (Hlow & _).
    apply Hlow. rewrite H5. discriminate. }
  rewrite Hw''. f_equal. apply Hdiag. reflexivity.
Defined.

(** ** calculateCoOrderMatrix *)

Lemma set_indices_lookup (ids : list string) (k : nat) (map : gmap string nat)
    (cat : string) (idx : nat) :
  set_indices ids k map !! cat = Some idx ->
  (map !! cat = Some idx /\ cat ∉ ids)
  \/ ((k <= idx)%nat /\ ids !! (idx - k)%nat = Some cat).
Proof.
  revert k map. induction ids as [| id rest IH]; intros k map H; simpl in H.
  - left. split; [exact H | apply not_elem_of_nil].
  - apply IH in H as [[H Hnot] | [Hk H]].
    + destruct (decide (id = cat)) as [-> | Hne].
      * rewrite lookup_insert_eq in H. injection H as <-.
        right. split; [lia |]. rewrite Nat.sub_diag. reflexivity.
      * rewrite lookup_insert_ne in H by exact Hne.
        left. split; [exact H |]. apply not_elem_of_cons. auto.
    + right. split; [lia |].
      replace (idx - k)%nat with (S (idx - S k)) by lia. exact H.
Qed.

(** An index found in the category index map is the position of that
    category: it is within the matrix, and two categories never share it. *)
Lemma buildCategoryIndexMap_lookup (ids : list string) (cat : string) (idx : nat) :
  buildCategoryIndexMap ids !! cat = Some idx -> ids !! idx = Some cat.
Proof.
  intros H. apply set_indices_lookup in H as [[H _] | [_ H]].
  - rewrite lookup_empty in H. discriminate.
  - rewrite Nat.sub_0_r in H. exact H.
Qed.

Lemma Set_of_NoDup (xs : list string) : NoDup (Set_of xs).
Proof.
  unfold Set_of.
  assert (H : forall seen : list string,
    NoDup seen ->
    NoDup (fold_left
             (fun seen x => if decide (x ∈ seen) then seen else seen ++ [x])
             xs seen)).
  { induction xs as [| x xs IH]; intros seen Hseen; simpl; [exact Hseen |].
    apply IH. destruct (decide (x ∈ seen)) as [Hin | Hnot]; [exact Hseen |].
    apply NoDup_app. split; [exact Hseen |]. split.
    - intros y Hy Hy'. apply list_elem_of_singleton in Hy' as ->. contradiction.
    - apply NoDup_singleton. }
  apply H, NoDup_nil_2.
Qed.

Lemma count_pair_hollow (n : nat) (m : Matrix) (idx1 idx2 : nat) :
  idx1 <> idx2 -> symmetric_hollow n m ->
  symmetric_hollow n (increment idx2 idx1 (increment idx1 idx2 m)).
Proof.
  intros Hne (Hsq & Hsym & Hdiag).
  assert (Hcell : forall a b,
    cell (increment idx2 idx1 (increment idx1 idx2 m)) a b
    = if decide ((a = idx1 /\ b = idx2) \/ (a = idx2 /\ b = idx1))
      then (fun v => v + 1) <$> cell m a b else cell m a b).
  { intros a b. rewrite !cell_increment; [| exact n | exact n].
    repeat case_decide; (reflexivity || lia || tauto). }
  split; [apply square_increment, square_increment, Hsq |]. split.
  - intros a b Ha Hb. rewrite !Hcell, (Hsym a b Ha Hb).
    repeat case_decide; (reflexivity || tauto).
  - intros a Ha. rewrite Hcell. rewrite decide_False by lia. apply Hdiag, Ha.
Qed.

Lemma count_pairs_hollow (n : nat) (ids cats : list string) (m : Matrix) :
  NoDup cats -> symmetric_hollow n m ->
  symmetric_hollow n (count_pairs (buildCategoryIndexMap ids) cats m).
Proof.
  revert m. induction cats as [| cat_i later IH]; intros m Hnd Hm; simpl.
  - exact Hm.
  - apply NoDup_cons in Hnd as [Hnot Hnd]. apply IH; [exact Hnd |].
    clear IH Hnd. revert m Hm Hnot.
    induction later as [| cat_j later IH]; intros m Hm Hnot; simpl; [exact Hm |].
    apply not_elem_of_cons in Hnot as [Hne Hnot].
    apply IH; [| exact Hnot].
    destruct (buildCategoryIndexMap ids !! cat_i) as [idx1 |] eqn:E1; [| exact Hm].
    destruct (buildCategoryIndexMap ids !! cat_j) as [idx2 |] eqn:E2; [| exact Hm].
    apply count_pair_hollow; [| exact Hm].
    intros ->. apply buildCategoryIndexMap_lookup in E1, E2. congruence.
Qed.

Lemma zeros_hollow (n : nat) : symmetric_hollow n (zeros n).
Proof.
  split; [apply square_zeros |]. split.
  - intros i j Hi Hj. rewrite !cell_zeros by assumption. reflexivity.
  - intros i Hi. apply cell_zeros; assumption.
Qed.

Lemma calculateCoOrderMatrix_hollow (orders : list Order.t)
    (categories : list Category.t) :
  let co := calculateCoOrderMatrix orders categories in
  CoOrderMatrix.category co = map Category.id categories
  /\ symmetric_hollow (length categories) (CoOrderMatrix.matrix co).
Proof.
  unfold calculateCoOrderMatrix.
  set (ids := map Category.id categories).
  set (step := fun '(matrix, orderCounts) order => _).
  assert (Hfold : forall st,
    symmetric_hollow (length ids) st.1 ->
    symmetric_hollow (length ids) (fold_left step orders st).1).
  { induction orders as [| order orders IH]; intros [m oc] Hm; simpl; [exact Hm |].
    apply IH. simpl. apply count_pairs_hollow; [apply Set_of_NoDup | exact Hm]. }
  specialize (Hfold (zeros (length ids), fold_left (fun oc cat => <[cat := 0]> oc) ids ∅)
                (zeros_hollow _)).
  destruct (fold_left step orders _) as [matrix orderCounts]. simpl in *.
  split; [reflexivity |]. unfold ids in Hfold. rewrite length_map in Hfold.
  exact Hfold.
Qed.

(** ** buildCoAffinityFromOrders *)

Lemma calculateLiftMatrix_hollow (co : CoOrderMatrix.t) :
  let n := length (CoOrderMatrix.category co) in
  square n (CoOrderMatrix.matrix co) ->
  exists matrix,
    calculateLiftMatrix co
    = Returns (LiftMatrix.mk (CoOrderMatrix.category co) matrix)
    /\ symmetric_hollow n matrix.
Proof.
  intros n Hsq.
  destruct (calculateLiftMatrix_returns co Hsq) as (matrix & E & Hsqm & Hcells).
  exists matrix. split; [exact E |]. split; [exact Hsqm |]. split.
  - intros i j Hi Hj. rewrite !Hcells by assumption. f_equal.
    apply lift_value_sym.
  - intros i Hi. rewrite Hcells by assumption. unfold lift_value.
    rewrite decide_True by reflexivity. reflexivity.
Qed.

Lemma normalized_hollow (n : nat) (m : Matrix) (p5 p95 : Q) :
  symmetric_hollow n m ->
  symmetric_hollow n
    (imap (fun i row =>
       imap (fun j value =>
         if decide (i = j) then 0 else normalizeP5P95 value p5 p95) row) m).
Proof.
  intros (Hsq & Hsym & Hdiag).
  pose (f := fun (i j : nat) (value : Q) =>
               if decide (i = j) then 0 else normalizeP5P95 value p5 p95).
  split; [apply (square_imap n m f), Hsq |]. split.
  - intros i j Hi Hj. rewrite !(cell_imap m f), (Hsym i j Hi Hj).
    destruct (cell m j i) as [v |]; simpl; [| reflexivity].
    unfold f. destruct (decide (i = j)) as [-> | Hne].
    + rewrite decide_True by reflexivity. reflexivity.
    + rewrite decide_False by auto. reflexivity.
  - intros i Hi. rewrite (cell_imap m f), (Hdiag i Hi). simpl.
    unfold f. rewrite decide_True by reflexivity. reflexivity.
Qed.

Lemma calculateCoAffinityMatrix_hollow (nl nc : NormalizedMatrix.t) :
  let n := length (NormalizedMatrix.categories nl) in
  symmetric_hollow n (NormalizedMatrix.matrix nl) ->
  symmetric_hollow n (NormalizedMatrix.matrix nc) ->
  exists matrix,
    calculateCoAffinityMatrix nl nc
    = Returns (CoAffinityMatrix.mk (NormalizedMatrix.categories nl) matrix)
    /\ symmetric_hollow n matrix.
Proof.
  intros n (Hl & Hlsym & _) (Hc & Hcsym & _).
  destruct (calculateCoAffinityMatrix_returns nl nc Hl Hc)
    as (matrix & E & Hsq & Hcells).
  exists matrix. split; [exact E |]. split; [exact Hsq |]. split.
  - intros i j Hi Hj. rewrite !Hcells by assumption. f_equal. unfold blend.
    rewrite (Hlsym i j Hi Hj), (Hcsym i j Hi Hj).
    destruct (decide (i = j)) as [-> | Hne].
    + rewrite decide_True by reflexivity. reflexivity.
    + rewrite decide_False by auto. reflexivity.
  - intros i Hi. rewrite Hcells by assumption. unfold blend.
    rewrite decide_True by reflexivity. reflexivity.
Qed.

(** C9: for any orders and categories the pipeline returns, and its
    co-order, lift, normalized and CoAffinity matrices are all symmetric with
    a zero diagonal. *)
Theorem pipeline_matrices_symmetric (orders : list Order.t)
    (categories : list Category.t) :
  let n := length categories in
  exists p,
    buildCoAffinityFromOrders orders categories = Returns p
    /\ Pipeline.coOrdersMatrix p = calculateCoOrderMatrix orders categories
    /\ forall M,
         M ∈ [CoOrderMatrix.matrix (Pipeline.coOrdersMatrix p);
              LiftMatrix.matrix (Pipeline.liftMatrix p);
              NormalizedMatrix.matrix (Pipeline.normalizedLift p);
              NormalizedMatrix.matrix (Pipeline.normalizedCoOrders p);
              CoAffinityMatrix.matrix (Pipeline.coAffinityMatrix p)] ->
         square n M
         /\ (forall i j, (i < n)%nat -> (j < n)%nat -> cell M i j = cell M j i)
         /\ (forall i, (i < n)%nat -> cell M i i = Some 0).
Proof.
  intros n. unfold buildCoAffinityFromOrders.
  destruct (calculateCoOrderMatrix_hollow orders categories) as [Hcat Hco].
  set (co := calculateCoOrderMatrix orders categories) in *.
  assert (Hn : length (CoOrderMatrix.category co) = n)
    by (rewrite Hcat; apply length_map).
  destruct (calculateLiftMatrix_hollow co) as (lift & El & Hlift).
  { rewrite Hn. apply Hco. }
  rewrite Hn in Hlift. rewrite El, bind_Returns.
  unfold getLiftBounds, getCoOrdersBounds, getP5P95Bounds.
  cbn [LiftMatrix.matrix].
  destruct (bounds_return (extractMatrixValues lift)) as (l5 & l95 & E1 & E2 & _).
  rewrite E1, bind_Returns, E2, !bind_Returns.
  destruct (bounds_return (extractMatrixValues (CoOrderMatrix.matrix co)))
    as (c5 & c95 & E3 & E4 & _).
  rewrite E3, bind_Returns, E4, !bind_Returns.
  unfold normalizeLiftMatrix, normalizeCoOrdersMatrix.
  cbn [fst snd LiftMatrix.matrix LiftMatrix.category].
  rewrite !normalizeMatrixP5P95_given, !bind_Returns.
  cbn [Normalized.normalizedMatrix Normalized.p5 Normalized.p95].
  pose proof (normalized_hollow n lift l5 l95 Hlift) as Hnl.
  pose proof (normalized_hollow n (CoOrderMatrix.matrix co) c5 c95 Hco) as Hnc.
  set (nl := NormalizedMatrix.mk _ _ l5 l95).
  set (nc := NormalizedMatrix.mk _ _ c5 c95).
  destruct (calculateCoAffinityMatrix_hollow nl nc) as (coaff & Ec & Hcoaff).
  { simpl. rewrite Hn. exact Hnl. }
  { simpl. rewrite Hn. exact Hnc. }
  cbn [NormalizedMatrix.categories nl] in Hcoaff. rewrite Hn in Hcoaff.
  rewrite Ec, bind_Returns.
  eexists. split; [reflexivity |].
  cbn [Pipeline.coOrdersMatrix Pipeline.liftMatrix Pipeline.normalizedLift
       Pipeline.normalizedCoOrders Pipeline.coAffinityMatrix
       LiftMatrix.matrix NormalizedMatrix.matrix CoAffinityMatrix.matrix nl nc].
  split; [reflexivity |].
  intros M HM.
  assert (HMh : symmetric_hollow n M).
  { repeat (apply elem_of_cons in HM as [-> | HM]; [assumption |]).
    apply elem_of_nil in HM. contradiction. }
  destruct HMh as (Hsq & Hsym & Hdiag). auto.
Qed.

(** In the small shop every matrix is 2 by 2, and skincare/beauty scores the
    same as beauty/skincare. *)
Lemma pipeline_matrices_symmetric_witness :
  exists p,
    buildCoAffinityFromOrders shop_orders shop_categories = Returns p
    /\ cell (CoAffinityMatrix.matrix (Pipeline.coAffinityMatrix p)) 0 1
       = cell (CoAffinityMatrix.matrix (Pipeline.coAffinityMatrix p)) 1 0
    /\ cell (LiftMatrix.matrix (Pipeline.liftMatrix p)) 1 1 = Some 0.
Proof.
  destruct (pipeline_matrices_symmetric shop_orders shop_categories)
    as (p & E & _ & H).
  exists p. split; [exact E |]. split.
  - destruct (H (CoAffinityMatrix.matrix (Pipeline.coAffinityMatrix p)))
      as (_ & Hsym & _).
    + do 4 right. left.
    + apply Hsym; simpl; lia.
  - destruct (H (LiftMatrix.matrix (Pipeline.liftMatrix p))) as (_ & _ & Hdiag).
    + right. left.
    + apply Hdiag. simpl. lia.
Defined.

(** ** processAllCustomers *)

Lemma result_bind {A B : Type} (m : io A) (f : A -> io B) :
  result (m ≫= f) = result m ≫= fun a => result (f a).
Proof.
  unfold mbind at 1, io_bind. destruct (result m); reflexivity.
Qed.

Lemma setDate_back_cutoff (tz : TimeZone.t) (referenceDate activeDays : Z) :
  setDate_back tz referenceDate activeDays
  = if decide (-8640000000000000 <= cutoff_time tz activeDays referenceDate
               <= 8640000000000000)%Z
    then Some (cutoff_time tz activeDays referenceDate) else None.
Proof. reflexivity. Qed.

Lemma skip_reason_eligible (tz : TimeZone.t)
    (orders : list Order.t) (goalCategory : string)
    (activeDays referenceDate : Z) (customer : Customer.t)
    (history : CustomerPurchaseHistory.t) :
  buildCustomerPurchaseHistory (Customer.id customer) orders = Some history ->
  skip_reason tz orders goalCategory activeDays referenceDate customer
  = if isCustomerEligible tz history goalCategory activeDays referenceDate then None
    else if JsMap.has goalCategory (CustomerPurchaseHistory.categories history)
         then Some "Already purchased goal category"
         else Some "Not active in window".
Proof.
  intros Hh. unfold skip_reason, isCustomerEligible, JsMap.has.
  rewrite Hh. destruct (JsMap.get goalCategory _); [reflexivity |].
  rewrite setDate_back_cutoff.
  case_decide as Hd; unfold active_in_window in Hd.
  - destruct Hd as [Hrange Hd]. rewrite decide_True by exact Hrange.
    rewrite bool_decide_eq_true_2 by exact Hd. reflexivity.
  - case_decide as Hrange; [| reflexivity].
    rewrite bool_decide_eq_false_2; [reflexivity |]. tauto.
Qed.

(** One turn of the customer loop, leaving the console aside. *)
Lemma process_customer_result (tz : TimeZone.t)
    (orders : list Order.t) (M : CoAffinityMatrix.t)
    (goalCategory : string) (activeDays referenceDate : Z) (total : nat)
    (c : Customer.t) (st : Loop.t) :
  result (process_customer tz orders M (createCategoryIndexMap M) goalCategory
            activeDays referenceDate total c st)
  = match buildCustomerPurchaseHistory (Customer.id c) orders with
    | None =>
        Returns (Loop.mk (Loop.results st)
                   (Loop.skipped st ++ [Skipped.mk (Customer.id c) "No orders"])
                   (S (Loop.processed st)) (Loop.eligible st))
    | Some h =>
        if isCustomerEligible tz h goalCategory activeDays referenceDate
        then
          r ← calculateCustomerAffinity h goalCategory M (createCategoryIndexMap M);
          Returns (Loop.mk (Loop.results st ++ [r]) (Loop.skipped st)
                     (S (Loop.processed st)) (S (Loop.eligible st)))
        else
          Returns (Loop.mk (Loop.results st)
                     (Loop.skipped st
                      ++ [Skipped.mk (Customer.id c)
                            (if JsMap.has goalCategory
                                  (CustomerPurchaseHistory.categories h)
                             then "Already purchased goal category"
                             else "Not active in window")])
                     (S (Loop.processed st)) (Loop.eligible st))
    end.
Proof.
  unfold process_customer. cbv zeta. rewrite result_bind.
  replace (result (if decide (S (Loop.processed st) mod 1000 = 0)%nat
                   then console_log _ else mret tt)) with (Returns tt)
    by (destruct (decide _); reflexivity).
  rewrite bind_Returns.
  destruct (buildCustomerPurchaseHistory (Customer.id c) orders) as [h |];
    [| reflexivity].
  destruct (isCustomerEligible tz h goalCategory activeDays referenceDate);
    cbn [negb]; [| reflexivity].
  rewrite result_bind. cbn [run result].
  destruct (calculateCustomerAffinity h goalCategory M (createCategoryIndexMap M));
    reflexivity.
Qed.

Lemma score_all_cons (M : CoAffinityMatrix.t) (goalCategory : string)
    (h : CustomerPurchaseHistory.t) (hs : list CustomerPurchaseHistory.t)
    (results : list CustomerAffinityResult.t) :
  score_all M goalCategory (h :: hs) results
  = (r ← calculateCustomerAffinity h goalCategory M (createCategoryIndexMap M);
     Returns (results ++ [r])) ≫= score_all M goalCategory hs.
Proof. reflexivity. Qed.

(** The customer loop, seen from its end: the skip records of all the
    customers are appended, and the loop fails only if scoring one of the
    eligible customers fails. *)
Lemma customer_loop (tz : TimeZone.t)
    (orders : list Order.t) (M : CoAffinityMatrix.t)
    (goalCategory : string) (activeDays referenceDate : Z) (total : nat)
    (customers : list Customer.t) (st : Loop.t) :
  result (for_of_io customers
            (process_customer tz orders M (createCategoryIndexMap M) goalCategory
               activeDays referenceDate total) st)
  = (results ← score_all M goalCategory
                 (scored_histories tz orders goalCategory activeDays referenceDate
                    customers) (Loop.results st);
     Returns (Loop.mk results
                (Loop.skipped st
                 ++ skip_records tz orders goalCategory activeDays referenceDate
                      customers)
                (Loop.processed st + length customers)
                (Loop.eligible st
                 + length (scored_histories tz orders goalCategory activeDays
                             referenceDate customers)))).
Proof.
  revert st. induction customers as [| c rest IH]; intros st.
  - destruct st as [rs sk p e]. simpl.
    rewrite app_nil_r, !Nat.add_0_r. reflexivity.
  - cbn [for_of_io]. rewrite result_bind, process_customer_result.
    unfold skip_records, scored_histories. cbn [omap list_omap].
    fold (skip_records tz orders goalCategory activeDays referenceDate rest).
    fold (scored_histories tz orders goalCategory activeDays referenceDate rest).
    destruct (buildCustomerPurchaseHistory (Customer.id c) orders)
      as [h |] eqn:Hh.
    + rewrite (skip_reason_eligible tz _ _ _ _ _ _ Hh).
      destruct (isCustomerEligible tz h goalCategory activeDays referenceDate).
      * cbn [fmap option_fmap option_map]. rewrite score_all_cons.
        destruct (calculateCustomerAffinity h goalCategory M _) as [r | e |];
          [| reflexivity | reflexivity].
        rewrite !bind_Returns, IH.
        cbn [Loop.results Loop.skipped Loop.processed Loop.eligible length].
        destruct (score_all M goalCategory _ _) as [rs | e |];
          [| reflexivity | reflexivity].
        rewrite !bind_Returns. f_equal. f_equal; lia.
      * rewrite bind_Returns, IH.
        cbn [Loop.results Loop.skipped Loop.processed Loop.eligible].
        destruct (score_all M goalCategory _ _) as [rs | e |];
          [| reflexivity | reflexivity].
        rewrite !bind_Returns. f_equal.
        destruct (JsMap.has goalCategory _); cbn [fmap option_fmap option_map length];
          (f_equal; [rewrite <- app_assoc; reflexivity | lia]).
    + unfold skip_reason. rewrite Hh. rewrite bind_Returns, IH.
      cbn [Loop.results Loop.skipped Loop.processed Loop.eligible
           fmap option_fmap option_map length].
      destruct (score_all M goalCategory _ _) as [rs | e |];
        [| reflexivity | reflexivity].
      rewrite !bind_Returns. f_equal.
      f_equal; [rewrite <- app_assoc; reflexivity | lia].
Qed.

Lemma processAllCustomers_invalid (tz : TimeZone.t)
    (customers : list Customer.t)
    (orders : list Order.t) (M : CoAffinityMatrix.t) (goalCategory : string)
    (activeDays referenceDate : Z) :
  goalCategory ∉ CoAffinityMatrix.categories M ->
  processAllCustomers tz customers orders M goalCategory activeDays referenceDate
  = Io [] (Throws (Error (goal_not_found goalCategory
                            (CoAffinityMatrix.categories M)))).
Proof.
  intros Hnot. unfold processAllCustomers.
  rewrite decide_False by exact Hnot. reflexivity.
Qed.

Lemma processAllCustomers_valid (tz : TimeZone.t) (customers : list Customer.t)
    (orders : list Order.t) (M : CoAffinityMatrix.t) (goalCategory : string)
    (activeDays referenceDate : Z) :
  goalCategory ∈ CoAffinityMatrix.categories M ->
  result (processAllCustomers tz customers orders M goalCategory activeDays
            referenceDate)
  = (results ← score_all M goalCategory
                 (scored_histories tz orders goalCategory activeDays referenceDate
                    customers) [];
     Returns (Batch.mk results
                (skip_records tz orders goalCategory activeDays referenceDate
                   customers))).
Proof.
  intros Hin. unfold processAllCustomers.
  rewrite decide_True by exact Hin. cbv zeta.
  rewrite result_bind. cbn [console_log result]. rewrite bind_Returns.
  rewrite result_bind, customer_loop.
  cbn [Loop.results Loop.skipped app].
  destruct (score_all M goalCategory _ []) as [rs | e |];
    [| reflexivity | reflexivity].
  rewrite !bind_Returns. reflexivity.
Qed.

Lemma getCoAffinity_returns (M : CoAffinityMatrix.t) (cat1 cat2 : string) :
  square (length (CoAffinityMatrix.categories M)) (CoAffinityMatrix.matrix M) ->
  exists v, getCoAffinity M (createCategoryIndexMap M) cat1 cat2 = Returns v.
Proof.
  intros Hsq. unfold getCoAffinity, createCategoryIndexMap.
  destruct (buildCategoryIndexMap _ !! cat1) as [idx1 |] eqn:E1; [| eauto].
  destruct (buildCategoryIndexMap _ !! cat2) as [idx2 |] eqn:E2; [| eauto].
  apply buildCategoryIndexMap_lookup, lookup_lt_Some in E1, E2.
  destruct (square_cell _ _ idx1 idx2 Hsq E1 E2) as [v Hv].
  exists v. apply read_cell, Hv.
Qed.

Lemma calculateCustomerAffinity_returns (M : CoAffinityMatrix.t)
    (goalCategory : string) (h : CustomerPurchaseHistory.t) :
  square (length (CoAffinityMatrix.categories M)) (CoAffinityMatrix.matrix M) ->
  exists r,
    calculateCustomerAffinity h goalCategory M (createCategoryIndexMap M)
    = Returns r.
Proof.
  intros Hsq. unfold calculateCustomerAffinity.
  assert (Hws : forall sws signals, exists out,
    for_of sws (fun seedWeight signals =>
      coAffinity ← getCoAffinity M (createCategoryIndexMap M)
                     (SeedWeight.categoryId seedWeight) goalCategory;
      Returns (signals
               ++ [WeightedSignal.mk (SeedWeight.categoryId seedWeight)
                     (Q2R coAffinity * SeedWeight.seedWeight seedWeight)%R]))
      signals = Returns out).
  { induction sws as [| sw sws IH]; intros signals; simpl; [eauto |].
    destruct (getCoAffinity_returns M (SeedWeight.categoryId sw) goalCategory Hsq)
      as [v ->].
    simpl. apply IH. }
  unfold calculateWeightedSignals.
  destruct (Hws (calculateAllSeedWeights h) []) as [out ->].
  rewrite bind_Returns. eauto.
Qed.

Lemma score_all_returns (M : CoAffinityMatrix.t) (goalCategory : string)
    (hs : list CustomerPurchaseHistory.t) (results : list CustomerAffinityResult.t) :
  square (length (CoAffinityMatrix.categories M)) (CoAffinityMatrix.matrix M) ->
  exists out,
    score_all M goalCategory hs results = Returns out
    /\ length out = (length results + length hs)%nat.
Proof.
  intros Hsq. revert results. induction hs as [| h hs IH]; intros results.
  - exists results. split; [reflexivity | simpl; lia].
  - rewrite score_all_cons.
    destruct (calculateCustomerAffinity_returns M goalCategory h Hsq) as [r ->].
    rewrite !bind_Returns. destruct (IH (results ++ [r])) as (out & -> & Hlen).
    exists out. split; [reflexivity |]. rewrite Hlen, length_app. simpl. lia.
Qed.

Lemma skip_records_app (tz : TimeZone.t)
    (orders : list Order.t) (goalCategory : string)
    (activeDays referenceDate : Z) (before after : list Customer.t) :
  skip_records tz orders goalCategory activeDays referenceDate (before ++ after)
  = skip_records tz orders goalCategory activeDays referenceDate before
    ++ skip_records tz orders goalCategory activeDays referenceDate after.
Proof. apply omap_app. Qed.

Lemma scored_histories_app (tz : TimeZone.t)
    (orders : list Order.t) (goalCategory : string)
    (activeDays referenceDate : Z) (before after : list Customer.t) :
  scored_histories tz orders goalCategory activeDays referenceDate (before ++ after)
  = scored_histories tz orders goalCategory activeDays referenceDate before
    ++ scored_histories tz orders goalCategory activeDays referenceDate after.
Proof. apply omap_app. Qed.

Lemma skipped_not_scored (tz : TimeZone.t)
    (orders : list Order.t) (goalCategory : string)
    (activeDays referenceDate : Z) (c : Customer.t) (reason : string) :
  skip_reason tz orders goalCategory activeDays referenceDate c = Some reason ->
  scored_histories tz orders goalCategory activeDays referenceDate [c] = []
  /\ skip_records tz orders goalCategory activeDays referenceDate [c]
     = [Skipped.mk (Customer.id c) reason].
Proof.
  intros Hr. unfold scored_histories, skip_records. cbn [omap list_omap].
  rewrite Hr. split; [| reflexivity].
  destruct (buildCustomerPurchaseHistory (Customer.id c) orders) as [h |] eqn:Hh;
    [| reflexivity].
  rewrite (skip_reason_eligible tz _ _ _ _ _ _ Hh) in Hr.
  destruct (isCustomerEligible tz h goalCategory activeDays referenceDate);
    [discriminate | reflexivity].
Qed.

Lemma scored_or_skipped (tz : TimeZone.t)
    (orders : list Order.t) (goalCategory : string)
    (activeDays referenceDate : Z) (customers : list Customer.t) :
  (length (scored_histories tz orders goalCategory activeDays referenceDate customers)
   + length (skip_records tz orders goalCategory activeDays referenceDate customers)
   = length customers)%nat.
Proof.
  induction customers as [| c rest IH]; [reflexivity |].
  change (c :: rest) with ([c] ++ rest).
  rewrite scored_histories_app, skip_records_app, !length_app.
  assert (length (scored_histories tz orders goalCategory activeDays referenceDate [c])
          + length (skip_records tz orders goalCategory activeDays referenceDate [c])
          = 1)%nat; [| simpl length at 5; lia].
  destruct (skip_reason tz orders goalCategory activeDays referenceDate c)
    as [reason |] eqn:Hr.
  - destruct (skipped_not_scored tz _ _ _ _ _ _ Hr) as [-> ->]. reflexivity.
  - unfold scored_histories, skip_records. cbn [omap list_omap]. rewrite Hr.
    destruct (buildCustomerPurchaseHistory (Customer.id c) orders) as [h |] eqn:Hh.
    + rewrite (skip_reason_eligible tz _ _ _ _ _ _ Hh) in Hr.
      destruct (isCustomerEligible tz h goalCategory activeDays referenceDate);
        [reflexivity |].
      destruct (JsMap.has _ _); discriminate.
    + unfold skip_reason in Hr. rewrite Hh in Hr. discriminate.
Qed.

(** C8: an unknown goal category aborts the run before anything is written
    or processed; with a known goal category the skip conditions are only
    recorded, and never stop the run. *)
Theorem processAllCustomers_spec (tz : TimeZone.t) (customers : list Customer.t)
    (orders : list Order.t) (coAffinityMatrix : CoAffinityMatrix.t)
    (goalCategory : string) (activeDays referenceDate : Z) :
  let categories := CoAffinityMatrix.categories coAffinityMatrix in
  let run := fun customers =>
    processAllCustomers tz customers orders coAffinityMatrix goalCategory
      activeDays referenceDate in
  let skips := skip_records tz orders goalCategory activeDays referenceDate in
  (goalCategory ∉ categories ->
     run customers
     = Io [] (Throws (Error
         ("Goal category " +:+ dquote +:+ goalCategory +:+ dquote
          +:+ " not found. " +:+ "Available categories: "
          +:+ String.concat ", " categories))))
  /\ (goalCategory ∈ categories ->
        (result (run customers)
         = (results ← score_all coAffinityMatrix goalCategory
                        (scored_histories tz orders goalCategory activeDays
                           referenceDate customers) [];
            Returns (Batch.mk results (skips customers))))
        /\ (forall before c after reason,
              customers = before ++ c :: after ->
              skip_reason tz orders goalCategory activeDays referenceDate c
              = Some reason ->
              result (run customers)
              = (batch ← result (run (before ++ after));
                 Returns (Batch.mk (Batch.results batch)
                            (skips before
                             ++ Skipped.mk (Customer.id c) reason
                             :: skips after))))
        /\ (square (length categories) (CoAffinityMatrix.matrix coAffinityMatrix) ->
            exists results,
              result (run customers)
              = Returns (Batch.mk results (skips customers))
              /\ (length results + length (skips customers)
                  = length customers)%nat)).
Proof.
  intros categories run skips. split.
  - intros Hnot. apply processAllCustomers_invalid, Hnot.
  - intros Hin. split; [apply processAllCustomers_valid, Hin |]. split.
    + intros before c after reason -> Hr. unfold run.
      rewrite !processAllCustomers_valid by exact Hin.
      change (c :: after) with ([c] ++ after).
      rewrite !scored_histories_app, !skip_records_app.
      destruct (skipped_not_scored tz _ _ _ _ _ _ Hr) as [-> ->]. simpl app at 2.
      destruct (score_all _ _ _ _) as [rs | e |]; reflexivity.
    + intros Hsq. unfold run. rewrite processAllCustomers_valid by exact Hin.
      destruct (score_all_returns coAffinityMatrix goalCategory
                  (scored_histories tz orders goalCategory activeDays referenceDate
                     customers) [] Hsq) as (rs & -> & Hlen).
      exists rs. split; [reflexivity |]. rewrite Hlen. simpl.
      apply scored_or_skipped.
Qed.

Lemma processAllCustomers_spec_witness :
  processAllCustomers utc [alice; bob; carol; dave] shop_orders shop_matrix
    "books" 90 (day 250)
  = Io [] (Throws (Error
      ("Goal category " +:+ dquote +:+ "books" +:+ dquote
       +:+ " not found. Available categories: skincare, beauty")))
  /\ exists results,
       result (processAllCustomers utc [alice; bob; carol; dave] shop_orders
                 shop_matrix "beauty" 90 (day 250))
       = Returns (Batch.mk results
                    [Skipped.mk "bob" "Already purchased goal category";
                     Skipped.mk "carol" "Not active in window";
                     Skipped.mk "dave" "No orders"])
       /\ length results = 1%nat.
Proof.
  split.
  - apply (processAllCustomers_spec utc [alice; bob; carol; dave] shop_orders
             shop_matrix "books" 90 (day 250)).
    vm_compute. intros H. repeat (apply elem_of_cons in H as [H | H]; [discriminate |]).
    apply elem_of_nil in H. exact H.
  - destruct (processAllCustomers_spec utc [alice; bob; carol; dave] shop_orders
                shop_matrix "beauty" 90 (day 250)) as [_ H].
    destruct H as (_ & _ & Hret).
    + right. left.
    + destruct Hret as (results & E & Hlen).
      * apply square_2; reflexivity.
      * exists results. split; [exact E |].
        change (length results + 3 = 4)%nat in Hlen. lia.
Defined.

Lemma elem_of_skip_records (tz : TimeZone.t)
    (orders : list Order.t) (goalCategory : string)
    (activeDays referenceDate : Z) (customers : list Customer.t)
    (record : Skipped.t) :
  record ∈ skip_records tz orders goalCategory activeDays referenceDate customers
  <-> exists c, c ∈ customers
        /\ skip_reason tz orders goalCategory activeDays referenceDate c
           = Some (Skipped.reason record)
        /\ Skipped.customerId record = Customer.id c.
Proof.
  unfold skip_records. rewrite list_elem_of_omap. split.
  - intros (c & Hc & Hr). exists c. split; [exact Hc |].
    destruct (skip_reason tz _ _ _ _ c) as [reason |]; [| discriminate].
    injection Hr as <-. auto.
  - intros (c & Hc & Hr & Hid). exists c. split; [exact Hc |].
    rewrite Hr. destruct record as [id reason]. simpl in *. subst id. reflexivity.
Qed.

Lemma score_all_length (M : CoAffinityMatrix.t) (goalCategory : string)
    (hs : list CustomerPurchaseHistory.t)
    (acc rs : list CustomerAffinityResult.t) :
  score_all M goalCategory hs acc = Returns rs ->
  length rs = (length acc + length hs)%nat.
Proof.
  revert acc. induction hs as [| h hs IH]; intros acc Hs.
  - injection Hs as <-. simpl. lia.
  - rewrite score_all_cons in Hs.
    destruct (calculateCustomerAffinity h goalCategory M _) as [r | e |];
      try discriminate.
    rewrite !bind_Returns in Hs. apply IH in Hs.
    rewrite Hs, length_app. simpl. lia.
Qed.

(** C10: a skipped customer gets one record; having bought the goal category
    wins over being inactive, so "Not active in window" is only ever recorded
    for a customer who never bought it (and whose last order is before the
    cutoff date, when that is a valid date). *)
Theorem skip_reason_precedence (tz : TimeZone.t) (customers : list Customer.t)
    (orders : list Order.t) (coAffinityMatrix : CoAffinityMatrix.t)
    (goalCategory : string) (activeDays referenceDate : Z) (batch : Batch.t) :
  result (processAllCustomers tz customers orders coAffinityMatrix goalCategory
            activeDays referenceDate) = Returns batch ->
  let inactive := fun h =>
    ~ active_in_window tz activeDays referenceDate
        (CustomerPurchaseHistory.lastOrderDate h) in
  let history := fun c => buildCustomerPurchaseHistory (Customer.id c) orders in
  let purchased := fun h =>
    JsMap.get goalCategory (CustomerPurchaseHistory.categories h) in
  Batch.skipped batch
  = omap (fun c =>
            Skipped.mk (Customer.id c)
              <$> skip_reason tz orders goalCategory activeDays referenceDate c)
      customers
  /\ (length (Batch.results batch) + length (Batch.skipped batch)
      = length customers)%nat
  /\ (forall c h, c ∈ customers -> history c = Some h ->
        purchased h <> None ->
        inactive h ->
        skip_reason tz orders goalCategory activeDays referenceDate c
        = Some "Already purchased goal category"
        /\ Skipped.mk (Customer.id c) "Already purchased goal category"
           ∈ Batch.skipped batch)
  /\ (forall record, record ∈ Batch.skipped batch ->
        Skipped.reason record = "Not active in window" ->
        exists c h, c ∈ customers
          /\ Skipped.customerId record = Customer.id c
          /\ history c = Some h
          /\ purchased h = None
          /\ inactive h
          /\ forall cutoffDate,
               setDate_back tz referenceDate activeDays = Some cutoffDate ->
               (CustomerPurchaseHistory.lastOrderDate h < cutoffDate)%Z).
Proof.
  intros Hrun inactive history purchased.
  assert (Hin : goalCategory ∈ CoAffinityMatrix.categories coAffinityMatrix).
  { destruct (decide (goalCategory ∈ CoAffinityMatrix.categories coAffinityMatrix))
      as [H | H]; [exact H |].
    rewrite (processAllCustomers_invalid tz _ _ _ _ _ _ H) in Hrun. discriminate. }
  rewrite (processAllCustomers_valid tz _ _ _ _ _ _ Hin) in Hrun.
  destruct (score_all _ _ _ _) as [rs | e |] eqn:Hscore; try discriminate.
  rewrite bind_Returns in Hrun. injection Hrun as <-.
  cbn [Batch.skipped Batch.results].
  split; [reflexivity |]. split.
  { rewrite (score_all_length _ _ _ _ _ Hscore). simpl. apply scored_or_skipped. }
  split.
  - intros c h Hc Hh Hp Hlate.
    assert (Hr : skip_reason tz orders goalCategory activeDays referenceDate c
                 = Some "Already purchased goal category").
    { unfold skip_reason. unfold history in Hh. rewrite Hh.
      unfold purchased in Hp. destruct (JsMap.get goalCategory _); [reflexivity |].
      contradiction. }
    split; [exact Hr |].
    apply elem_of_skip_records. exists c. auto.
  - intros record Hrec Hreason.
    apply elem_of_skip_records in Hrec as (c & Hc & Hr & Hid).
    rewrite Hreason in Hr. unfold skip_reason in Hr.
    destruct (buildCustomerPurchaseHistory (Customer.id c) orders) as [h |] eqn:Hh;
      [| discriminate].
    exists c, h. split; [exact Hc |]. split; [exact Hid |].
    split; [exact Hh |]. unfold purchased, inactive.
    destruct (JsMap.get goalCategory _); [discriminate |].
    split; [reflexivity |]. case_decide as Hd; [discriminate |].
    split; [exact Hd |]. intros cutoffDate E.
    rewrite setDate_back_cutoff in E. case_decide as Hrange; [| discriminate].
    injection E as <-. unfold active_in_window in Hd. lia.
Qed.

(** In the small shop bob both bought beauty and is inactive: his one record
    says he already purchased the goal category. *)
Lemma skip_reason_precedence_witness :
  exists batch,
    result (processAllCustomers utc [alice; bob; carol; dave] shop_orders shop_matrix
              "beauty" 90 (day 250)) = Returns batch
    /\ Batch.skipped batch
       = [Skipped.mk "bob" "Already purchased goal category";
          Skipped.mk "carol" "Not active in window";
          Skipped.mk "dave" "No orders"]
    /\ Skipped.mk "bob" "Already purchased goal category" ∈ Batch.skipped batch.
Proof.
  destruct (score_all_returns shop_matrix "beauty"
              (scored_histories utc shop_orders "beauty" 90 (day 250)
                 [alice; bob; carol; dave]) []) as (rs & Hrs & _).
  { apply square_2; reflexivity. }
  assert (Hrun : result (processAllCustomers utc [alice; bob; carol; dave] shop_orders
                           shop_matrix "beauty" 90 (day 250))
                 = Returns (Batch.mk rs
                              (skip_records utc shop_orders "beauty" 90 (day 250)
                                 [alice; bob; carol; dave]))).
  { rewrite processAllCustomers_valid by (right; left). rewrite Hrs. reflexivity. }
  destruct (skip_reason_precedence utc _ _ _ _ _ _ _ Hrun) as (Hsk & _ & Hbob & _).
  eexists. split; [exact Hrun |]. split; [exact Hsk |].
  eapply (Hbob bob); [right; left | reflexivity | discriminate |].
  intros [_ H]. vm_compute in H. apply H. reflexivity.
Defined.

(** * Further properties of the code *)

(** ** Percentiles and normalization *)









Lemma normalizeP5P95_inverted (v p5 p95 : Q) :
  p95 <= p5 -> normalizeP5P95 v p5 p95 == 0.
Proof.
  intros Hle. destruct (Qeq_dec p95 p5) as [E | E].
  - rewrite (normalizeP5P95_degenerate _ _ _ E). reflexivity.
  - rewrite (normalizeP5P95_formula _ _ _ E).
    rewrite (proj2 (clamp_spec v p5 p95)) by lra. field. lra.
Qed.

Lemma normalizeP5P95_unit_interval (v p5 p95 : Q) :
  0 <= normalizeP5P95 v p5 p95 <= 1.
Proof.
  destruct (Qlt_le_dec p5 p95) as [Hlt | Hle];
    [| rewrite normalizeP5P95_inverted by exact Hle; lra].
  rewrite normalizeP5P95_formula by lra.
  destruct (proj1 (clamp_spec v p5 p95) ltac:(lra)) as [[H E] | [[H E] | [H E]]];
    rewrite E; split;
    (apply Qle_shift_div_l || apply Qle_shift_div_r); lra.
Qed.



(** ** normalizeMatrixP5P95 and the pipeline, as a whole *)



Lemma calculateCoOrderMatrix_totalOrders (orders : list Order.t)
    (categories : list Category.t) :
  CoOrderMatrix.totalOrders (calculateCoOrderMatrix orders categories)
  = inject_Z (Z.of_nat (length orders)).
Proof.
  unfold calculateCoOrderMatrix. destruct (fold_left _ orders _). reflexivity.
Qed.

(** The pipeline, step by step. *)
Lemma pipeline_steps (orders : list Order.t) (categories : list Category.t) :
  let co := calculateCoOrderMatrix orders categories in
  let cats := map Category.id categories in
  let n := length categories in
  exists lift l5 l95 c5 c95 coaff,
    calculateLiftMatrix co = Returns (LiftMatrix.mk cats lift)
    /\ symmetric_hollow n lift
    /\ calculatePercentile (extractMatrixValues lift) 5 = Returns l5
    /\ calculatePercentile (extractMatrixValues lift) 95 = Returns l95
    /\ l5 <= l95
    /\ calculatePercentile (extractMatrixValues (CoOrderMatrix.matrix co)) 5
       = Returns c5
    /\ calculatePercentile (extractMatrixValues (CoOrderMatrix.matrix co)) 95
       = Returns c95
    /\ c5 <= c95
    /\ square n coaff
    /\ let nl :=
         NormalizedMatrix.mk cats
           (imap (fun i row =>
              imap (fun j value =>
                if decide (i = j) then 0 else normalizeP5P95 value l5 l95) row)
              lift) l5 l95 in
       let nc :=
         NormalizedMatrix.mk cats
           (imap (fun i row =>
              imap (fun j value =>
                if decide (i = j) then 0 else normalizeP5P95 value c5 c95) row)
              (CoOrderMatrix.matrix co)) c5 c95 in
       (forall a b, (a < n)%nat -> (b < n)%nat ->
          cell coaff a b
          = Some (blend (NormalizedMatrix.matrix nl) (NormalizedMatrix.matrix nc) a b))
       /\ buildCoAffinityFromOrders orders categories
          = Returns (Pipeline.mk co (LiftMatrix.mk cats lift) nl nc
                       (CoAffinityMatrix.mk cats coaff)
                       (MatrixStats.mk l5 l95 c5 c95
                          (CoOrderMatrix.totalOrders co)
                          (plain_object (CoOrderMatrix.orderCounts co)))).
Proof.
  intros co cats n. unfold buildCoAffinityFromOrders. fold co.
  destruct (calculateCoOrderMatrix_hollow orders categories) as [Hcat Hco].
  fold co cats n in Hcat, Hco.
  assert (Hn : length (CoOrderMatrix.category co) = n)
    by (rewrite Hcat; apply length_map).
  destruct (calculateLiftMatrix_hollow co) as (lift & El & Hlift).
  { rewrite Hn. apply Hco. }
  rewrite Hn in Hlift. rewrite Hcat in El. rewrite El, bind_Returns.
  unfold getLiftBounds, getCoOrdersBounds, getP5P95Bounds.
  cbn [LiftMatrix.matrix].
  destruct (bounds_return (extractMatrixValues lift)) as (l5 & l95 & E1 & E2 & Hl).
  rewrite E1, bind_Returns, E2, !bind_Returns.
  destruct (bounds_return (extractMatrixValues (CoOrderMatrix.matrix co)))
    as (c5 & c95 & E3 & E4 & Hc).
  rewrite E3, bind_Returns, E4, !bind_Returns.
  unfold normalizeLiftMatrix, normalizeCoOrdersMatrix.
  cbn [fst snd LiftMatrix.matrix LiftMatrix.category].
  rewrite !normalizeMatrixP5P95_given, !bind_Returns.
  cbn [Normalized.normalizedMatrix Normalized.p5 Normalized.p95].
  rewrite Hcat.
  pose proof (normalized_hollow n lift l5 l95 Hlift) as (Hnl & _).
  pose proof (normalized_hollow n (CoOrderMatrix.matrix co) c5 c95 Hco) as (Hnc & _).
  set (nl := NormalizedMatrix.mk cats _ l5 l95).
  set (nc := NormalizedMatrix.mk cats _ c5 c95).
  destruct (calculateCoAffinityMatrix_returns nl nc) as (coaff & Ec & Hsq & Hcells).
  { simpl. unfold cats. rewrite length_map. exact Hnl. }
  { simpl. unfold cats. rewrite length_map. exact Hnc. }
  cbn [NormalizedMatrix.categories nl] in Ec, Hcells, Hsq.
  unfold cats in Hcells, Hsq. rewrite length_map in Hcells, Hsq.
  fold cats n in Hcells, Hsq.
  rewrite Ec, bind_Returns.
  exists lift, l5, l95, c5, c95, coaff.
  repeat (split; [first [assumption | reflexivity] |]). reflexivity.
Qed.

Lemma blend_unit_interval (lift coOrders : Matrix) (a b : nat) :
  (forall w, cell lift a b = Some w -> 0 <= w <= 1) ->
  (forall w, cell coOrders a b = Some w -> 0 <= w <= 1) ->
  0 <= blend lift coOrders a b <= 1.
Proof.
  intros Hl Hc. unfold blend. destruct (decide (a = b)); [lra |].
  assert (0 <= default 0 (cell lift a b) <= 1)
    by (destruct (cell lift a b) as [w |]; simpl; [apply Hl; reflexivity | lra]).
  assert (0 <= default 0 (cell coOrders a b) <= 1)
    by (destruct (cell coOrders a b) as [w |]; simpl; [apply Hc; reflexivity | lra]).
  lra.
Qed.

Lemma normalized_cells_unit_interval (m : Matrix) (p5 p95 : Q) (i j : nat) (w : Q) :
  cell (imap (fun i row =>
          imap (fun j value =>
            if decide (i = j) then 0 else normalizeP5P95 value p5 p95) row) m)
    i j = Some w ->
  0 <= w <= 1.
Proof.
  rewrite (cell_imap m
             (fun i j value =>
                if decide (i = j) then 0 else normalizeP5P95 value p5 p95)).
  destruct (cell m i j) as [v |]; [| discriminate]. simpl. intros [= <-].
  destruct (decide (i = j)); [lra | apply normalizeP5P95_unit_interval].
Qed.

(** X5: whatever the orders and categories, every cell of the two normalized
    matrices and of the CoAffinity matrix the pipeline builds lies in
    [0, 1]. *)
Theorem pipeline_unit_interval (orders : list Order.t)
    (categories : list Category.t) :
  exists p,
    buildCoAffinityFromOrders orders categories = Returns p
    /\ forall M,
         M ∈ [NormalizedMatrix.matrix (Pipeline.normalizedLift p);
              NormalizedMatrix.matrix (Pipeline.normalizedCoOrders p);
              CoAffinityMatrix.matrix (Pipeline.coAffinityMatrix p)] ->
         forall i j w, cell M i j = Some w -> 0 <= w <= 1.
Proof.
  destruct (pipeline_steps orders categories)
    as (lift & l5 & l95 & c5 & c95 & coaff & _ & _ & _ & _ & _ & _ & _ & _
        & Hsq & Hcells & E).
  eexists. split; [exact E |].
  cbn [Pipeline.normalizedLift Pipeline.normalizedCoOrders
       Pipeline.coAffinityMatrix NormalizedMatrix.matrix CoAffinityMatrix.matrix].
  intros M HM i j w Hw.
  apply elem_of_cons in HM as [-> | HM];
    [eapply normalized_cells_unit_interval, Hw |].
  apply elem_of_cons in HM as [-> | HM];
    [eapply normalized_cells_unit_interval, Hw |].
  apply list_elem_of_singleton in HM as ->.
  destruct (cell_lt _ _ i j Hsq) as [Hi Hj]; [rewrite Hw; eauto |].
  rewrite (Hcells i j Hi Hj) in Hw. injection Hw as <-.
  apply blend_unit_interval; intros v Hv;
    eapply normalized_cells_unit_interval, Hv.
Qed.

Lemma pipeline_unit_interval_witness :
  exists p w,
    buildCoAffinityFromOrders shop_orders shop_categories = Returns p
    /\ cell (CoAffinityMatrix.matrix (Pipeline.coAffinityMatrix p)) 0 1 = Some w
    /\ 0 <= w <= 1.
Proof.
  destruct (pipeline_unit_interval shop_orders shop_categories) as (p & E & H).
  assert (Hw : exists w,
            cell (CoAffinityMatrix.matrix (Pipeline.coAffinityMatrix p)) 0 1
            = Some w).
  { pose proof E as E'. vm_compute in E'. injection E' as <-.
    eexists. vm_compute. reflexivity. }
  destruct Hw as [w Hw]. exists p, w. split; [exact E |]. split; [exact Hw |].
  eapply H; [do 2 right; left | exact Hw].
Defined.

(** ** What calculateCoOrderMatrix counts *)

Lemma set_indices_notin (ids : list string) (k : nat) (map : gmap string nat)
    (cat : string) :
  cat ∉ ids -> set_indices ids k map !! cat = map !! cat.
Proof.
  revert k map. induction ids as [| id rest IH]; intros k map Hnot; [reflexivity |].
  apply not_elem_of_cons in Hnot as [Hne Hnot]. simpl.
  rewrite IH by exact Hnot. apply lookup_insert_ne. auto.
Qed.

(** The map sends a category to its last position in the list. *)
Lemma set_indices_last (ids : list string) (k : nat) (map : gmap string nat)
    (cat : string) (i : nat) :
  ids !! i = Some cat -> cat ∉ drop (S i) ids ->
  set_indices ids k map !! cat = Some (k + i)%nat.
Proof.
  revert k map i. induction ids as [| id rest IH]; intros k map i Hi Hlast;
    [discriminate |].
  destruct i as [| i]; simpl in *.
  - injection Hi as ->. rewrite drop_0 in Hlast.
    rewrite set_indices_notin by exact Hlast.
    rewrite lookup_insert_eq. f_equal. lia.
  - rewrite (IH (S k) _ i Hi Hlast). f_equal. lia.
Qed.

Lemma NoDup_last_occurrence (ids : list string) (i : nat) (cat : string) :
  NoDup ids -> ids !! i = Some cat -> cat ∉ drop (S i) ids.
Proof.
  intros Hnd Hi Hin. apply list_elem_of_lookup in Hin as [j Hj].
  rewrite lookup_drop in Hj.
  pose proof (NoDup_lookup _ _ _ _ Hnd Hi Hj). lia.
Qed.

Lemma buildCategoryIndexMap_NoDup (ids : list string) (i : nat) (cat : string) :
  NoDup ids -> ids !! i = Some cat -> buildCategoryIndexMap ids !! cat = Some i.
Proof.
  intros Hnd Hi. unfold buildCategoryIndexMap.
  rewrite (set_indices_last ids 0 ∅ cat i Hi (NoDup_last_occurrence _ _ _ Hnd Hi)).
  reflexivity.
Qed.

Lemma Set_of_elem_of (xs : list string) (x : string) : x ∈ Set_of xs <-> x ∈ xs.
Proof.
  unfold Set_of.
  assert (H : forall seen : list string,
    x ∈ fold_left
          (fun seen y => if decide (y ∈ seen) then seen else seen ++ [y]) xs seen
    <-> x ∈ seen \/ x ∈ xs).
  { induction xs as [| y xs IH]; intros seen; simpl.
    - rewrite elem_of_nil. tauto.
    - rewrite IH, elem_of_cons. destruct (decide (y ∈ seen)) as [Hin | Hnot].
      + split; [tauto |]. intros [H | [-> | H]]; auto.
      + rewrite elem_of_app, list_elem_of_singleton. tauto. }
  rewrite H, elem_of_nil. tauto.
Qed.

Lemma elem_of_orderCategories_of (order : Order.t) (c : string) :
  c ∈ orderCategories_of order <-> c ∈ categories_in order.
Proof. apply Set_of_elem_of. Qed.

Lemma count_succ (k : nat) : count k + 1 = count (S k).
Proof.
  unfold count, Qplus, inject_Z. simpl Qnum. simpl Qden.
  f_equal. lia.
Qed.

Lemma fold_orders_split (idx : gmap string nat) (orders : list Order.t)
    (m : Matrix) (oc : gmap string Q) :
  fold_left (fun '(matrix, orderCounts) order =>
      let orderCategories := orderCategories_of order in
      (count_pairs idx orderCategories matrix,
       count_categories orderCategories orderCounts)) orders (m, oc)
  = (fold_left (fun matrix order =>
                  count_pairs idx (orderCategories_of order) matrix) orders m,
     fold_left (fun orderCounts order =>
                  count_categories (orderCategories_of order) orderCounts)
       orders oc).
Proof.
  revert m oc. induction orders as [| o orders IH]; intros m oc; [reflexivity |].
  simpl. apply IH.
Qed.

(** *** Orders per category *)

Lemma count_categories_lookup (cats : list string) (oc : gmap string Q)
    (c : string) :
  NoDup cats ->
  count_categories cats oc !! c
  = if decide (c ∈ cats) then (fun v => v + 1) <$> oc !! c else oc !! c.
Proof.
  unfold count_categories. revert oc.
  induction cats as [| x cats IH]; intros oc Hnd; simpl.
  - reflexivity.
  - apply NoDup_cons in Hnd as [Hx Hnd]. rewrite IH by exact Hnd.
    assert (Hstep : match oc !! x with
                    | Some count => <[x := count + 1]> oc
                    | None => oc
                    end !! c
                    = if decide (c = x) then (fun v => v + 1) <$> oc !! c
                      else oc !! c).
    { destruct (decide (c = x)) as [-> | Hne].
      - destruct (oc !! x) as [v |] eqn:E.
        + rewrite lookup_insert_eq. reflexivity.
        + rewrite E. reflexivity.
      - destruct (oc !! x); [rewrite lookup_insert_ne by auto |]; reflexivity. }
    rewrite Hstep.
    destruct (decide (c = x)) as [-> | Hne].
    + rewrite decide_False by exact Hx.
      rewrite decide_True by left. reflexivity.
    + destruct (decide (c ∈ cats)) as [Hin | Hnot].
      * rewrite decide_True by (right; exact Hin). reflexivity.
      * rewrite decide_False; [reflexivity |].
        intros H. apply elem_of_cons in H as [? | ?]; contradiction.
Qed.

Lemma orderCounts_fold (orders : list Order.t) (oc : gmap string Q)
    (c : string) (k : nat) :
  oc !! c = Some (count k) ->
  fold_left (fun orderCounts order =>
               count_categories (orderCategories_of order) orderCounts)
    orders oc !! c
  = Some (count (k + orders_with c orders)).
Proof.
  revert oc k. induction orders as [| o orders IH]; intros oc k Hoc; simpl.
  - unfold orders_with. simpl. rewrite Nat.add_0_r. exact Hoc.
  - unfold orders_with. rewrite filter_cons.
    fold (orders_with c orders).
    destruct (decide (c ∈ categories_in o)) as [Hin | Hnot].
    + rewrite (IH _ (S k)).
      * simpl length. f_equal. f_equal. unfold orders_with. lia.
      * rewrite count_categories_lookup by apply Set_of_NoDup.
        rewrite decide_True by (apply elem_of_orderCategories_of; exact Hin).
        rewrite Hoc. simpl. f_equal. apply count_succ.
    + rewrite (IH _ k); [reflexivity |].
      rewrite count_categories_lookup by apply Set_of_NoDup.
      rewrite decide_False by (rewrite elem_of_orderCategories_of; exact Hnot).
      exact Hoc.
Qed.

Lemma orderCounts_fold_None (orders : list Order.t) (oc : gmap string Q)
    (c : string) :
  oc !! c = None ->
  fold_left (fun orderCounts order =>
               count_categories (orderCategories_of order) orderCounts)
    orders oc !! c = None.
Proof.
  revert oc. induction orders as [| o orders IH]; intros oc Hoc; simpl;
    [exact Hoc |].
  apply IH. rewrite count_categories_lookup by apply Set_of_NoDup.
  rewrite Hoc. destruct (decide _); reflexivity.
Qed.

Lemma orderCounts_init (ids : list string) (oc : gmap string Q) (c : string) :
  fold_left (fun oc cat => <[cat := 0]> oc) ids oc !! c
  = if decide (c ∈ ids) then Some 0 else oc !! c.
Proof.
  revert oc. induction ids as [| id ids IH]; intros oc; simpl.
  - reflexivity.
  - rewrite IH. destruct (decide (c ∈ ids)) as [Hin | Hnot].
    + rewrite decide_True by (right; exact Hin). reflexivity.
    + destruct (decide (c = id)) as [-> | Hne].
      * rewrite lookup_insert_eq, decide_True by left. reflexivity.
      * rewrite lookup_insert_ne by auto. rewrite decide_False; [reflexivity |].
        intros H. apply elem_of_cons in H as [? | ?]; contradiction.
Qed.

Lemma calculateCoOrderMatrix_orderCounts (orders : list Order.t)
    (categories : list Category.t) (c : string) :
  CoOrderMatrix.orderCounts (calculateCoOrderMatrix orders categories) !! c
  = if decide (c ∈ map Category.id categories)
    then Some (count (orders_with c orders)) else None.
Proof.
  unfold calculateCoOrderMatrix. rewrite fold_orders_split.
  cbn [CoOrderMatrix.orderCounts].
  destruct (decide (c ∈ map Category.id categories)) as [Hin | Hnot].
  - rewrite (orderCounts_fold orders _ c 0); [reflexivity |].
    rewrite orderCounts_init, decide_True by exact Hin. reflexivity.
  - apply orderCounts_fold_None.
    rewrite orderCounts_init, decide_False by exact Hnot. apply lookup_empty.
Qed.

(** *** Orders per pair of categories *)

#[local] Set Warnings "-clear-no-such-hyp".

Section PairCounts.
Variable ids : list string.
Hypothesis ids_NoDup : NoDup ids.
Variables (a b : nat) (ca cb : string).
Hypothesis a_ne_b : a <> b.
Hypothesis ids_a : ids !! a = Some ca.
Hypothesis ids_b : ids !! b = Some cb.

Let idx : gmap string nat := buildCategoryIndexMap ids.

Lemma ca_ne_cb : ca <> cb.
Proof.
  intros E. apply a_ne_b. rewrite E in ids_a.
  apply (NoDup_lookup _ _ _ _ ids_NoDup ids_a ids_b).
Qed.

Lemma idx_at (c : string) (i : nat) :
  idx !! c = Some i -> (i = a <-> c = ca) /\ (i = b <-> c = cb).
Proof.
  intros H. apply buildCategoryIndexMap_lookup in H. split; split.
  - intros ->. congruence.
  - intros ->. apply (NoDup_lookup _ _ _ _ ids_NoDup H ids_a).
  - intros ->. congruence.
  - intros ->. apply (NoDup_lookup _ _ _ _ ids_NoDup H ids_b).
Qed.

Lemma idx_None (c : string) : idx !! c = None -> c <> ca /\ c <> cb.
Proof.
  intros H. split; intros ->.
  - unfold idx in H. rewrite (buildCategoryIndexMap_NoDup _ _ _ ids_NoDup ids_a) in H.
    discriminate.
  - unfold idx in H. rewrite (buildCategoryIndexMap_NoDup _ _ _ ids_NoDup ids_b) in H.
    discriminate.
Qed.

(** One pair [(x, y)] of one order adds 1 to the cell [(a, b)] exactly when
    it is the pair of the categories at [a] and [b]. *)
Lemma pair_step_cell (x y : string) (m : Matrix) :
  x <> y ->
  cell match idx !! x, idx !! y with
       | Some idx1, Some idx2 => increment idx2 idx1 (increment idx1 idx2 m)
       | _, _ => m
       end a b
  = if decide ((ca = x /\ cb = y) \/ (ca = y /\ cb = x))
    then (fun v => v + 1) <$> cell m a b else cell m a b.
Proof.
  intros Hxy. pose proof ca_ne_cb as Hab.
  destruct (idx !! x) as [i1 |] eqn:E1.
  - destruct (idx_at _ _ E1) as [H1a H1b].
    destruct (idx !! y) as [i2 |] eqn:E2.
    + destruct (idx_at _ _ E2) as [H2a H2b].
      rewrite !cell_increment; [| exact 0%nat | exact 0%nat].
      repeat case_decide; (reflexivity || (exfalso; naive_solver)).
    + destruct (idx_None _ E2). rewrite decide_False; [reflexivity |].
      naive_solver.
  - destruct (idx_None _ E1). rewrite decide_False; [reflexivity |].
    naive_solver.
Qed.

Lemma inner_cell (x : string) (later : list string) (m : Matrix) :
  x ∉ later -> NoDup later ->
  cell (fold_left (fun matrix cat_j =>
          match idx !! x, idx !! cat_j with
          | Some idx1, Some idx2 =>
              increment idx2 idx1 (increment idx1 idx2 matrix)
          | _, _ => matrix
          end) later m) a b
  = if decide ((ca = x /\ cb ∈ later) \/ (cb = x /\ ca ∈ later))
    then (fun v => v + 1) <$> cell m a b else cell m a b.
Proof.
  pose proof ca_ne_cb as Hab.
  revert m. induction later as [| y later IH]; intros m Hx Hnd; simpl.
  - rewrite decide_False; [reflexivity |].
    intros [[_ H] | [_ H]]; apply elem_of_nil in H; exact H.
  - apply not_elem_of_cons in Hx as [Hxy Hx].
    apply NoDup_cons in Hnd as [Hy Hnd].
    rewrite (IH _ Hx Hnd), (pair_step_cell x y m Hxy).
    repeat case_decide; try reflexivity; exfalso;
      repeat match goal with
             | H : context [_ ∈ _ :: _] |- _ => rewrite elem_of_cons in H
             end; naive_solver.
Qed.

Lemma count_pairs_cell (cats : list string) (m : Matrix) :
  NoDup cats ->
  cell (count_pairs idx cats m) a b
  = if decide (ca ∈ cats /\ cb ∈ cats)
    then (fun v => v + 1) <$> cell m a b else cell m a b.
Proof.
  pose proof ca_ne_cb as Hab.
  revert m. induction cats as [| x later IH]; intros m Hnd; simpl.
  - reflexivity.
  - apply NoDup_cons in Hnd as [Hx Hnd].
    rewrite (IH _ Hnd), (inner_cell x later m Hx Hnd).
    repeat case_decide; try reflexivity; exfalso;
      repeat match goal with
             | H : context [_ ∈ _ :: _] |- _ => rewrite elem_of_cons in H
             end; naive_solver.
Qed.

Lemma cells_fold (orders : list Order.t) (m : Matrix) (k : nat) :
  cell m a b = Some (count k) ->
  cell (fold_left (fun matrix order =>
                     count_pairs idx (orderCategories_of order) matrix)
          orders m) a b
  = Some (count (k + orders_with_both ca cb orders)).
Proof.
  revert m k. induction orders as [| o orders IH]; intros m k Hm; simpl.
  - unfold orders_with_both. simpl. rewrite Nat.add_0_r. exact Hm.
  - unfold orders_with_both. rewrite filter_cons.
    fold (orders_with_both ca cb orders).
    destruct (decide (ca ∈ categories_in o /\ cb ∈ categories_in o))
      as [Hin | Hnot].
    + rewrite (IH _ (S k)).
      * simpl length. f_equal. f_equal. unfold orders_with_both. lia.
      * rewrite count_pairs_cell by apply Set_of_NoDup.
        rewrite decide_True
          by (rewrite !elem_of_orderCategories_of; exact Hin).
        rewrite Hm. simpl. f_equal. apply count_succ.
    + rewrite (IH _ k); [reflexivity |].
      rewrite count_pairs_cell by apply Set_of_NoDup.
      rewrite decide_False
        by (rewrite !elem_of_orderCategories_of; exact Hnot).
      exact Hm.
Qed.
End PairCounts.

Lemma calculateCoOrderMatrix_cell (orders : list Order.t)
    (categories : list Category.t) (i j : nat) (ci cj : string) :
  NoDup (map Category.id categories) ->
  map Category.id categories !! i = Some ci ->
  map Category.id categories !! j = Some cj ->
  i <> j ->
  cell (CoOrderMatrix.matrix (calculateCoOrderMatrix orders categories)) i j
  = Some (count (orders_with_both ci cj orders)).
Proof.
  intros Hnd Hi Hj Hne. unfold calculateCoOrderMatrix. rewrite fold_orders_split.
  cbn [CoOrderMatrix.matrix].
  rewrite (cells_fold _ Hnd i j ci cj Hne Hi Hj orders _ 0); [reflexivity |].
  apply cell_zeros; eapply lookup_lt_Some; eassumption.
Qed.

Lemma orders_with_both_le (c1 c2 : string) (orders : list Order.t) :
  (orders_with_both c1 c2 orders <= orders_with c1 orders)%nat
  /\ (orders_with_both c1 c2 orders <= orders_with c2 orders)%nat
  /\ (orders_with c1 orders <= length orders)%nat.
Proof.
  unfold orders_with_both, orders_with.
  induction orders as [| o orders IH]; [simpl; lia |].
  rewrite !filter_cons. destruct IH as (IH1 & IH2 & IH3).
  repeat case_decide; simpl; (lia || tauto).
Qed.

Lemma orders_with_both_comm (c1 c2 : string) (orders : list Order.t) :
  orders_with_both c1 c2 orders = orders_with_both c2 c1 orders.
Proof.
  unfold orders_with_both. f_equal. apply list_filter_iff. intros o. tauto.
Qed.

Lemma count_le (k l : nat) : (k <= l)%nat -> count k <= count l.
Proof. intros H. unfold count. rewrite <- Zle_Qle. lia. Qed.

(** X7: with distinct category ids, the cell of two different categories is
    the number of orders that have an item of each (however many items), and
    it is at most the order count of either category, which is at most the
    total number of orders. *)
Theorem calculateCoOrderMatrix_counts_pairs (orders : list Order.t)
    (categories : list Category.t) (i j : nat) (ci cj : string) :
  NoDup (map Category.id categories) ->
  map Category.id categories !! i = Some ci ->
  map Category.id categories !! j = Some cj ->
  i <> j ->
  let co := calculateCoOrderMatrix orders categories in
  cell (CoOrderMatrix.matrix co) i j = Some (count (orders_with_both ci cj orders))
  /\ exists ni nj,
       CoOrderMatrix.orderCounts co !! ci = Some ni
       /\ CoOrderMatrix.orderCounts co !! cj = Some nj
       /\ count (orders_with_both ci cj orders) <= ni
       /\ count (orders_with_both ci cj orders) <= nj
       /\ ni <= CoOrderMatrix.totalOrders co
       /\ nj <= CoOrderMatrix.totalOrders co.
Proof.
  intros Hnd Hi Hj Hne co.
  split; [apply calculateCoOrderMatrix_cell; assumption |].
  exists (count (orders_with ci orders)), (count (orders_with cj orders)).
  unfold co. rewrite !calculateCoOrderMatrix_orderCounts.
  rewrite !decide_True by (eapply list_elem_of_lookup_2; eassumption).
  rewrite calculateCoOrderMatrix_totalOrders.
  destruct (orders_with_both_le ci cj orders) as (H1 & H2 & H3).
  destruct (orders_with_both_le cj ci orders) as (_ & _ & H4).
  repeat split; try apply count_le; assumption.
Qed.

Lemma calculateCoOrderMatrix_counts_pairs_witness :
  cell (CoOrderMatrix.matrix (calculateCoOrderMatrix basket_orders basket_categories))
    0 1 = Some 2.
Proof.
  apply (calculateCoOrderMatrix_counts_pairs basket_orders basket_categories
           0 1 "skincare" "beauty").
  - vm_compute. repeat constructor; set_solver.
  - reflexivity.
  - reflexivity.
  - lia.
Defined.

(** X8: the per-category order counts have exactly the listed category ids
    as keys (ids that only occur in orders are ignored), each with the number
    of orders that contain the category, an order with several items of it
    counting once; [totalOrders] is the number of orders. *)
Theorem calculateCoOrderMatrix_counts_orders (orders : list Order.t)
    (categories : list Category.t) (c : string) :
  let co := calculateCoOrderMatrix orders categories in
  CoOrderMatrix.orderCounts co !! c
  = (if decide (c ∈ map Category.id categories)
     then Some (count (orders_with c orders)) else None)
  /\ CoOrderMatrix.totalOrders co = count (length orders)
  /\ count (orders_with c orders) <= CoOrderMatrix.totalOrders co.
Proof.
  intros co. split; [apply calculateCoOrderMatrix_orderCounts |].
  unfold co. rewrite calculateCoOrderMatrix_totalOrders.
  split; [reflexivity |]. apply count_le, orders_with_both_le. exact c.
Qed.

(** ** The statistics of the pipeline *)

(** X6: the statistics the pipeline returns are tied to its data.  The four
    bounds are the 5th and 95th percentiles of the strictly positive
    upper-triangle values of the lift and of the co-order matrix; they are
    ordered, they are the bounds stored in the two normalized matrices, and
    normalizing without bounds gives the same two matrices.  Both inputs of
    [calculateCoAffinityMatrix] carry the category ids in list order.
    [totalOrders] is the number of orders, and [categoryOrderCounts] has, for
    each listed category id other than "__proto__", the number of orders
    that contain it, and no other key. *)
Theorem pipeline_bookkeeping (orders : list Order.t)
    (categories : list Category.t) :
  exists p,
    buildCoAffinityFromOrders orders categories = Returns p
    /\ (let ids := map Category.id categories in
        NormalizedMatrix.categories (Pipeline.normalizedLift p) = ids
        /\ NormalizedMatrix.categories (Pipeline.normalizedCoOrders p) = ids)
    /\ (let stats := Pipeline.stats p in
        let lift := LiftMatrix.matrix (Pipeline.liftMatrix p) in
        let coOrders := CoOrderMatrix.matrix (Pipeline.coOrdersMatrix p) in
        calculatePercentile (extractMatrixValues lift) 5
        = Returns (MatrixStats.liftP5 stats)
        /\ calculatePercentile (extractMatrixValues lift) 95
           = Returns (MatrixStats.liftP95 stats)
        /\ calculatePercentile (extractMatrixValues coOrders) 5
           = Returns (MatrixStats.coOrdersP5 stats)
        /\ calculatePercentile (extractMatrixValues coOrders) 95
           = Returns (MatrixStats.coOrdersP95 stats)
        /\ MatrixStats.liftP5 stats <= MatrixStats.liftP95 stats
        /\ MatrixStats.coOrdersP5 stats <= MatrixStats.coOrdersP95 stats
        /\ NormalizedMatrix.p5 (Pipeline.normalizedLift p)
           = MatrixStats.liftP5 stats
        /\ NormalizedMatrix.p95 (Pipeline.normalizedLift p)
           = MatrixStats.liftP95 stats
        /\ NormalizedMatrix.p5 (Pipeline.normalizedCoOrders p)
           = MatrixStats.coOrdersP5 stats
        /\ NormalizedMatrix.p95 (Pipeline.normalizedCoOrders p)
           = MatrixStats.coOrdersP95 stats
        /\ normalizeLiftMatrix (Pipeline.liftMatrix p) None None
           = Returns (Pipeline.normalizedLift p)
        /\ normalizeCoOrdersMatrix (Pipeline.coOrdersMatrix p) None None
           = Returns (Pipeline.normalizedCoOrders p)
        /\ MatrixStats.totalOrders stats = count (length orders)
        /\ forall c,
             MatrixStats.categoryOrderCounts stats !! c
             = if decide (c ∈ map Category.id categories /\ c <> "__proto__")
               then Some (count (orders_with c orders)) else None).
Proof.
  destruct (pipeline_steps orders categories)
    as (lift & l5 & l95 & c5 & c95 & coaff & _ & _ & E5 & E95 & Hl & F5 & F95
        & Hc & _ & _ & E).
  eexists. split; [exact E |]. simpl.
  split; [split; reflexivity |].
  split; [exact E5 |]. split; [exact E95 |]. split; [exact F5 |].
  split; [exact F95 |]. split; [exact Hl |]. split; [exact Hc |].
  split; [reflexivity |]. split; [reflexivity |]. split; [reflexivity |].
  split; [reflexivity |]. split.
  { unfold normalizeLiftMatrix. cbn [LiftMatrix.matrix LiftMatrix.category].
    rewrite (normalizeMatrixP5P95_computed lift l5 l95 E5 E95).
    rewrite normalizeMatrixP5P95_given. reflexivity. }
  split.
  { unfold normalizeCoOrdersMatrix.
    rewrite (normalizeMatrixP5P95_computed _ c5 c95 F5 F95).
    rewrite normalizeMatrixP5P95_given, bind_Returns.
    cbn [Normalized.normalizedMatrix Normalized.p5 Normalized.p95].
    rewrite (proj1 (calculateCoOrderMatrix_hollow orders categories)).
    reflexivity. }
  split; [apply calculateCoOrderMatrix_totalOrders |].
  intros c. unfold plain_object.
  destruct (decide (c = "__proto__")) as [-> | Hne].
  - rewrite lookup_delete_eq. rewrite decide_False; [reflexivity | tauto].
  - rewrite lookup_delete_ne by congruence.
    rewrite calculateCoOrderMatrix_orderCounts.
    destruct (decide (c ∈ map Category.id categories)) as [Hin | Hnot].
    + rewrite decide_True by auto. reflexivity.
    + rewrite decide_False; [reflexivity | tauto].
Qed.

(** ** More on calculateLiftMatrix *)

Lemma count_eq_0 (k : nat) : count k == 0 <-> k = 0%nat.
Proof.
  unfold count. split.
  - intros H. unfold Qeq in H. simpl in H. lia.
  - intros ->. reflexivity.
Qed.

Lemma orders_of_counts (orders : list Order.t) (categories : list Category.t)
    (i : nat) (c : string) :
  map Category.id categories !! i = Some c ->
  orders_of (calculateCoOrderMatrix orders categories) i
  = count (orders_with c orders).
Proof.
  intros Hi. unfold orders_of.
  rewrite (proj1 (calculateCoOrderMatrix_hollow orders categories)), Hi. simpl.
  rewrite calculateCoOrderMatrix_orderCounts.
  rewrite decide_True by (eapply list_elem_of_lookup_2, Hi). reflexivity.
Qed.

(** X9: from orders to lift.  With distinct category ids, the lift of two
    different categories is 0 when one of them is in no order, and otherwise
    (orders with both) * (all orders) / ((orders with one) * (orders with the
    other)); it is never negative. *)
Theorem lift_from_orders (orders : list Order.t) (categories : list Category.t) :
  NoDup (map Category.id categories) ->
  exists liftMatrix,
    calculateLiftMatrix (calculateCoOrderMatrix orders categories)
    = Returns liftMatrix
    /\ forall i j ci cj,
         map Category.id categories !! i = Some ci ->
         map Category.id categories !! j = Some cj ->
         i <> j ->
         exists lift,
           cell (LiftMatrix.matrix liftMatrix) i j = Some lift
           /\ 0 <= lift
           /\ lift ==
              (if decide (orders_with ci orders = 0 \/ orders_with cj orders = 0)%nat
               then 0
               else (count (orders_with_both ci cj orders) * count (length orders))
                    / (count (orders_with ci orders) * count (orders_with cj orders))).
Proof.
  intros Hnd.
  pose proof (calculateCoOrderMatrix_hollow orders categories) as [Hcat (Hsq & _)].
  set (co := calculateCoOrderMatrix orders categories) in *.
  assert (Hn : length (CoOrderMatrix.category co) = length categories)
    by (rewrite Hcat; apply length_map).
  destruct (calculateLiftMatrix_returns co) as (matrix & E & _ & Hcells);
    [rewrite Hn; exact Hsq |].
  eexists. split; [exact E |]. cbn [LiftMatrix.matrix].
  assert (Hord : forall i j ci cj,
    map Category.id categories !! i = Some ci ->
    map Category.id categories !! j = Some cj ->
    (i < j)%nat ->
    lift_value co i j = lift_value co j i
    /\ lift_value co i j
       = if Qeq_bool (count (orders_with ci orders)) 0
            || Qeq_bool (count (orders_with cj orders)) 0
         then 0
         else (count (orders_with_both ci cj orders) * count (length orders))
              / (count (orders_with ci orders) * count (orders_with cj orders))).
  { intros i j ci cj Hi Hj Hlt. split; [apply lift_value_sym |].
    unfold lift_value. rewrite decide_False by lia.
    rewrite Nat.min_l, Nat.max_r by lia. unfold co.
    rewrite (orders_of_counts _ _ _ _ Hi), (orders_of_counts _ _ _ _ Hj).
    rewrite (calculateCoOrderMatrix_cell _ _ _ _ _ _ Hnd Hi Hj) by lia.
    rewrite calculateCoOrderMatrix_totalOrders. reflexivity. }
  assert (Hval : forall ci cj,
    let v := if Qeq_bool (count (orders_with ci orders)) 0
                || Qeq_bool (count (orders_with cj orders)) 0
             then 0
             else (count (orders_with_both ci cj orders) * count (length orders))
                  / (count (orders_with ci orders) * count (orders_with cj orders)) in
    0 <= v
    /\ v == (if decide (orders_with ci orders = 0 \/ orders_with cj orders = 0)%nat
             then 0
             else (count (orders_with_both ci cj orders) * count (length orders))
                  / (count (orders_with ci orders) * count (orders_with cj orders)))).
  { intros ci cj. simpl.
    assert (Hpos : forall k, 0 <= count k)
      by (intros k; unfold count; change 0 with (inject_Z 0);
          rewrite <- Zle_Qle; lia).
    destruct (decide (orders_with ci orders = 0 \/ orders_with cj orders = 0)%nat)
      as [Hz | Hnz].
    - assert (Qeq_bool (count (orders_with ci orders)) 0
              || Qeq_bool (count (orders_with cj orders)) 0 = true) as ->.
      { apply orb_true_iff.
        destruct Hz as [Hz | Hz]; [left | right];
          apply Qeq_bool_true, count_eq_0, Hz. }
      split; [lra | reflexivity].
    - assert (Hi0 : ~ count (orders_with ci orders) == 0)
        by (rewrite count_eq_0; tauto).
      assert (Hj0 : ~ count (orders_with cj orders) == 0)
        by (rewrite count_eq_0; tauto).
      rewrite (Qeq_bool_false _ _ Hi0), (Qeq_bool_false _ _ Hj0). simpl.
      split; [| reflexivity].
      pose proof (Hpos (orders_with ci orders)).
      pose proof (Hpos (orders_with cj orders)).
      apply Qle_shift_div_l.
      + apply Qmult_lt_0_compat; lra.
      + rewrite Qmult_0_l. apply Qmult_le_0_compat; apply Hpos. }
  intros i j ci cj Hi Hj Hne.
  pose proof (lookup_lt_Some _ _ _ Hi) as Hi'. rewrite length_map in Hi'.
  pose proof (lookup_lt_Some _ _ _ Hj) as Hj'. rewrite length_map in Hj'.
  rewrite Hn in Hcells. rewrite (Hcells i j Hi' Hj').
  eexists. split; [reflexivity |].
  destruct (decide (i < j)%nat) as [Hlt | Hge].
  - rewrite (proj2 (Hord i j ci cj Hi Hj Hlt)). apply Hval.
  - destruct (Hord j i cj ci Hj Hi ltac:(lia)) as [Hs Hv].
    rewrite <- Hs, Hv. destruct (Hval cj ci) as [H0 Hq]. split; [exact H0 |].
    rewrite Hq, (orders_with_both_comm cj ci).
    destruct (decide (orders_with cj orders = 0 \/ orders_with ci orders = 0)%nat)
      as [Hz | Hnz].
    + rewrite decide_True by tauto. reflexivity.
    + rewrite decide_False by tauto.
      rewrite (Qmult_comm (count (orders_with cj orders))). reflexivity.
Qed.

Lemma lift_from_orders_witness :
  exists liftMatrix lift,
    calculateLiftMatrix (calculateCoOrderMatrix basket_orders basket_categories)
    = Returns liftMatrix
    /\ cell (LiftMatrix.matrix liftMatrix) 0 1 = Some lift
    /\ lift == (2 * 4) / (2 * 3).
Proof.
  destruct (lift_from_orders basket_orders basket_categories) as (lm & E & H).
  - vm_compute. repeat constructor; set_solver.
  - destruct (H 0%nat 1%nat "skincare" "beauty") as (lift & Hc & _ & Hv);
      [reflexivity | reflexivity | lia |].
    exists lm, lift. split; [exact E |]. split; [exact Hc |].
    rewrite Hv. vm_compute. reflexivity.
Defined.

(** *** When the matrix is smaller than the category list *)


Lemma range_nil (lo hi : nat) : (hi <= lo)%nat -> range lo hi = [].
Proof. intros H. unfold range. replace (hi - lo)%nat with 0%nat by lia. reflexivity. Qed.






(** ** Looking categories up: by index map and by position *)

Lemma indexOf_None (xs : list string) (x : string) :
  indexOf xs x = None <-> x ∉ xs.
Proof.
  induction xs as [| y xs IH]; simpl.
  - split; [intros _; apply not_elem_of_nil | reflexivity].
  - rewrite not_elem_of_cons. destruct (decide (y = x)) as [-> | Hne].
    + split; [discriminate | tauto].
    + destruct (indexOf xs x); simpl.
      * split; [discriminate |]. intros [_ H]. apply IH in H. discriminate.
      * split; [| reflexivity]. intros _. split; [auto | apply IH; reflexivity].
Qed.

(** [indexOf] finds the first position. *)
Lemma indexOf_Some (xs : list string) (x : string) (i : nat) :
  indexOf xs x = Some i <-> xs !! i = Some x /\ x ∉ take i xs.
Proof.
  revert i. induction xs as [| y xs IH]; intros i; simpl.
  - split; [discriminate | intros [H _]; discriminate].
  - destruct (decide (y = x)) as [-> | Hne].
    + split.
      * intros [= <-]. split; [reflexivity | apply not_elem_of_nil].
      * intros [Hi Hnot]. destruct i as [| i]; [reflexivity |].
        exfalso. apply Hnot. simpl. left.
    + destruct i as [| i].
      * split; [destruct (indexOf xs x); discriminate |].
        intros [[= ->] _]. contradiction.
      * specialize (IH i). simpl. rewrite not_elem_of_cons.
        destruct (indexOf xs x) as [k |]; simpl.
        -- split.
           ++ intros [= ->]. split; [apply IH; reflexivity |].
              split; [auto | apply IH; reflexivity].
           ++ intros [Hi [_ Hnot]]. f_equal.
              assert (Some k = Some i) as [= ->] by (apply IH; auto). reflexivity.
        -- split; [discriminate |]. intros [Hi [_ Hnot]].
           assert (None = Some i) by (apply IH; auto). discriminate.
Qed.

Lemma last_occurrence (ids : list string) (c : string) :
  c ∈ ids -> exists i, ids !! i = Some c /\ c ∉ drop (S i) ids.
Proof.
  induction ids as [| id ids IH]; intros Hin; [apply elem_of_nil in Hin; contradiction |].
  destruct (decide (c ∈ ids)) as [Hin' | Hnot].
  - destruct (IH Hin') as (i & Hi & Hlast). exists (S i). auto.
  - apply elem_of_cons in Hin as [-> | Hin]; [| contradiction].
    exists 0%nat. split; [reflexivity | simpl; rewrite ?drop_0; exact Hnot].
Qed.

Lemma indexOf_NoDup (xs : list string) (x : string) (i : nat) :
  NoDup xs -> xs !! i = Some x -> indexOf xs x = Some i.
Proof.
  intros Hnd Hi. apply indexOf_Some. split; [exact Hi |].
  intros Hin. apply list_elem_of_lookup in Hin as [k Hk].
  pose proof (lookup_lt_Some _ _ _ Hk) as Hlt. rewrite length_take in Hlt.
  rewrite lookup_take_lt in Hk by lia.
  pose proof (NoDup_lookup _ _ _ _ Hnd Hi Hk). lia.
Qed.

(** X12: [buildCategoryIndexMap] maps exactly the listed categories, each to
    its last position in the list; when the list has no duplicates that is
    its only position, which is also what [indexOf] finds. *)
Theorem buildCategoryIndexMap_spec (categories : list string) (cat : string) :
  (buildCategoryIndexMap categories !! cat = None <-> cat ∉ categories)
  /\ (forall i,
        buildCategoryIndexMap categories !! cat = Some i
        <-> categories !! i = Some cat /\ cat ∉ drop (S i) categories)
  /\ (NoDup categories ->
      (forall i,
         buildCategoryIndexMap categories !! cat = Some i
         <-> categories !! i = Some cat)
      /\ buildCategoryIndexMap categories !! cat = indexOf categories cat).
Proof.
  assert (Hlast : forall i,
    buildCategoryIndexMap categories !! cat = Some i
    <-> categories !! i = Some cat /\ cat ∉ drop (S i) categories).
  { intros i. split.
    - intros H. pose proof (buildCategoryIndexMap_lookup _ _ _ H) as Hi.
      split; [exact Hi |].
      destruct (last_occurrence categories cat) as (k & Hk & Hlast);
        [eapply list_elem_of_lookup_2, Hi |].
      pose proof (set_indices_last categories 0 ∅ cat k Hk Hlast) as Hk'.
      unfold buildCategoryIndexMap in H. rewrite H in Hk'.
      injection Hk' as ->. exact Hlast.
    - intros [Hi Hlast]. unfold buildCategoryIndexMap.
      rewrite (set_indices_last categories 0 ∅ cat i Hi Hlast). reflexivity. }
  assert (Hnone : buildCategoryIndexMap categories !! cat = None <-> cat ∉ categories).
  { split.
    - intros H Hin. destruct (last_occurrence categories cat Hin) as (k & Hk & Hl).
      rewrite (proj2 (Hlast k) (conj Hk Hl)) in H. discriminate.
    - intros Hnot. unfold buildCategoryIndexMap.
      rewrite set_indices_notin by exact Hnot. apply lookup_empty. }
  split; [exact Hnone |]. split; [exact Hlast |].
  intros Hnd.
  assert (Hiff : forall i,
    buildCategoryIndexMap categories !! cat = Some i <-> categories !! i = Some cat).
  { intros i. rewrite Hlast. split; [tauto |]. intros Hi.
    split; [exact Hi | apply NoDup_last_occurrence; assumption]. }
  split; [exact Hiff |].
  destruct (indexOf categories cat) as [i |] eqn:E.
  - apply Hiff. apply indexOf_Some in E. tauto.
  - apply Hnone, indexOf_None, E.
Qed.

Lemma buildCategoryIndexMap_spec_witness :
  buildCategoryIndexMap ["a"; "b"; "a"] !! "a" = Some 2%nat
  /\ buildCategoryIndexMap ["a"; "b"; "c"] !! "b" = Some 1%nat.
Proof.
  split.
  - destruct (buildCategoryIndexMap_spec ["a"; "b"; "a"] "a") as (_ & Hlast & _).
    apply Hlast. split; [reflexivity | apply not_elem_of_nil].
  - destruct (buildCategoryIndexMap_spec ["a"; "b"; "c"] "b") as (_ & _ & Hnd).
    destruct Hnd as [Hiff _]; [repeat constructor; set_solver |].
    apply Hiff. reflexivity.
Defined.

Lemma lookup_by_name_unknown (category : list string) (matrix : Matrix)
    (cat1 cat2 : string) :
  cat1 ∉ category \/ cat2 ∉ category ->
  lookup_by_name category matrix cat1 cat2 = Returns 0.
Proof.
  intros H. unfold lookup_by_name.
  destruct H as [H | H]; apply indexOf_None in H; rewrite H;
    [| destruct (indexOf category cat1)]; reflexivity.
Qed.

Lemma lookup_by_name_NoDup (category : list string) (matrix : Matrix)
    (cat1 cat2 : string) (i j : nat) :
  NoDup category ->
  category !! i = Some cat1 -> category !! j = Some cat2 ->
  lookup_by_name category matrix cat1 cat2 = read matrix i j.
Proof.
  intros Hnd Hi Hj. unfold lookup_by_name.
  rewrite (indexOf_NoDup _ _ _ Hnd Hi), (indexOf_NoDup _ _ _ Hnd Hj).
  reflexivity.
Qed.

(** X13: the two ways of reading the CoAffinity of two categories, through
    the index map ([getCoAffinity]) and by position ([getCoAffinityScore]),
    both give 0 for a category that is not listed, and agree whenever the
    category list has no duplicates; with a duplicated category they can
    differ, the map pointing at the last occurrence and [indexOf] at the
    first. *)
Theorem getCoAffinity_agrees_with_score (M : CoAffinityMatrix.t)
    (cat1 cat2 : string) :
  (cat1 ∉ CoAffinityMatrix.categories M \/ cat2 ∉ CoAffinityMatrix.categories M ->
   getCoAffinity M (createCategoryIndexMap M) cat1 cat2 = Returns 0
   /\ getCoAffinityScore M cat1 cat2 = Returns 0)
  /\ (NoDup (CoAffinityMatrix.categories M) ->
      getCoAffinity M (createCategoryIndexMap M) cat1 cat2
      = getCoAffinityScore M cat1 cat2)
  /\ (getCoAffinity doubled_matrix (createCategoryIndexMap doubled_matrix) "a" "b"
      = Returns 0.75
      /\ getCoAffinityScore doubled_matrix "a" "b" = Returns 0.25).
Proof.
  assert (Hunknown :
    cat1 ∉ CoAffinityMatrix.categories M \/ cat2 ∉ CoAffinityMatrix.categories M ->
    getCoAffinity M (createCategoryIndexMap M) cat1 cat2 = Returns 0).
  { intros H. unfold getCoAffinity, createCategoryIndexMap, buildCategoryIndexMap.
    destruct H as [H | H]; rewrite (set_indices_notin _ _ _ _ H), lookup_empty;
      [| destruct (set_indices _ _ _ !! cat1)]; reflexivity. }
  split; [| split; [| split; reflexivity]].
  - intros H. split; [apply Hunknown, H | apply lookup_by_name_unknown, H].
  - intros Hnd.
    destruct (decide (cat1 ∈ CoAffinityMatrix.categories M)) as [H1 | H1];
      [| rewrite Hunknown by auto; symmetry; apply lookup_by_name_unknown; auto].
    destruct (decide (cat2 ∈ CoAffinityMatrix.categories M)) as [H2 | H2];
      [| rewrite Hunknown by auto; symmetry; apply lookup_by_name_unknown; auto].
    apply list_elem_of_lookup in H1 as [i Hi], H2 as [j Hj].
    unfold getCoAffinityScore.
    rewrite (lookup_by_name_NoDup _ _ _ _ i j Hnd Hi Hj).
    unfold getCoAffinity, createCategoryIndexMap.
    rewrite (buildCategoryIndexMap_NoDup _ _ _ Hnd Hi),
      (buildCategoryIndexMap_NoDup _ _ _ Hnd Hj).
    reflexivity.
Qed.

Lemma getCoAffinity_agrees_with_score_witness :
  getCoAffinity shop_matrix (createCategoryIndexMap shop_matrix) "skincare" "beauty"
  = getCoAffinityScore shop_matrix "skincare" "beauty"
  /\ getCoAffinityScore shop_matrix "skincare" "garden" = Returns 0.
Proof.
  destruct (getCoAffinity_agrees_with_score shop_matrix "skincare" "beauty")
    as (_ & Hagree & _).
  destruct (getCoAffinity_agrees_with_score shop_matrix "skincare" "garden")
    as (Hunknown & _ & _).
  split.
  - apply Hagree. repeat constructor; set_solver.
  - apply Hunknown. right. set_solver.
Defined.

(** X14: reading back what was counted.  With distinct category ids,
    [getCoOrderCount] on the computed matrix gives the number of orders with
    both categories, in either order of the arguments; it gives 0 for a
    category paired with itself and for a category that is not listed. *)
Theorem getCoOrderCount_round_trip (orders : list Order.t)
    (categories : list Category.t) (cat1 cat2 : string) :
  let co := calculateCoOrderMatrix orders categories in
  let ids := map Category.id categories in
  (cat1 ∉ ids \/ cat2 ∉ ids -> getCoOrderCount co cat1 cat2 = Returns 0)
  /\ (NoDup ids -> cat1 ∈ ids -> getCoOrderCount co cat1 cat1 = Returns 0)
  /\ (NoDup ids -> cat1 ∈ ids -> cat2 ∈ ids -> cat1 <> cat2 ->
      getCoOrderCount co cat1 cat2
      = Returns (count (orders_with_both cat1 cat2 orders))
      /\ getCoOrderCount co cat2 cat1 = getCoOrderCount co cat1 cat2).
Proof.
  intros co ids.
  pose proof (calculateCoOrderMatrix_hollow orders categories) as [Hcat (Hsq & _ & Hdiag)].
  fold co ids in Hcat, Hsq, Hdiag.
  unfold getCoOrderCount. rewrite Hcat.
  split; [apply lookup_by_name_unknown |]. split.
  - intros Hnd H1. apply list_elem_of_lookup in H1 as [i Hi].
    rewrite (lookup_by_name_NoDup _ _ _ _ i i Hnd Hi Hi).
    apply read_cell, Hdiag.
    apply lookup_lt_Some in Hi. unfold ids in Hi. rewrite length_map in Hi. exact Hi.
  - intros Hnd H1 H2 Hne.
    apply list_elem_of_lookup in H1 as [i Hi], H2 as [j Hj].
    assert (Hij : i <> j) by (intros ->; congruence).
    rewrite (lookup_by_name_NoDup _ _ _ _ i j Hnd Hi Hj).
    rewrite (lookup_by_name_NoDup _ _ _ _ j i Hnd Hj Hi).
    unfold co.
    rewrite (read_cell _ _ _ _
               (calculateCoOrderMatrix_cell orders categories i j _ _ Hnd Hi Hj Hij)).
    rewrite (read_cell _ _ _ _
               (calculateCoOrderMatrix_cell orders categories j i _ _ Hnd Hj Hi
                  (not_eq_sym Hij))).
    split; [reflexivity |]. rewrite orders_with_both_comm. reflexivity.
Qed.

Lemma getCoOrderCount_round_trip_witness :
  getCoOrderCount (calculateCoOrderMatrix basket_orders basket_categories)
    "beauty" "skincare" = Returns 2
  /\ getCoOrderCount (calculateCoOrderMatrix basket_orders basket_categories)
       "beauty" "garden" = Returns 0.
Proof.
  destruct (getCoOrderCount_round_trip basket_orders basket_categories
              "beauty" "skincare") as (_ & _ & H).
  destruct (getCoOrderCount_round_trip basket_orders basket_categories
              "beauty" "garden") as (H0 & _ & _).
  split.
  - apply H; [vm_compute; repeat constructor; set_solver | set_solver | set_solver
             | discriminate].
  - apply H0. right. vm_compute. set_solver.
Defined.

(** ** buildCustomerPurchaseHistory *)

Lemma JsMap_get_set (V : Type) (key key' : string) (value : V) (m : JsMap.t V) :
  JsMap.get key' (JsMap.set key value m)
  = if decide (key' = key) then Some value else JsMap.get key' m.
Proof.
  induction m as [| [k v] m IH]; simpl.
  - destruct (decide (key = key')) as [-> | Hne].
    + rewrite decide_True by reflexivity. reflexivity.
    + rewrite decide_False by auto. reflexivity.
  - destruct (decide (k = key)) as [-> | Hne]; simpl.
    + destruct (decide (key = key')) as [-> | Hne'].
      * rewrite decide_True by reflexivity. reflexivity.
      * rewrite decide_False by auto. reflexivity.
    + destruct (decide (k = key')) as [-> | Hne'].
      * rewrite decide_False by auto. reflexivity.
      * exact IH.
Qed.

Lemma sort_newest_first_Permutation (orders : list Order.t) :
  sort_newest_first orders ≡ₚ orders.
Proof.
  unfold sort_newest_first. induction orders as [| o orders IH]; [reflexivity |].
  simpl. rewrite <- IH at 2. generalize (foldr insert_newest_first [] orders).
  clear. intros sorted. induction sorted as [| o' sorted IH]; simpl; [reflexivity |].
  destruct (decide _); [reflexivity |].
  rewrite IH. apply Permutation_swap.
Qed.

Lemma sort_newest_first_head (orders : list Order.t) :
  head (sort_newest_first orders) = newest orders.
Proof.
  unfold sort_newest_first. induction orders as [| o orders IH]; [reflexivity |].
  simpl. rewrite <- IH.
  destruct (foldr insert_newest_first [] orders) as [| o' sorted]; [reflexivity |].
  simpl. destruct (decide _); reflexivity.
Qed.

(** [newest] picks an order of the list, no older than any other. *)
Lemma newest_spec (orders : list Order.t) (o : Order.t) :
  newest orders = Some o ->
  o ∈ orders /\ forall o', o' ∈ orders -> (Order.createdAt o' <= Order.createdAt o)%Z.
Proof.
  revert o. induction orders as [| x orders IH]; intros o H; [discriminate |].
  simpl in H. destruct (newest orders) as [best |] eqn:E.
  - destruct (IH best eq_refl) as [Hin Hmax].
    destruct (decide (Order.createdAt best <= Order.createdAt x)%Z) as [Hle | Hgt];
      injection H as <-.
    + split; [left |]. intros o' Ho'. apply elem_of_cons in Ho' as [-> | Ho'];
        [lia |]. specialize (Hmax o' Ho'). lia.
    + split; [right; exact Hin |]. intros o' Ho'.
      apply elem_of_cons in Ho' as [-> | Ho']; [lia | apply Hmax, Ho'].
  - injection H as <-. destruct orders; [| simpl in E; destruct (newest orders);
      [destruct (decide _) |]; discriminate].
    split; [left |]. intros o' Ho'. apply list_elem_of_singleton in Ho' as ->. lia.
Qed.

Lemma newest_None (orders : list Order.t) : newest orders = None <-> orders = [].
Proof.
  destruct orders as [| o orders]; simpl; [tauto |].
  split; [| discriminate]. destruct (newest orders); [destruct (decide _) |];
    discriminate.
Qed.

Lemma record_purchase_get (L : list string) (o : Order.t)
    (cats : JsMap.t CategoryPurchaseInfo.t) (c c' : string) :
  JsMap.get c' (record_purchase L o cats c)
  = if decide (c' = c) then Some (updated_info L o c (JsMap.get c cats))
    else JsMap.get c' cats.
Proof.
  unfold record_purchase, updated_info.
  destruct (JsMap.get c cats); apply JsMap_get_set.
Qed.

Lemma record_order_get (L : list string) (o : Order.t) (U : list string)
    (cats : JsMap.t CategoryPurchaseInfo.t) (c : string) :
  NoDup U ->
  JsMap.get c (fold_left (record_purchase L o) U cats)
  = if decide (c ∈ U) then Some (updated_info L o c (JsMap.get c cats))
    else JsMap.get c cats.
Proof.
  revert cats. induction U as [| x U IH]; intros cats Hnd; [reflexivity |].
  apply NoDup_cons in Hnd as [Hx Hnd]. simpl. rewrite (IH _ Hnd).
  rewrite !record_purchase_get.
  destruct (decide (c = x)) as [-> | Hne].
  - rewrite decide_False by exact Hx. rewrite decide_True by left. reflexivity.
  - destruct (decide (c ∈ U)) as [Hin | Hnot].
    + rewrite decide_True by (right; exact Hin). reflexivity.
    + rewrite decide_False; [reflexivity |].
      intros H. apply elem_of_cons in H as [? | ?]; contradiction.
Qed.

Lemma orders_with_snoc (c : string) (seen : list Order.t) (o : Order.t) :
  orders_with c (seen ++ [o])
  = (orders_with c seen + if decide (c ∈ categories_in o) then 1 else 0)%nat.
Proof.
  unfold orders_with. rewrite filter_app, length_app. f_equal.
  rewrite filter_cons. destruct (decide _); reflexivity.
Qed.

Lemma info_of_step (L : list string) (seen : list Order.t) (o : Order.t)
    (cats : JsMap.t CategoryPurchaseInfo.t) (c : string) :
  info_of L seen c (JsMap.get c cats) ->
  info_of L (seen ++ [o]) c
    (JsMap.get c (fold_left (record_purchase L o) (orderCategories_of o) cats)).
Proof.
  intros Hinv. rewrite record_order_get by apply Set_of_NoDup.
  destruct (decide (c ∈ orderCategories_of o)) as [Hin | Hnot].
  - apply elem_of_orderCategories_of in Hin.
    unfold info_of, updated_info. rewrite orders_with_snoc, decide_True by exact Hin.
    destruct (JsMap.get c cats) as [e |]; simpl in *.
    + destruct Hinv as (Hid & Hge & Hf & Hl & (w & Hw & Hcw & Hdw) & Hmax).
      split; [exact Hid |]. split; [lia |].
      split; [rewrite Hf, plus_INR; reflexivity |]. split; [exact Hl |].
      destruct (decide (CategoryPurchaseInfo.lastPurchaseDate e < Order.createdAt o)%Z).
      * split.
        -- exists o. split; [apply elem_of_app; right; left | auto].
        -- intros o' Ho' Hc'. apply elem_of_app in Ho' as [Ho' | Ho'].
           ++ specialize (Hmax o' Ho' Hc'). lia.
           ++ apply list_elem_of_singleton in Ho' as ->. lia.
      * split.
        -- exists w. split; [apply elem_of_app; left; exact Hw | auto].
        -- intros o' Ho' Hc'. apply elem_of_app in Ho' as [Ho' | Ho'].
           ++ apply Hmax; assumption.
           ++ apply list_elem_of_singleton in Ho' as ->. lia.
    + rewrite Hinv. split; [reflexivity |]. split; [lia |].
      split; [simpl; lra |]. split; [reflexivity |]. split.
      * exists o. split; [apply elem_of_app; right; left | auto].
      * intros o' Ho' Hc'. apply elem_of_app in Ho' as [Ho' | Ho'].
        -- exfalso. unfold orders_with in Hinv.
           apply length_zero_iff_nil in Hinv.
           assert (o' ∈ filter (fun o => c ∈ categories_in o) seen)
             by (apply list_elem_of_filter; auto).
           rewrite Hinv in H. apply elem_of_nil in H. exact H.
        -- apply list_elem_of_singleton in Ho' as ->. lia.
  - rewrite elem_of_orderCategories_of in Hnot.
    unfold info_of in *. rewrite orders_with_snoc, decide_False by exact Hnot.
    rewrite Nat.add_0_r.
    destruct (JsMap.get c cats) as [e |]; [| exact Hinv].
    destruct Hinv as (Hid & Hge & Hf & Hl & (w & Hw & Hcw & Hdw) & Hmax).
    repeat (split; [assumption |]). split.
    + exists w. split; [apply elem_of_app; left; exact Hw | auto].
    + intros o' Ho' Hc'. apply elem_of_app in Ho' as [Ho' | Ho'];
        [apply Hmax; assumption |].
      apply list_elem_of_singleton in Ho' as ->. contradiction.
Qed.

Lemma info_of_fold (L : list string) (os seen : list Order.t)
    (cats : JsMap.t CategoryPurchaseInfo.t) :
  (forall c, info_of L seen c (JsMap.get c cats)) ->
  forall c,
    info_of L (seen ++ os) c
      (JsMap.get c
         (fold_left (fun categories order =>
                       fold_left (record_purchase L order)
                         (orderCategories_of order) categories) os cats)).
Proof.
  revert seen cats. induction os as [| o os IH]; intros seen cats Hinv c; simpl.
  - rewrite app_nil_r. apply Hinv.
  - replace (seen ++ o :: os) with ((seen ++ [o]) ++ os)
      by (rewrite <- app_assoc; reflexivity).
    apply IH. intros c'. apply info_of_step, Hinv.
Qed.

Lemma orders_with_Permutation (c : string) (l l' : list Order.t) :
  l ≡ₚ l' -> orders_with c l = orders_with c l'.
Proof.
  intros H. unfold orders_with. apply Permutation_length.
  apply filter_Permutation. exact H.
Qed.

Lemma info_of_Permutation (L L' : list string) (seen seen' : list Order.t)
    (c : string) (e : option CategoryPurchaseInfo.t) :
  seen ≡ₚ seen' -> (c ∈ L <-> c ∈ L') ->
  info_of L seen c e -> info_of L' seen' c e.
Proof.
  intros Hp HL. unfold info_of. rewrite (orders_with_Permutation c _ _ Hp).
  destruct e as [info |]; [| auto].
  intros (Hid & Hge & Hf & Hl & (w & Hw & Hcw & Hdw) & Hmax).
  split; [exact Hid |]. split; [exact Hge |]. split; [exact Hf |].
  split; [rewrite Hl; apply bool_decide_ext; exact HL |]. split.
  - exists w. rewrite <- Hp. auto.
  - intros o Ho. apply Hmax. rewrite Hp. exact Ho.
Qed.

Lemma buildCustomerPurchaseHistory_unfold (customerId : string)
    (orders : list Order.t) :
  match buildCustomerPurchaseHistory customerId orders with
  | None => customer_orders customerId orders = []
  | Some h =>
      exists last,
        newest (customer_orders customerId orders) = Some last
        /\ CustomerPurchaseHistory.customerId h = customerId
        /\ CustomerPurchaseHistory.totalOrders h
           = length (customer_orders customerId orders)
        /\ CustomerPurchaseHistory.lastOrderDate h = Order.createdAt last
        /\ forall c,
             info_of (categories_in last) (customer_orders customerId orders) c
               (JsMap.get c (CustomerPurchaseHistory.categories h))
  end.
Proof.
  unfold buildCustomerPurchaseHistory. fold (customer_orders customerId orders).
  pose proof (sort_newest_first_head (customer_orders customerId orders)) as Hhead.
  pose proof (sort_newest_first_Permutation (customer_orders customerId orders))
    as Hperm.
  destruct (sort_newest_first (customer_orders customerId orders))
    as [| last rest] eqn:Hsort.
  - apply Permutation_nil. exact Hperm.
  - simpl in Hhead. exists last. split; [symmetry; exact Hhead |].
    cbn [CustomerPurchaseHistory.customerId CustomerPurchaseHistory.totalOrders
         CustomerPurchaseHistory.lastOrderDate CustomerPurchaseHistory.categories].
    split; [reflexivity |].
    split; [apply Permutation_length; exact Hperm |].
    split; [reflexivity |].
    intros c.
    apply (info_of_Permutation (orderCategories_of last) _ ([] ++ last :: rest));
      [exact Hperm | apply elem_of_orderCategories_of |].
    apply info_of_fold. intros c'. reflexivity.
Qed.

(** X15 (buildCustomerPurchaseHistory, order bookkeeping): the function
    returns null exactly when no order carries the customer's id. Otherwise
    the history carries that id, [totalOrders] is the number of the
    customer's orders, and [lastOrderDate] is the creation time of one of
    the customer's orders and no earlier than that of any other of them. *)
Theorem buildCustomerPurchaseHistory_orders (customerId : string)
    (orders : list Order.t) :
  (buildCustomerPurchaseHistory customerId orders = None
   <-> forall o, o ∈ orders -> Order.customerId o <> customerId)
  /\ forall h,
       buildCustomerPurchaseHistory customerId orders = Some h ->
       CustomerPurchaseHistory.customerId h = customerId
       /\ CustomerPurchaseHistory.totalOrders h
          = length (customer_orders customerId orders)
       /\ (exists o, o ∈ orders /\ Order.customerId o = customerId
                     /\ Order.createdAt o = CustomerPurchaseHistory.lastOrderDate h)
       /\ forall o, o ∈ orders -> Order.customerId o = customerId ->
            (Order.createdAt o <= CustomerPurchaseHistory.lastOrderDate h)%Z.
Proof.
  pose proof (buildCustomerPurchaseHistory_unfold customerId orders) as H.
  split.
  - destruct (buildCustomerPurchaseHistory customerId orders) as [h |].
    + destruct H as (last & Hnew & _). split; [discriminate |].
      intros Hno. exfalso. apply newest_spec in Hnew as [Hin _].
      apply list_elem_of_filter in Hin as [Hid Hin]. exact (Hno _ Hin Hid).
    + split; [| reflexivity]. intros _ o Ho Hid.
      assert (o ∈ customer_orders customerId orders) as Hin
        by (apply list_elem_of_filter; auto).
      rewrite H in Hin. apply elem_of_nil in Hin. exact Hin.
  - intros h Hh. rewrite Hh in H.
    destruct H as (last & Hnew & Hid & Htot & Hdate & _).
    apply newest_spec in Hnew as [Hin Hmax].
    apply list_elem_of_filter in Hin as [Hlid Hin].
    split; [exact Hid |]. split; [exact Htot |]. split.
    + exists last. auto.
    + intros o Ho Hoid. rewrite Hdate. apply Hmax.
      apply list_elem_of_filter. auto.
Qed.

Lemma buildCustomerPurchaseHistory_orders_witness :
  exists h,
    buildCustomerPurchaseHistory "bob" basket_orders = Some h
    /\ CustomerPurchaseHistory.totalOrders h = 2%nat
    /\ forall o, o ∈ basket_orders -> Order.customerId o = "bob" ->
         (Order.createdAt o <= CustomerPurchaseHistory.lastOrderDate h)%Z.
Proof.
  eexists. split; [reflexivity |].
  destruct (buildCustomerPurchaseHistory_orders "bob" basket_orders) as [_ H].
  destruct (H _ eq_refl) as (_ & Htot & _ & Hmax).
  split; [exact Htot | exact Hmax].
Defined.

(** X16 (buildCustomerPurchaseHistory, per-category entries): in the history
    of a customer, a category has an entry exactly when one of the customer's
    orders has an item of it. The entry carries the category as its id; its
    [frequency] is the number of the customer's orders that contain the
    category (each order counted once, whatever the number of items); its
    [lastPurchaseDate] is the latest creation time among those orders; and
    [isLastOrder] tells whether the customer's newest order contains it. *)
Theorem buildCustomerPurchaseHistory_categories (customerId : string)
    (orders : list Order.t) (h : CustomerPurchaseHistory.t) (cat : string) :
  buildCustomerPurchaseHistory customerId orders = Some h ->
  let mine := customer_orders customerId orders in
  match JsMap.get cat (CustomerPurchaseHistory.categories h) with
  | None => forall o, o ∈ mine -> cat ∉ categories_in o
  | Some info =>
      CategoryPurchaseInfo.categoryId info = cat
      /\ (1 <= orders_with cat mine)%nat
      /\ CategoryPurchaseInfo.frequency info = INR (orders_with cat mine)
      /\ (exists o, o ∈ mine /\ cat ∈ categories_in o
                    /\ Order.createdAt o = CategoryPurchaseInfo.lastPurchaseDate info)
      /\ (forall o, o ∈ mine -> cat ∈ categories_in o ->
            (Order.createdAt o <= CategoryPurchaseInfo.lastPurchaseDate info)%Z)
      /\ exists last,
           newest mine = Some last
           /\ CategoryPurchaseInfo.isLastOrder info
              = bool_decide (cat ∈ categories_in last)
  end.
Proof.
  intros Hh mine.
  pose proof (buildCustomerPurchaseHistory_unfold customerId orders) as H.
  rewrite Hh in H. destruct H as (last & Hnew & _ & _ & _ & Hinfo).
  specialize (Hinfo cat). fold mine in Hinfo, Hnew. unfold info_of in Hinfo.
  destruct (JsMap.get cat (CustomerPurchaseHistory.categories h)) as [info |].
  - destruct Hinfo as (Hid & Hge & Hf & Hl & Hex & Hmax).
    repeat (split; [assumption |]). exists last. auto.
  - intros o Ho Hc. unfold orders_with in Hinfo.
    apply length_zero_iff_nil in Hinfo.
    assert (o ∈ filter (fun o => cat ∈ categories_in o) mine) as Hin
      by (apply list_elem_of_filter; auto).
    rewrite Hinfo in Hin. apply elem_of_nil in Hin. exact Hin.
Qed.

Lemma buildCustomerPurchaseHistory_categories_witness :
  exists h info,
    buildCustomerPurchaseHistory "bob" basket_orders = Some h
    /\ JsMap.get "beauty" (CustomerPurchaseHistory.categories h) = Some info
    /\ CategoryPurchaseInfo.frequency info
       = INR (orders_with "beauty" (customer_orders "bob" basket_orders))
    /\ JsMap.get "haircare" (CustomerPurchaseHistory.categories h) = None.
Proof.
  eexists. eexists. split; [reflexivity |].
  pose proof (buildCustomerPurchaseHistory_categories "bob" basket_orders _
                "beauty" eq_refl) as H.
  simpl in H. destruct H as (_ & _ & Hf & _).
  split; [reflexivity |]. split; [exact Hf | reflexivity].
Defined.

Lemma JsMap_get_elem_of {V : Type} (key : string) (value : V) (m : JsMap.t V) :
  JsMap.get key m = Some value -> (key, value) ∈ m.
Proof.
  induction m as [| [k v] m IH]; simpl; [discriminate |].
  destruct (decide (k = key)) as [-> | _].
  - intros [= ->]. left.
  - intros H. right. exact (IH H).
Qed.

Lemma JsMap_set_Forall {V : Type} (P : V -> Prop) (key : string) (value : V)
    (m : JsMap.t V) :
  P value -> Forall P (JsMap.values m) ->
  Forall P (JsMap.values (JsMap.set key value m)).
Proof.
  intros Hv. unfold JsMap.values.
  induction m as [| [k v] m IH]; simpl; intros Hm.
  - constructor; [exact Hv | constructor].
  - apply Forall_cons in Hm as [Hk Hm].
    destruct (decide (k = key)); simpl; constructor; auto.
Qed.

Lemma recorded_frequencies (L : list string) (os : list Order.t)
    (cats : JsMap.t CategoryPurchaseInfo.t) :
  Forall (fun info => (1 <= CategoryPurchaseInfo.frequency info)%R)
    (JsMap.values cats) ->
  Forall (fun info => (1 <= CategoryPurchaseInfo.frequency info)%R)
    (JsMap.values
       (fold_left (fun categories order =>
                     fold_left (record_purchase L order)
                       (orderCategories_of order) categories) os cats)).
Proof.
  revert cats. induction os as [| o os IH]; intros cats Hc; simpl; [exact Hc |].
  apply IH. generalize (orderCategories_of o). intros U.
  revert cats Hc. induction U as [| c U IHU]; intros cats Hc; simpl; [exact Hc |].
  apply IHU. unfold record_purchase.
  destruct (JsMap.get c cats) as [e |] eqn:Ee.
  - apply JsMap_set_Forall; [| exact Hc]. simpl.
    apply JsMap_get_elem_of in Ee. rewrite Forall_forall in Hc.
    assert (1 <= CategoryPurchaseInfo.frequency e)%R; [| lra].
    apply Hc. unfold JsMap.values. apply list_elem_of_fmap.
    exists (c, e). split; [reflexivity | exact Ee].
  - apply JsMap_set_Forall; [simpl; lra | exact Hc].
Qed.

Lemma buildCustomerPurchaseHistory_frequencies (customerId : string)
    (orders : list Order.t) (h : CustomerPurchaseHistory.t) :
  buildCustomerPurchaseHistory customerId orders = Some h ->
  CustomerPurchaseHistory.customerId h = customerId
  /\ Forall (fun info => (1 <= CategoryPurchaseInfo.frequency info)%R)
       (JsMap.values (CustomerPurchaseHistory.categories h)).
Proof.
  unfold buildCustomerPurchaseHistory.
  destruct (sort_newest_first _) as [| last rest]; [discriminate |].
  intros [= <-]. split; [reflexivity |].
  apply (recorded_frequencies (orderCategories_of last) (last :: rest) []).
  constructor.
Qed.

(** ** Seed weights *)

Lemma log2_1 : log2 1 = 0%R.
Proof.
  unfold log2. destruct (Rle_dec 1 0); [lra |]. rewrite ln_1. lra.
Qed.

Lemma log2_2 : log2 2 = 1%R.
Proof.
  unfold log2. destruct (Rle_dec 2 0); [lra |].
  pose proof ln_2_pos. field. lra.
Qed.

Lemma log2_le (x y : R) : (0 < x)%R -> (x <= y)%R -> (log2 x <= log2 y)%R.
Proof.
  intros Hx Hxy. unfold log2.
  destruct (Rle_dec x 0); [lra |]. destruct (Rle_dec y 0); [lra |].
  pose proof ln_2_pos as H2.
  assert (ln x <= ln y)%R as Hln.
  { destruct (Req_dec x y) as [-> | Hne]; [lra |].
    left. apply ln_increasing; lra. }
  apply Rmult_le_compat_r; [| exact Hln].
  left. apply Rinv_0_lt_compat. exact H2.
Qed.

Lemma log2_3 : (1.2 < log2 3)%R.
Proof.
  unfold log2. destruct (Rle_dec 3 0); [lra |].
  pose proof ln_2_pos as H2.
  assert (ln (2 ^ 6) < ln (3 ^ 5))%R as H.
  { apply ln_increasing; simpl; lra. }
  rewrite !ln_pow in H by lra. simpl INR in H.
  apply (Rmult_lt_reg_r (ln 2)); [exact H2 |].
  replace (ln 3 / ln 2 * ln 2)%R with (ln 3) by (field; lra). lra.
Qed.

Lemma calculateFrequencyBoost_positive (frequency : R) :
  (0 < frequency)%R ->
  calculateFrequencyBoost frequency = Rmin (1 + 0.5 * log2 frequency) 1.6.
Proof.
  intros Hpos. unfold calculateFrequencyBoost, FREQUENCY_BOOST_BASE,
    FREQUENCY_BOOST_MULTIPLIER, FREQUENCY_BOOST_CAP.
  destruct (Rle_dec frequency 0); [lra |]. f_equal. lra.
Qed.

(** X17 (calculateFrequencyBoost on purchase counts): on whole numbers the
    frequency boost takes three values only: 1.0 for a count of 0 or 1, 1.5
    for a count of 2, and the cap 1.6 for every count from 3 on. *)
Theorem calculateFrequencyBoost_on_counts (n : nat) :
  calculateFrequencyBoost (INR n)
  = match n with
    | O | S O => 1.0%R
    | S (S O) => 1.5%R
    | _ => 1.6%R
    end.
Proof.
  destruct n as [| [| [| n]]].
  - unfold calculateFrequencyBoost, FREQUENCY_BOOST_BASE. simpl.
    destruct (Rle_dec 0 0); lra.
  - rewrite calculateFrequencyBoost_positive by (simpl; lra).
    simpl INR. rewrite log2_1. unfold Rmin. destruct (Rle_dec _ _); lra.
  - rewrite calculateFrequencyBoost_positive by (simpl; lra).
    replace (INR 2) with 2%R by (simpl; lra).
    rewrite log2_2. unfold Rmin. destruct (Rle_dec _ _); lra.
  - assert (3 <= INR (S (S (S n))))%R as H3.
    { rewrite !S_INR. pose proof (pos_INR n). lra. }
    rewrite calculateFrequencyBoost_positive by lra.
    pose proof (log2_le 3 _ ltac:(lra) H3) as Hle. pose proof log2_3.
    unfold Rmin. destruct (Rle_dec _ _); lra.
Qed.

(** X18 (calculateFrequencyBoost, shape): the boost never exceeds the cap
    1.6, does not decrease when a positive frequency grows, is at least the
    base 1.0 from frequency 1 on, and is below the base for a frequency
    strictly between 0 and 1. *)
Theorem calculateFrequencyBoost_shape (f1 f2 : R) :
  (0 < f1 <= f2)%R ->
  (calculateFrequencyBoost f1 <= calculateFrequencyBoost f2 <= 1.6)%R
  /\ ((1 <= f1)%R -> (1 <= calculateFrequencyBoost f1)%R)
  /\ ((f1 < 1)%R -> (calculateFrequencyBoost f1 < 1)%R).
Proof.
  intros [H1 H12].
  rewrite !calculateFrequencyBoost_positive by lra.
  pose proof (log2_le f1 f2 H1 H12) as Hle.
  split; [| split].
  - split.
    + apply Rle_min_compat_r. lra.
    + apply Rmin_r.
  - intros Hge. pose proof (log2_le 1 f1 ltac:(lra) Hge) as H.
    rewrite log2_1 in H. apply Rmin_glb; lra.
  - intros Hlt. apply Rle_lt_trans with (1 + 0.5 * log2 f1)%R; [apply Rmin_l |].
    assert (log2 f1 < 0)%R; [| lra].
    unfold log2. destruct (Rle_dec f1 0); [lra |].
    pose proof ln_2_pos as H2.
    assert (ln f1 < 0)%R by (rewrite <- ln_1; apply ln_increasing; lra).
    apply Rmult_lt_reg_r with (ln 2); [exact H2 |].
    replace (ln f1 / ln 2 * ln 2)%R with (ln f1) by (field; lra). lra.
Qed.

Lemma calculateFrequencyBoost_shape_witness :
  (calculateFrequencyBoost 2 <= calculateFrequencyBoost 5 <= 1.6)%R
  /\ (1 <= calculateFrequencyBoost 2)%R.
Proof.
  destruct (calculateFrequencyBoost_shape 2 5 ltac:(lra)) as (H & Hge & _).
  split; [exact H | apply Hge; lra].
Defined.

Lemma calculateFrequencyBoost_bounds (frequency : R) :
  (frequency <= 0 \/ 1 <= frequency)%R ->
  (1 <= calculateFrequencyBoost frequency <= 1.6)%R.
Proof.
  intros [Hle | Hge].
  - unfold calculateFrequencyBoost, FREQUENCY_BOOST_BASE.
    destruct (Rle_dec frequency 0); lra.
  - rewrite calculateFrequencyBoost_positive by lra.
    pose proof (log2_le 1 frequency ltac:(lra) Hge) as H.
    rewrite log2_1 in H. split; [apply Rmin_glb; lra | apply Rmin_r].
Qed.

(** In exact arithmetic the seed weight is at most [0.75 * 1.6]. *)
Lemma calculateSeedWeight_bounds (purchaseInfo : CategoryPurchaseInfo.t) :
  (1 <= CategoryPurchaseInfo.frequency purchaseInfo)%R ->
  (0.5 <= SeedWeight.seedWeight (calculateSeedWeight purchaseInfo) <= 1.2)%R.
Proof.
  intros Hf.
  pose proof (calculateFrequencyBoost_bounds _ (or_intror Hf)) as Hb.
  destruct purchaseInfo as [cat frequency date isLast]. simpl in *.
  unfold calculateRecencyBoost, RECENCY_BOOST_LAST_ORDER, RECENCY_BOOST_OLDER.
  destruct isLast; nra.
Qed.

(** X19 (calculateSeedWeight, range): for a category bought at least once
    the frequency boost lies in [1.0, 1.6] and the seed weight between 0.5
    and the frequency boost.  Outside the last order the seed weight is half
    the frequency boost, so at most 0.8; in the last order it is three
    quarters of it, so at least 0.75. *)
Theorem calculateSeedWeight_range (purchaseInfo : CategoryPurchaseInfo.t) :
  (1 <= CategoryPurchaseInfo.frequency purchaseInfo)%R ->
  let sw := calculateSeedWeight purchaseInfo in
  SeedWeight.categoryId sw = CategoryPurchaseInfo.categoryId purchaseInfo
  /\ (1 <= SeedWeight.frequencyBoost sw <= 1.6)%R
  /\ (0.5 <= SeedWeight.seedWeight sw <= SeedWeight.frequencyBoost sw)%R
  /\ (CategoryPurchaseInfo.isLastOrder purchaseInfo = false ->
      SeedWeight.seedWeight sw = (0.5 * SeedWeight.frequencyBoost sw)%R
      /\ (SeedWeight.seedWeight sw <= 0.8)%R)
  /\ (CategoryPurchaseInfo.isLastOrder purchaseInfo = true ->
      SeedWeight.seedWeight sw = (0.75 * SeedWeight.frequencyBoost sw)%R
      /\ (0.75 <= SeedWeight.seedWeight sw)%R).
Proof.
  intros Hf.
  pose proof (calculateFrequencyBoost_bounds _ (or_intror Hf)) as Hb.
  destruct purchaseInfo as [cat frequency date isLast]. simpl in *.
  unfold calculateRecencyBoost, RECENCY_BOOST_LAST_ORDER, RECENCY_BOOST_OLDER.
  split; [reflexivity |]. split; [exact Hb |].
  split; [destruct isLast; lra |].
  split; intros ->; split; lra.
Qed.

Lemma calculateSeedWeight_range_witness :
  (0.5 <= SeedWeight.seedWeight (calculateSeedWeight purchased_four_times)
   <= SeedWeight.frequencyBoost (calculateSeedWeight purchased_four_times))%R.
Proof.
  apply (calculateSeedWeight_range purchased_four_times). simpl. lra.
Defined.

(** ** Customer affinity *)

Lemma read_Returns (m : Matrix) (i j : nat) (v : Q) :
  read m i j = Returns v -> cell m i j = Some v.
Proof.
  unfold read, row_of, cell. destruct (m !! i) as [row |]; simpl; [| discriminate].
  destruct (row !! j); simpl; [| discriminate]. intros [= ->]. reflexivity.
Qed.

Lemma weighted_signals_acc (M : CoAffinityMatrix.t) (idx : gmap string nat)
    (goalCategory : string) (sws : list SeedWeight.t)
    (acc out : list WeightedSignal.t) :
  for_of sws (fun seedWeight signals =>
    coAffinity ← getCoAffinity M idx (SeedWeight.categoryId seedWeight)
                   goalCategory;
    Returns (signals
             ++ [WeightedSignal.mk (SeedWeight.categoryId seedWeight)
                   (Q2R coAffinity * SeedWeight.seedWeight seedWeight)%R]))
    acc = Returns out ->
  exists ws, out = acc ++ ws /\ Forall2 (signal_of M idx goalCategory) sws ws.
Proof.
  revert acc. induction sws as [| sw sws IH]; intros acc; simpl.
  - intros [= <-]. exists []. rewrite app_nil_r. split; [reflexivity | constructor].
  - destruct (getCoAffinity M idx (SeedWeight.categoryId sw) goalCategory)
      as [v | e |] eqn:Ev; simpl; [| discriminate | discriminate].
    intros H. apply IH in H as (ws & -> & Hws).
    eexists (_ :: ws). rewrite <- app_assoc. split; [reflexivity |].
    constructor; [| exact Hws]. split; [reflexivity |]. exists v. auto.
Qed.

Lemma calculateWeightedSignals_Returns (M : CoAffinityMatrix.t)
    (idx : gmap string nat) (goalCategory : string) (sws : list SeedWeight.t)
    (ws : list WeightedSignal.t) :
  calculateWeightedSignals sws goalCategory M idx = Returns ws ->
  Forall2 (signal_of M idx goalCategory) sws ws.
Proof.
  intros H. apply weighted_signals_acc in H as (ws' & -> & H). exact H.
Qed.

Lemma calculateRawSignal_bounds (ws : list WeightedSignal.t) (lo hi : R) :
  (lo <= 0 <= hi)%R ->
  Forall (fun w => (lo <= WeightedSignal.signal w <= hi)%R) ws ->
  (lo <= calculateRawSignal ws <= hi)%R.
Proof.
  intros H0 Hall. destruct ws as [| w ws]; [exact H0 |].
  unfold calculateRawSignal. simpl.
  apply Forall_cons in Hall as [Hw Hws].
  destruct (Math_max_attained (map WeightedSignal.signal ws)
              (WeightedSignal.signal w)) as [-> | Hin]; [exact Hw |].
  apply list_elem_of_fmap in Hin as (w' & -> & Hin).
  rewrite Forall_forall in Hws. apply Hws, Hin.
Qed.

Lemma getCoAffinity_unit_interval (M : CoAffinityMatrix.t)
    (idx : gmap string nat) (cat1 cat2 : string) (v : Q) :
  (forall i j w, cell (CoAffinityMatrix.matrix M) i j = Some w -> 0 <= w <= 1) ->
  getCoAffinity M idx cat1 cat2 = Returns v -> 0 <= v <= 1.
Proof.
  intros Hcells. unfold getCoAffinity.
  destruct (idx !! cat1) as [i |]; [| intros [= <-]; split; discriminate].
  destruct (idx !! cat2) as [j |]; [| intros [= <-]; split; discriminate].
  intros H. apply read_Returns in H. exact (Hcells _ _ _ H).
Qed.

Lemma Q2R_unit_interval (v : Q) : 0 <= v <= 1 -> (0 <= Q2R v <= 1)%R.
Proof.
  intros [H0 H1]. apply Qreals.Qle_Rle in H0, H1. rewrite RMicromega.Q2R_0 in H0.
  rewrite RMicromega.Q2R_1 in H1. split; assumption.
Qed.

Lemma exp_neg_le (x y : R) : (x <= y)%R -> (exp (- y) <= exp (- x))%R.
Proof.
  intros H. destruct (Req_dec x y) as [-> | Hne]; [lra |].
  left. apply exp_increasing. lra.
Qed.

Lemma exp_square_bound (x b b' : R) :
  (0 <= b)%R -> (b <= exp (- x))%R -> (b' <= b * b)%R ->
  (b' <= exp (- (2 * x)))%R.
Proof.
  intros H0 Hb Hb'.
  replace (- (2 * x))%R with (- x + - x)%R by lra. rewrite exp_plus. nra.
Qed.

(** [exp (-1.2)] from below, by [exp (- x) >= 1 - x] at [x = 1.2 / 512] and
    nine squarings. *)
Lemma exp_minus_1_2 : (0.3 < exp (- (6 / 5)))%R.
Proof.
  assert (H0 : (0.99765625 <= exp (- (6 / 5 / 512)))%R).
  { pose proof (exp_ineq1_le (- (6 / 5 / 512))). lra. }
  pose proof (exp_square_bound _ 0.99765625 0.995317993 ltac:(lra) H0 ltac:(lra)) as H1.
  pose proof (exp_square_bound _ 0.995317993 0.990657907 ltac:(lra) H1 ltac:(lra)) as H2.
  pose proof (exp_square_bound _ 0.990657907 0.981403088 ltac:(lra) H2 ltac:(lra)) as H3.
  pose proof (exp_square_bound _ 0.981403088 0.963152021 ltac:(lra) H3 ltac:(lra)) as H4.
  pose proof (exp_square_bound _ 0.963152021 0.927661815 ltac:(lra) H4 ltac:(lra)) as H5.
  pose proof (exp_square_bound _ 0.927661815 0.860556443 ltac:(lra) H5 ltac:(lra)) as H6.
  pose proof (exp_square_bound _ 0.860556443 0.740557391 ltac:(lra) H6 ltac:(lra)) as H7.
  pose proof (exp_square_bound _ 0.740557391 0.548425249 ltac:(lra) H7 ltac:(lra)) as H8.
  pose proof (exp_square_bound _ 0.548425249 0.300770253 ltac:(lra) H8 ltac:(lra)) as H9.
  match type of H9 with
  | (_ <= exp ?x)%R => replace x with (- (6 / 5))%R in H9 by lra
  end.
  lra.
Qed.

(** What the seed weights of a customer and the cells of the matrix allow
    the weighted signals to be. *)
Lemma customer_affinity_range (h : CustomerPurchaseHistory.t)
    (goalCategory : string) (M : CoAffinityMatrix.t) (idx : gmap string nat)
    (r : CustomerAffinityResult.t) :
  (forall i j w, cell (CoAffinityMatrix.matrix M) i j = Some w -> 0 <= w <= 1) ->
  Forall (fun info => (1 <= CategoryPurchaseInfo.frequency info)%R)
    (JsMap.values (CustomerPurchaseHistory.categories h)) ->
  calculateCustomerAffinity h goalCategory M idx = Returns r ->
  CustomerAffinityResult.customerId r = CustomerPurchaseHistory.customerId h
  /\ CustomerAffinityResult.goalCategory r = goalCategory
  /\ Forall2 (fun sw w =>
                WeightedSignal.categoryId w = SeedWeight.categoryId sw
                /\ (0 <= WeightedSignal.signal w <= SeedWeight.seedWeight sw)%R)
       (CustomerAffinityResult.seedWeights r)
       (CustomerAffinityResult.weightedSignals r)
  /\ (0 <= CustomerAffinityResult.maxWeightedSignal r)%R
  /\ (0 <= CustomerAffinityResult.affinity r < 0.7)%R.
Proof.
  intros Hcells Hfreq. unfold calculateCustomerAffinity.
  destruct (calculateWeightedSignals _ _ _ _) as [ws | e |] eqn:Ews;
    simpl; [| discriminate | discriminate].
  intros [= <-]. simpl. split; [reflexivity |]. split; [reflexivity |].
  apply calculateWeightedSignals_Returns in Ews.
  assert (Hsw : Forall (fun sw => (0.5 <= SeedWeight.seedWeight sw <= 1.2)%R)
                  (calculateAllSeedWeights h)).
  { unfold calculateAllSeedWeights. apply Forall_fmap.
    eapply Forall_impl; [exact Hfreq |].
    intros info Hinfo. apply calculateSeedWeight_bounds, Hinfo. }
  generalize dependent (calculateAllSeedWeights h). intros sws Ews Hsw.
  assert (Hpair : Forall2 (fun sw w =>
                    WeightedSignal.categoryId w = SeedWeight.categoryId sw
                    /\ (0 <= WeightedSignal.signal w
                        <= SeedWeight.seedWeight sw)%R) sws ws
                  /\ Forall (fun w => (0 <= WeightedSignal.signal w <= 1.2)%R)
                       ws).
  { induction Ews as [| sw w sws ws (Hid & v & Hv & Hsig) _ IH];
      [split; constructor |].
    apply Forall_cons in Hsw as [[Hlo Hhi] Hsw].
    destruct (IH Hsw) as [IH1 IH2].
    apply getCoAffinity_unit_interval in Hv; [| exact Hcells].
    apply Q2R_unit_interval in Hv.
    assert (0 <= WeightedSignal.signal w <= SeedWeight.seedWeight sw)%R as Hw.
    { rewrite Hsig. generalize dependent (SeedWeight.seedWeight sw).
      generalize dependent (Q2R v). clear. intros x Hx y _ Hlo Hhi. split; nra. }
    split; constructor; auto. lra. }
  destruct Hpair as [Hpair Hws].
  split; [exact Hpair |].
  pose proof (calculateRawSignal_bounds ws 0 1.2 ltac:(lra) Hws) as Hraw.
  split; [apply Hraw |]. unfold calculateFinalAffinity.
  pose proof (exp_neg_le _ _ (proj1 Hraw)) as H1.
  pose proof (exp_neg_le (calculateRawSignal ws) (6 / 5) ltac:(lra)) as H2.
  rewrite Ropp_0, exp_0 in H1. pose proof exp_minus_1_2. lra.
Qed.

Lemma score_all_elem_of (M : CoAffinityMatrix.t) (goalCategory : string)
    (hs : list CustomerPurchaseHistory.t)
    (acc out : list CustomerAffinityResult.t) (r : CustomerAffinityResult.t) :
  score_all M goalCategory hs acc = Returns out -> r ∈ out ->
  r ∈ acc
  \/ exists h, h ∈ hs
       /\ calculateCustomerAffinity h goalCategory M (createCategoryIndexMap M)
          = Returns r.
Proof.
  revert acc. induction hs as [| h hs IH]; intros acc.
  - intros [= <-] Hr. left. exact Hr.
  - rewrite score_all_cons.
    destruct (calculateCustomerAffinity h goalCategory M _) as [r' | e |] eqn:Er;
      [| discriminate | discriminate].
    rewrite !bind_Returns. intros Hout Hr.
    destruct (IH _ Hout Hr) as [Hacc | (h' & Hh' & Eh')].
    + apply elem_of_app in Hacc as [Hacc | Hacc]; [left; exact Hacc |].
      apply list_elem_of_singleton in Hacc as ->.
      right. exists h. split; [left | exact Er].
    + right. exists h'. split; [right; exact Hh' | exact Eh'].
Qed.

Lemma elem_of_scored_histories (tz : TimeZone.t)
    (orders : list Order.t) (goalCategory : string)
    (activeDays referenceDate : Z) (customers : list Customer.t)
    (h : CustomerPurchaseHistory.t) :
  h ∈ scored_histories tz orders goalCategory activeDays referenceDate customers ->
  exists customer,
    customer ∈ customers
    /\ buildCustomerPurchaseHistory (Customer.id customer) orders = Some h
    /\ isCustomerEligible tz h goalCategory activeDays referenceDate = true.
Proof.
  unfold scored_histories. intros H.
  apply list_elem_of_omap in H as (customer & Hc & H).
  exists customer. split; [exact Hc |].
  destruct (buildCustomerPurchaseHistory _ _) as [h' |]; [| discriminate].
  destruct (isCustomerEligible tz h' _ _ _) eqn:E; [| discriminate].
  injection H as <-. auto.
Qed.

(** X20 (calculateCustomerAffinity, ranges): when the cells of the
    CoAffinity matrix lie in [0, 1] and every purchased category has a
    frequency of at least 1, a result pairs every seed weight with a weighted
    signal of the same category that lies between 0 and the seed weight; the
    raw signal is not negative, and the affinity lies in [0, 0.7). *)
Theorem calculateCustomerAffinity_range (h : CustomerPurchaseHistory.t)
    (goalCategory : string) (M : CoAffinityMatrix.t) (idx : gmap string nat)
    (r : CustomerAffinityResult.t) :
  (forall i j w, cell (CoAffinityMatrix.matrix M) i j = Some w -> 0 <= w <= 1) ->
  (forall info,
     info ∈ JsMap.values (CustomerPurchaseHistory.categories h) ->
     (1 <= CategoryPurchaseInfo.frequency info)%R) ->
  calculateCustomerAffinity h goalCategory M idx = Returns r ->
  Forall2 (fun sw w =>
             WeightedSignal.categoryId w = SeedWeight.categoryId sw
             /\ (0 <= WeightedSignal.signal w <= SeedWeight.seedWeight sw)%R)
    (CustomerAffinityResult.seedWeights r)
    (CustomerAffinityResult.weightedSignals r)
  /\ (0 <= CustomerAffinityResult.maxWeightedSignal r)%R
  /\ (0 <= CustomerAffinityResult.affinity r < 0.7)%R.
Proof.
  intros Hcells Hfreq Hr. rewrite <- Forall_forall in Hfreq.
  destruct (customer_affinity_range h goalCategory M idx r Hcells Hfreq Hr)
    as (_ & _ & Hws & Hraw & Haff).
  auto.
Qed.

Lemma calculateCustomerAffinity_range_witness :
  exists r,
    calculateCustomerAffinity bought_beauty "skincare" shop_matrix
      (createCategoryIndexMap shop_matrix) = Returns r
    /\ (0 <= CustomerAffinityResult.affinity r < 0.7)%R.
Proof.
  eexists. split; [reflexivity |].
  eapply (calculateCustomerAffinity_range bought_beauty "skincare" shop_matrix
            (createCategoryIndexMap shop_matrix)).
  - intros [| [| i]] [| [| j]] w; simpl; intros [= <-]; split; discriminate.
  - intros info Hin. simpl in Hin.
    repeat (apply elem_of_cons in Hin as [-> | Hin]; [simpl; lra |]).
    apply elem_of_nil in Hin. contradiction.
  - reflexivity.
Defined.

Lemma processAllCustomers_Returns (tz : TimeZone.t)
    (customers : list Customer.t)
    (orders : list Order.t) (M : CoAffinityMatrix.t) (goalCategory : string)
    (activeDays referenceDate : Z) (batch : Batch.t) :
  result (processAllCustomers tz customers orders M goalCategory activeDays
            referenceDate) = Returns batch ->
  goalCategory ∈ CoAffinityMatrix.categories M
  /\ score_all M goalCategory
       (scored_histories tz orders goalCategory activeDays referenceDate customers)
       [] = Returns (Batch.results batch).
Proof.
  intros Hrun.
  assert (Hin : goalCategory ∈ CoAffinityMatrix.categories M).
  { destruct (decide (goalCategory ∈ CoAffinityMatrix.categories M))
      as [H | H]; [exact H |].
    rewrite (processAllCustomers_invalid tz _ _ _ _ _ _ H) in Hrun. discriminate. }
  split; [exact Hin |].
  rewrite (processAllCustomers_valid tz _ _ _ _ _ _ Hin) in Hrun.
  destruct (score_all _ _ _ _) as [rs | e |]; try discriminate.
  rewrite bind_Returns in Hrun. injection Hrun as <-. reflexivity.
Qed.

(** X21 (processAllCustomers, end to end): in a run over a CoAffinity matrix
    with cells in [0, 1], every result is for the goal category, belongs to a
    customer of the list who has orders, never bought the goal category and
    was active in the window, and has a raw signal that is not negative and
    an affinity in [0, 0.7). *)
Theorem processAllCustomers_results (tz : TimeZone.t)
    (customers : list Customer.t)
    (orders : list Order.t) (coAffinityMatrix : CoAffinityMatrix.t)
    (goalCategory : string) (activeDays referenceDate : Z) (batch : Batch.t)
    (r : CustomerAffinityResult.t) :
  (forall i j w,
     cell (CoAffinityMatrix.matrix coAffinityMatrix) i j = Some w ->
     0 <= w <= 1) ->
  result (processAllCustomers tz customers orders coAffinityMatrix goalCategory
            activeDays referenceDate) = Returns batch ->
  r ∈ Batch.results batch ->
  (exists customer h,
     customer ∈ customers
     /\ CustomerAffinityResult.customerId r = Customer.id customer
     /\ buildCustomerPurchaseHistory (Customer.id customer) orders = Some h
     /\ JsMap.get goalCategory (CustomerPurchaseHistory.categories h) = None
     /\ active_in_window tz activeDays referenceDate
          (CustomerPurchaseHistory.lastOrderDate h))
  /\ CustomerAffinityResult.goalCategory r = goalCategory
  /\ (0 <= CustomerAffinityResult.maxWeightedSignal r)%R
  /\ (0 <= CustomerAffinityResult.affinity r < 0.7)%R.
Proof.
  intros Hcells Hrun Hr.
  apply processAllCustomers_Returns in Hrun as [_ Hscore].
  destruct (score_all_elem_of _ _ _ _ _ _ Hscore Hr) as [H | (h & Hh & Er)];
    [apply elem_of_nil in H; contradiction |].
  apply elem_of_scored_histories in Hh as (customer & Hc & Hbuild & Hel).
  destruct (buildCustomerPurchaseHistory_frequencies _ _ _ Hbuild) as [Hid Hfreq].
  destruct (customer_affinity_range _ _ _ _ _ Hcells Hfreq Er)
    as (Hrid & Hgoal & _ & Hraw & Haff).
  split; [| auto].
  exists customer, h. split; [exact Hc |]. split; [congruence |].
  split; [exact Hbuild |].
  unfold isCustomerEligible, JsMap.has in Hel.
  destruct (JsMap.get goalCategory _); [discriminate |].
  split; [reflexivity |]. unfold active_in_window.
  rewrite setDate_back_cutoff in Hel. case_decide as Hrange; [| discriminate].
  apply bool_decide_eq_true in Hel. auto.
Qed.

Lemma processAllCustomers_results_witness :
  exists batch r,
    result (processAllCustomers utc [alice; bob; carol; dave] shop_orders
              shop_matrix "beauty" 90 (day 250)) = Returns batch
    /\ Batch.results batch = [r]
    /\ CustomerAffinityResult.customerId r = "alice"
    /\ (0 <= CustomerAffinityResult.affinity r < 0.7)%R.
Proof.
  eexists. eexists. split; [reflexivity |]. split; [reflexivity |].
  split; [reflexivity |].
  eapply (processAllCustomers_results utc [alice; bob; carol; dave] shop_orders
            shop_matrix "beauty" 90 (day 250)).
  - intros [| [| i]] [| [| j]] w; simpl; intros [= <-]; split; discriminate.
  - reflexivity.
  - left.
Defined.

Lemma score_all_customerIds (M : CoAffinityMatrix.t) (goalCategory : string)
    (hs : list CustomerPurchaseHistory.t)
    (acc out : list CustomerAffinityResult.t) :
  score_all M goalCategory hs acc = Returns out ->
  map CustomerAffinityResult.customerId out
  = map CustomerAffinityResult.customerId acc
    ++ map CustomerPurchaseHistory.customerId hs.
Proof.
  revert acc. induction hs as [| h hs IH]; intros acc.
  - intros [= <-]. simpl. rewrite app_nil_r. reflexivity.
  - rewrite score_all_cons. unfold calculateCustomerAffinity.
    destruct (calculateWeightedSignals _ _ _ _) as [ws | e |];
      [| discriminate | discriminate].
    rewrite !bind_Returns. intros Hout. rewrite (IH _ Hout).
    rewrite map_app. simpl. rewrite <- app_assoc. reflexivity.
Qed.

Lemma scored_histories_customerIds (tz : TimeZone.t) (orders : list Order.t)
    (goalCategory : string) (activeDays referenceDate : Z)
    (customers : list Customer.t) :
  map CustomerPurchaseHistory.customerId
    (scored_histories tz orders goalCategory activeDays referenceDate customers)
  = map Customer.id
      (filter (fun c => skip_reason tz orders goalCategory activeDays
                          referenceDate c = None) customers).
Proof.
  unfold scored_histories.
  induction customers as [| c customers IH]; [reflexivity |].
  rewrite filter_cons. cbn [omap list_omap].
  destruct (buildCustomerPurchaseHistory (Customer.id c) orders) as [h |] eqn:Eh.
  - rewrite (skip_reason_eligible tz _ _ _ _ _ _ Eh).
    destruct (isCustomerEligible tz h _ _ _).
    + rewrite decide_True by reflexivity. simpl. f_equal; [| exact IH].
      apply (buildCustomerPurchaseHistory_frequencies _ _ _ Eh).
    + rewrite decide_False; [exact IH |].
      destruct (JsMap.has _ _); discriminate.
  - rewrite decide_False; [exact IH |].
    unfold skip_reason. rewrite Eh. discriminate.
Qed.

(** X22 (processAllCustomers, order of the results): the results of a run
    are those of the customers that no skip condition applies to, one for
    each, in the order of the customer list; a customer listed twice is scored
    twice. *)
Theorem processAllCustomers_result_order (tz : TimeZone.t)
    (customers : list Customer.t)
    (orders : list Order.t) (coAffinityMatrix : CoAffinityMatrix.t)
    (goalCategory : string) (activeDays referenceDate : Z) (batch : Batch.t) :
  result (processAllCustomers tz customers orders coAffinityMatrix goalCategory
            activeDays referenceDate) = Returns batch ->
  map CustomerAffinityResult.customerId (Batch.results batch)
  = map Customer.id
      (filter (fun c => skip_reason tz orders goalCategory activeDays
                          referenceDate c = None) customers).
Proof.
  intros Hrun. apply processAllCustomers_Returns in Hrun as [_ Hscore].
  rewrite (score_all_customerIds _ _ _ _ _ Hscore). simpl.
  apply scored_histories_customerIds.
Qed.

Lemma processAllCustomers_result_order_witness :
  exists batch,
    result (processAllCustomers utc [alice; bob; alice; dave] shop_orders shop_matrix
              "beauty" 90 (day 250)) = Returns batch
    /\ map CustomerAffinityResult.customerId (Batch.results batch)
       = ["alice"; "alice"].
Proof.
  eexists. split; [reflexivity |].
  apply (processAllCustomers_result_order utc [alice; bob; alice; dave] shop_orders
           shop_matrix "beauty" 90 (day 250)).
  reflexivity.
Defined.

Lemma weighted_signals_zero (M : CoAffinityMatrix.t) (idx : gmap string nat)
    (goalCategory : string) (sws : list SeedWeight.t)
    (acc : list WeightedSignal.t) :
  (forall sw, sw ∈ sws ->
     getCoAffinity M idx (SeedWeight.categoryId sw) goalCategory = Returns 0) ->
  for_of sws (fun seedWeight signals =>
    coAffinity ← getCoAffinity M idx (SeedWeight.categoryId seedWeight)
                   goalCategory;
    Returns (signals
             ++ [WeightedSignal.mk (SeedWeight.categoryId seedWeight)
                   (Q2R coAffinity * SeedWeight.seedWeight seedWeight)%R]))
    acc
  = Returns (acc ++ map (fun sw =>
                           WeightedSignal.mk (SeedWeight.categoryId sw)
                             (Q2R 0 * SeedWeight.seedWeight sw)%R) sws).
Proof.
  revert acc. induction sws as [| sw sws IH]; intros acc Hz; cbn [for_of map].
  - rewrite app_nil_r. reflexivity.
  - rewrite (Hz sw) by left. rewrite !bind_Returns.
    rewrite IH by (intros sw' H; apply Hz; right; exact H).
    rewrite <- app_assoc. reflexivity.
Qed.

(** X23 (calculateCustomerAffinity without a known pair): when the index map
    does not know the goal category, or knows none of the purchased
    categories (in particular when the history has none), the function
    returns without reading the matrix: one signal per purchased category,
    each 0, a raw signal of 0 and an affinity of exactly 0. *)
Theorem calculateCustomerAffinity_no_signal (h : CustomerPurchaseHistory.t)
    (goalCategory : string) (M : CoAffinityMatrix.t) (idx : gmap string nat) :
  idx !! goalCategory = None
  \/ (forall info,
        info ∈ JsMap.values (CustomerPurchaseHistory.categories h) ->
        idx !! CategoryPurchaseInfo.categoryId info = None) ->
  exists r,
    calculateCustomerAffinity h goalCategory M idx = Returns r
    /\ map WeightedSignal.categoryId (CustomerAffinityResult.weightedSignals r)
       = map CategoryPurchaseInfo.categoryId
           (JsMap.values (CustomerPurchaseHistory.categories h))
    /\ (forall w, w ∈ CustomerAffinityResult.weightedSignals r ->
          WeightedSignal.signal w = 0%R)
    /\ CustomerAffinityResult.maxWeightedSignal r = 0%R
    /\ CustomerAffinityResult.affinity r = 0%R.
Proof.
  intros Hmissing. unfold calculateCustomerAffinity, calculateWeightedSignals.
  rewrite weighted_signals_zero.
  - rewrite bind_Returns. eexists. split; [reflexivity |].
    cbn [CustomerAffinityResult.weightedSignals
         CustomerAffinityResult.maxWeightedSignal
         CustomerAffinityResult.affinity app].
    set (ws := map _ (calculateAllSeedWeights h)).
    assert (Hws : Forall (fun w => (0 <= WeightedSignal.signal w <= 0)%R) ws).
    { apply Forall_forall. intros w Hw. unfold ws in Hw.
      apply list_elem_of_fmap in Hw as (sw & -> & _). simpl.
      rewrite RMicromega.Q2R_0. lra. }
    pose proof (calculateRawSignal_bounds ws 0 0 ltac:(lra) Hws) as Hraw.
    assert (calculateRawSignal ws = 0%R) as -> by lra.
    split; [| split; [| split; [reflexivity |]]].
    + unfold ws, calculateAllSeedWeights. rewrite !map_map. reflexivity.
    + intros w Hw. rewrite Forall_forall in Hws. specialize (Hws w Hw). lra.
    + unfold calculateFinalAffinity. rewrite Ropp_0, exp_0. lra.
  - intros sw Hsw. unfold calculateAllSeedWeights in Hsw.
    apply list_elem_of_fmap in Hsw as (info & -> & Hinfo).
    unfold getCoAffinity. simpl.
    destruct Hmissing as [Hgoal | Hcats].
    + destruct (idx !! CategoryPurchaseInfo.categoryId info);
        [rewrite Hgoal |]; reflexivity.
    + rewrite (Hcats info Hinfo). reflexivity.
Qed.

Lemma calculateCustomerAffinity_no_signal_witness :
  exists r,
    calculateCustomerAffinity bought_books "beauty" shop_matrix
      (createCategoryIndexMap shop_matrix) = Returns r
    /\ CustomerAffinityResult.affinity r = 0%R.
Proof.
  destruct (calculateCustomerAffinity_no_signal bought_books "beauty" shop_matrix
              (createCategoryIndexMap shop_matrix)) as (r & E & _ & _ & _ & H).
  - right. intros info Hin. simpl in Hin.
    apply list_elem_of_singleton in Hin as ->. reflexivity.
  - exists r. split; [exact E | exact H].
Defined.

(** ** Statistics of a batch *)






Lemma buckets_partition (affinities : list R) :
  (length (filter (fun a => (a < 0.33)%R) affinities)
   + length (filter (fun a => (0.33 <= a)%R /\ (a < 0.66)%R) affinities)
   + length (filter (fun a => (0.66 <= a)%R) affinities)
   = length affinities)%nat.
Proof.
  induction affinities as [| a l IH]; [reflexivity |].
  rewrite !filter_cons.
  repeat case_decide; simpl; try lia; exfalso; lra.
Qed.

(** X24 (calculateAffinityStats, buckets): the three buckets of the
    distribution split the results: low, medium and high add up to
    [processedCustomers], which is the number of results. The field
    [totalEligibleCustomers] repeats the [totalCustomers] argument, whatever
    the results. *)
Theorem calculateAffinityStats_buckets (results : list CustomerAffinityResult.t)
    (goalCategory : string) (totalCustomers : nat) :
  let stats := calculateAffinityStats results goalCategory totalCustomers in
  let distribution := AffinityStats.affinityDistribution stats in
  (AffinityDistribution.low distribution
   + AffinityDistribution.medium distribution
   + AffinityDistribution.high distribution
   = AffinityStats.processedCustomers stats)%nat
  /\ AffinityStats.processedCustomers stats = length results
  /\ AffinityStats.totalEligibleCustomers stats = totalCustomers
  /\ AffinityStats.goalCategory stats = goalCategory.
Proof.
  cbn zeta. unfold calculateAffinityStats. simpl.
  pose proof (buckets_partition (map CustomerAffinityResult.affinity results))
    as Hsum.
  rewrite length_map in Hsum.
  split; [exact Hsum |]. split; [reflexivity |]. split; reflexivity.
Qed.



(** ** Reading lifts back, precomputed bounds, unpurchased categories *)

(** X26 (getLift on a computed lift matrix): for the lift matrix of a square
    co-order matrix, also one that lists a category twice, [getLift] always
    returns a number, the same for both orders of the two categories; it
    returns 0 for a category paired with itself and for a category that is
    not listed. *)
Theorem getLift_symmetric (co : CoOrderMatrix.t) (cat1 cat2 : string) :
  square (length (CoOrderMatrix.category co)) (CoOrderMatrix.matrix co) ->
  exists liftMatrix lift,
    calculateLiftMatrix co = Returns liftMatrix
    /\ getLift liftMatrix cat1 cat2 = Returns lift
    /\ getLift liftMatrix cat2 cat1 = Returns lift
    /\ getLift liftMatrix cat1 cat1 = Returns 0
    /\ (cat1 ∉ CoOrderMatrix.category co \/ cat2 ∉ CoOrderMatrix.category co ->
        lift = 0).
Proof.
  intros Hsq.
  destruct (calculateLiftMatrix_returns co Hsq) as (matrix & E & _ & Hcells).
  assert (Hlt : forall c i, indexOf (CoOrderMatrix.category co) c = Some i ->
                  (i < length (CoOrderMatrix.category co))%nat).
  { intros c i H. apply indexOf_Some in H as [H _].
    eapply lookup_lt_Some, H. }
  assert (Hdiag : getLift (LiftMatrix.mk (CoOrderMatrix.category co) matrix)
                    cat1 cat1 = Returns 0).
  { unfold getLift, lookup_by_name. simpl.
    destruct (indexOf (CoOrderMatrix.category co) cat1) as [i |] eqn:E1;
      [| reflexivity].
    rewrite (read_cell _ _ _ _ (Hcells i i (Hlt _ _ E1) (Hlt _ _ E1))).
    unfold lift_value. rewrite decide_True by reflexivity. reflexivity. }
  unfold getLift, lookup_by_name in *. simpl in *.
  destruct (indexOf (CoOrderMatrix.category co) cat1) as [i |] eqn:E1.
  - destruct (indexOf (CoOrderMatrix.category co) cat2) as [j |] eqn:E2.
    + exists (LiftMatrix.mk (CoOrderMatrix.category co) matrix),
        (lift_value co i j).
      simpl. rewrite E1, E2.
      rewrite (read_cell _ _ _ _ (Hcells i j (Hlt _ _ E1) (Hlt _ _ E2))).
      rewrite (read_cell _ _ _ _ (Hcells j i (Hlt _ _ E2) (Hlt _ _ E1))).
      rewrite (lift_value_sym co j i).
      split; [exact E |]. split; [reflexivity |]. split; [reflexivity |].
      split; [exact Hdiag |].
      intros [H | H]; apply indexOf_None in H; congruence.
    + exists (LiftMatrix.mk (CoOrderMatrix.category co) matrix), 0.
      simpl. rewrite E1, E2. auto.
  - exists (LiftMatrix.mk (CoOrderMatrix.category co) matrix), 0.
    simpl. rewrite E1. destruct (indexOf (CoOrderMatrix.category co) cat2); auto.
Qed.

Lemma getLift_symmetric_witness :
  exists liftMatrix lift,
    calculateLiftMatrix coOrders_AB = Returns liftMatrix
    /\ getLift liftMatrix "A" "B" = Returns lift
    /\ getLift liftMatrix "B" "A" = Returns lift.
Proof.
  destruct (getLift_symmetric coOrders_AB "A" "B")
    as (lm & lift & E & H1 & H2 & _).
  - apply square_2; reflexivity.
  - exists lm, lift. auto.
Defined.

(** X27 (normaliser and precomputed bounds): normalizing a lift matrix
    without bounds always returns; it keeps the category list, stores
    exactly the bounds [getLiftBounds] reports, which are ordered, and
    normalizing again with those bounds passed in gives the same result.
    The same holds of [normalizeCoOrdersMatrix] and [getCoOrdersBounds]. *)
Theorem normaliser_bounds (liftMatrix : LiftMatrix.t)
    (coOrdersMatrix : CoOrderMatrix.t) :
  (exists n,
     normalizeLiftMatrix liftMatrix None None = Returns n
     /\ NormalizedMatrix.categories n = LiftMatrix.category liftMatrix
     /\ getLiftBounds liftMatrix
        = Returns (NormalizedMatrix.p5 n, NormalizedMatrix.p95 n)
     /\ NormalizedMatrix.p5 n <= NormalizedMatrix.p95 n
     /\ normalizeLiftMatrix liftMatrix (Some (NormalizedMatrix.p5 n))
          (Some (NormalizedMatrix.p95 n)) = Returns n)
  /\ (exists n,
        normalizeCoOrdersMatrix coOrdersMatrix None None = Returns n
        /\ NormalizedMatrix.categories n = CoOrderMatrix.category coOrdersMatrix
        /\ getCoOrdersBounds coOrdersMatrix
           = Returns (NormalizedMatrix.p5 n, NormalizedMatrix.p95 n)
        /\ NormalizedMatrix.p5 n <= NormalizedMatrix.p95 n
        /\ normalizeCoOrdersMatrix coOrdersMatrix (Some (NormalizedMatrix.p5 n))
             (Some (NormalizedMatrix.p95 n)) = Returns n).
Proof.
  split.
  - unfold normalizeLiftMatrix, getLiftBounds, getP5P95Bounds,
      normalizeMatrixP5P95.
    destruct (bounds_return (extractMatrixValues (LiftMatrix.matrix liftMatrix)))
      as (p5 & p95 & E5 & E95 & Hle).
    cbn [or_else]. rewrite E5, E95, !bind_Returns.
    eexists. split; [reflexivity |]. simpl.
    split; [reflexivity |]. split; [reflexivity |]. split; [exact Hle | reflexivity].
  - unfold normalizeCoOrdersMatrix, getCoOrdersBounds, getP5P95Bounds,
      normalizeMatrixP5P95.
    destruct (bounds_return
                (extractMatrixValues (CoOrderMatrix.matrix coOrdersMatrix)))
      as (p5 & p95 & E5 & E95 & Hle).
    cbn [or_else]. rewrite E5, E95, !bind_Returns.
    eexists. split; [reflexivity |]. simpl.
    split; [reflexivity |]. split; [reflexivity |]. split; [exact Hle | reflexivity].
Qed.

(** X28 (getUnpurchasedCategories on a built history): the unpurchased
    categories of a customer are the listed categories that none of the
    customer's orders has an item of, in the order of the list (a category
    listed twice is returned twice); the goal
    category of an eligible customer is among them whenever it is listed. *)
Theorem getUnpurchasedCategories_spec (customerId : string)
    (orders : list Order.t) (h : CustomerPurchaseHistory.t)
    (allCategories : list string) :
  buildCustomerPurchaseHistory customerId orders = Some h ->
  getUnpurchasedCategories h allCategories
  = filter (fun cat =>
              orders_with cat (customer_orders customerId orders) = 0%nat)
      allCategories
  /\ forall tz goalCategory activityDays referenceDate,
       isCustomerEligible tz h goalCategory activityDays referenceDate = true ->
       goalCategory ∈ allCategories ->
       goalCategory ∈ getUnpurchasedCategories h allCategories.
Proof.
  intros Hh.
  pose proof (buildCustomerPurchaseHistory_unfold customerId orders) as H.
  rewrite Hh in H. destruct H as (last & _ & _ & _ & _ & Hinfo).
  assert (Hhas : forall c,
    JsMap.has c (CustomerPurchaseHistory.categories h) = false
    <-> orders_with c (customer_orders customerId orders) = 0%nat).
  { intros c. specialize (Hinfo c).
    unfold JsMap.has, info_of in *.
    destruct (JsMap.get c (CustomerPurchaseHistory.categories h)).
    - destruct Hinfo as (_ & Hge & _). split; [discriminate | lia].
    - split; [intros _; exact Hinfo | reflexivity]. }
  split.
  - unfold getUnpurchasedCategories. apply list_filter_iff. exact Hhas.
  - intros tz goal days ref Hel Hin. unfold getUnpurchasedCategories.
    apply list_elem_of_filter. split; [| exact Hin].
    unfold isCustomerEligible in Hel.
    destruct (JsMap.has goal _); [discriminate | reflexivity].
Qed.

Lemma getUnpurchasedCategories_spec_witness :
  exists h,
    buildCustomerPurchaseHistory "bob" basket_orders = Some h
    /\ getUnpurchasedCategories h ["skincare"; "beauty"; "haircare"]
       = filter (fun cat =>
                   orders_with cat (customer_orders "bob" basket_orders) = 0%nat)
           ["skincare"; "beauty"; "haircare"]
    /\ getUnpurchasedCategories h ["skincare"; "beauty"; "haircare"]
       = ["haircare"].
Proof.
  eexists. split; [reflexivity |]. split; [| reflexivity].
  exact (proj1 (getUnpurchasedCategories_spec "bob" basket_orders _
                  ["skincare"; "beauty"; "haircare"] eq_refl)).
Defined.

(** ** What a batch run writes to the console *)

Lemma console_bind {A B : Type} (m : io A) (f : A -> io B) :
  console (m ≫= f)
  = match result m with
    | Returns a => console m ++ console (f a)
    | _ => console m
    end.
Proof.
  unfold mbind at 1, io_bind. destruct (result m); reflexivity.
Qed.

Lemma process_customer_console (tz : TimeZone.t)
    (orders : list Order.t) (M : CoAffinityMatrix.t)
    (idx : gmap string nat) (goalCategory : string)
    (activeDays referenceDate : Z) (total : nat) (c : Customer.t) (st : Loop.t) :
  console (process_customer tz orders M idx goalCategory activeDays referenceDate
             total c st)
  = if decide (S (Loop.processed st) mod 1000 = 0)%nat
    then [progress_line total (S (Loop.processed st))] else [].
Proof.
  unfold process_customer. cbv zeta. rewrite console_bind.
  assert (Hrest : forall u : unit,
    console
      (match buildCustomerPurchaseHistory (Customer.id c) orders with
       | None =>
           mret (Loop.mk (Loop.results st)
                   (Loop.skipped st ++ [Skipped.mk (Customer.id c) "No orders"])
                   (S (Loop.processed st)) (Loop.eligible st))
       | Some purchaseHistory =>
           if negb (isCustomerEligible tz purchaseHistory goalCategory activeDays
                      referenceDate)
           then
             mret (Loop.mk (Loop.results st)
                     (Loop.skipped st
                      ++ [Skipped.mk (Customer.id c)
                            (if JsMap.has goalCategory
                                  (CustomerPurchaseHistory.categories
                                     purchaseHistory)
                             then "Already purchased goal category"
                             else "Not active in window")])
                     (S (Loop.processed st)) (Loop.eligible st))
           else
             result ← run (calculateCustomerAffinity purchaseHistory goalCategory
                             M idx);
             mret (Loop.mk (Loop.results st ++ [result]) (Loop.skipped st)
                     (S (Loop.processed st)) (S (Loop.eligible st)))
       end : io Loop.t) = []).
  { intros _. destruct (buildCustomerPurchaseHistory _ _) as [h |]; [| reflexivity].
    destruct (isCustomerEligible tz h _ _ _); cbn [negb]; [| reflexivity].
    rewrite console_bind. cbn [run result console].
    destruct (calculateCustomerAffinity h goalCategory M idx); reflexivity. }
  destruct (decide (S (Loop.processed st) mod 1000 = 0)%nat);
    cbn [console_log result console mret io_ret]; rewrite (Hrest tt);
    reflexivity.
Qed.

Lemma process_customer_processed (tz : TimeZone.t)
    (orders : list Order.t) (M : CoAffinityMatrix.t)
    (goalCategory : string) (activeDays referenceDate : Z) (total : nat)
    (c : Customer.t) (st st' : Loop.t) :
  result (process_customer tz orders M (createCategoryIndexMap M) goalCategory
            activeDays referenceDate total c st) = Returns st' ->
  Loop.processed st' = S (Loop.processed st).
Proof.
  rewrite process_customer_result.
  destruct (buildCustomerPurchaseHistory _ _) as [h |];
    [| intros [= <-]; reflexivity].
  destruct (isCustomerEligible tz h _ _ _); [| intros [= <-]; reflexivity].
  destruct (calculateCustomerAffinity h _ _ _); try discriminate.
  rewrite bind_Returns. intros [= <-]. reflexivity.
Qed.

Lemma customer_loop_console (tz : TimeZone.t)
    (orders : list Order.t) (M : CoAffinityMatrix.t)
    (goalCategory : string) (activeDays referenceDate : Z) (total : nat)
    (customers : list Customer.t) (st st' : Loop.t) :
  result (for_of_io customers
            (process_customer tz orders M (createCategoryIndexMap M) goalCategory
               activeDays referenceDate total) st) = Returns st' ->
  console (for_of_io customers
             (process_customer tz orders M (createCategoryIndexMap M) goalCategory
                activeDays referenceDate total) st)
  = map (progress_line total)
      (filter (fun k => (k mod 1000 = 0)%nat)
         (seq (S (Loop.processed st)) (length customers))).
Proof.
  revert st. induction customers as [| c rest IH]; intros st; [reflexivity |].
  cbn [for_of_io length seq]. rewrite result_bind, console_bind.
  destruct (result (process_customer tz orders M (createCategoryIndexMap M)
                      goalCategory activeDays referenceDate total c st))
    as [s1 | e |] eqn:E1; try discriminate.
  rewrite bind_Returns. intros Hrest.
  rewrite (IH _ Hrest), (process_customer_processed tz _ _ _ _ _ _ _ _ _ E1).
  rewrite process_customer_console, filter_cons.
  destruct (decide (S (Loop.processed st) mod 1000 = 0)%nat); reflexivity.
Qed.

(** X29 (processAllCustomers, console): a run that returns writes one opening
    line with the number of customers, one progress line after every
    thousandth customer, and three closing lines whose numbers are the number
    of customers, of results and of skip records; results and skip records
    together are as many as the customers. *)
Theorem processAllCustomers_console (tz : TimeZone.t)
    (customers : list Customer.t)
    (orders : list Order.t) (coAffinityMatrix : CoAffinityMatrix.t)
    (goalCategory : string) (activeDays referenceDate : Z) (batch : Batch.t) :
  let run :=
    processAllCustomers tz customers orders coAffinityMatrix goalCategory
      activeDays referenceDate in
  let total := length customers in
  result run = Returns batch ->
  console run
  = ["Processing " +:+ pretty total +:+ " customers..."]
    ++ map (progress_line total)
         (filter (fun k => (k mod 1000 = 0)%nat) (seq 1 total))
    ++ [newline +:+ "Processed " +:+ pretty total +:+ " customers";
        "  Eligible: " +:+ pretty (length (Batch.results batch));
        "  Skipped: " +:+ pretty (length (Batch.skipped batch))]
  /\ (length (Batch.results batch) + length (Batch.skipped batch) = total)%nat.
Proof.
  intros run total Hrun. unfold run in *.
  assert (Hin : goalCategory ∈ CoAffinityMatrix.categories coAffinityMatrix).
  { destruct (decide (goalCategory ∈ CoAffinityMatrix.categories coAffinityMatrix))
      as [H | H]; [exact H |].
    rewrite (processAllCustomers_invalid tz _ _ _ _ _ _ H) in Hrun. discriminate. }
  unfold processAllCustomers in *. rewrite decide_True in * by exact Hin.
  cbv zeta in *.
  rewrite result_bind in Hrun. cbn [console_log result] in Hrun.
  rewrite bind_Returns, result_bind in Hrun.
  rewrite console_bind. cbn [console_log result console].
  rewrite console_bind.
  destruct (result (for_of_io customers _ _)) as [st | e |] eqn:Eloop;
    try discriminate.
  rewrite (customer_loop_console tz _ _ _ _ _ _ _ _ _ Eloop).
  rewrite customer_loop in Eloop.
  destruct (score_all _ _ _ _) as [rs | e |] eqn:Escore; try discriminate.
  rewrite bind_Returns in Eloop. injection Eloop as <-.
  apply score_all_length in Escore.
  cbn in Hrun. injection Hrun as <-.
  cbn [Loop.results Loop.skipped Loop.processed Loop.eligible Batch.results
       Batch.skipped app length] in *.
  pose proof (scored_or_skipped tz orders goalCategory activeDays referenceDate
                customers) as Hsum.
  split; [| lia].
  rewrite Escore. cbn. reflexivity.
Qed.

Lemma processAllCustomers_console_witness :
  console (processAllCustomers utc [alice; bob; carol; dave] shop_orders shop_matrix
             "beauty" 90 (day 250))
  = ["Processing " +:+ pretty 4%nat +:+ " customers..."]
    ++ map (progress_line 4)
         (filter (fun k => (k mod 1000 = 0)%nat) (seq 1 4))
    ++ [newline +:+ "Processed " +:+ pretty 4%nat +:+ " customers";
        "  Eligible: " +:+ pretty 1%nat;
        "  Skipped: " +:+ pretty 3%nat].
Proof.
  eapply (processAllCustomers_console utc [alice; bob; carol; dave] shop_orders
            shop_matrix "beauty" 90 (day 250)
            (Batch.mk [_] [_; _; _])).
  reflexivity.
Defined.
